(* ===== verification/_CoqProject ===== *)
-Q . S2P
Prelude.v
Envelope.v
Errors.v
Runtime.v
Protocol.v
Context.v
Wrapper.v
AnyReceiver.v
Receiver.v
Requests.v
Lifecycle.v
Derive.v
Relay.v
Interface.v
Admission.v
Reserve.v
Stats.v
Bus.v
Examples.v
