(* ===== verification/Prelude.v ===== *)
(** * A verification development of the messagebus receiver core

    The program is the Rust crate [messagebus], an in-process typed
    message bus.  A message type is given a [TypeTag] and the [Message]
    shims by the derive macro ([src/crates/derive/src/lib.rs]); a handler
    strategy (a queue, a pool, a batch, an actor) is wrapped by the
    [ReceiverWrapper] of [src/src/receiver.rs], which the bus reaches
    through the [Receiver] handle.  A producer first takes a [Permit]
    ([reserve] / [try_reserve], bounded by [limit] on the atomic counter
    [processing]), then [send]s the message with a correlation id ([mid]);
    a requester registers a waiter in the waiters slab
    ([add_response_waiter*]) whose key is the [mid] the strategy's answer
    carries.  A single event-poll task ([start_polling_events]) takes the
    strategy's [Event]s: a [Response] counts [processing] down, wakes one
    reserving task and forwards the value to the waiter's oneshot channel;
    the other events drive the [ready], [flushed], [synchronized] and
    [closed] notifications.  Errors are the [Error] envelope of
    [src/src/error.rs] with its erasing conversions.

    ** Files

    - [Prelude] (this file): [u64] arithmetic with its wrap-around
      ([wrap64], [fetch_sub64]), Rust's [Result] ([result]), the [outcome]
      of code that may panic with the bind [x <-! c ;; k] in [mb_scope],
      the tactics and the hint databases [mb].
    - [Envelope]: [Box<dyn Message>] as [BoxedMessage] (a type with its
      [TypeId], [TypeTag] and capabilities, and a value) and the shims the
      derive macro emits ([downcast], [try_clone_into], [try_clone_boxed],
      [as_shared_boxed], [as_shared_ref], [type_tag]).
    - [Errors]: [error.rs]: [SendError], [Error], [into_boxed]
      ([send_error_into_boxed]), [into_dyn], [map] ([error_map]), [specify],
      [from_typed], and what the erasures keep and lose.
    - [Runtime]: the contracts of the libraries the code calls, not their
      code: tokio's [Notify] (waiters, [notify_waiters], [notify_one] with
      its stored permit), tokio's [oneshot] channel ([Oneshot]) and
      [sharded_slab::Slab] ([Slab]: insert with a capacity, take), with
      their lemmas.
    - [Protocol]: [Stats], [Action], [Event] and the strategy traits
      [SendUntypedReceiver], [SendTypedReceiver], [ReciveTypedReceiver] as
      the class [Strategy], with the contract [StrategyLaws] every
      strategy must meet (spec 4.2) and a reference instance
      [BufferStrategy] (modelled from the spec; the concrete strategies are
      not under [src/]).
    - [Context]: [ReceiverContext], [Permit] with its [Drop]
      ([drop_permit], [permit_drop]) and [try_reserve] as its loop of
      atomic accesses ([reserve_step], [reserve_loop]), with its
      specification, termination and the context invariant.
    - [Wrapper]: [ReceiverWrapper] with its [Waiter]s, the
      [add_response_listener]s, [response], [accept], [send_boxed],
      [send_action], and the event-poll loop: each match arm is a list of
      atomic [LoopOp]s ([event_ops]) run by [exec_op], a turn is
      [handle_event], the loop over the events at hand is [poll_loop]; the
      invariant [wrapper_wf] and its preservation; delivery of responses,
      the loop's exit, [accept] against [send_boxed].
    - [AnyReceiver]: the type-checked views [AnyReceiver] and
      [AnyWrapperRef] and their casts.
    - [Receiver]: the [Receiver] handle: [send], [force_send],
      [send_boxed], the [add_response_waiter*] and their futures, [init]:
      the request/response round trip, [init]'s repeated [Init].
    - [Requests]: the drop of a [ReceiverWrapper] ([drop_receiver]: the
      drop glue drops the waiters slab and with it every waiter's oneshot
      sender), over any run of the wrapper's state-changing operations
      ([wop]: waiter registration, loop steps, strategy steps, sends,
      dropped futures) from [Receiver::new].
    - [Lifecycle]: [ready], [close], [sync] and [flush] as caller tasks
      (program points [LTask]) interleaved with the event-poll loop, the
      step relation [lstep] taking the loop's arms as a parameter (the
      code's [event_ops] or the spec's order [event_ops_spec]), with
      stdpp's [rtc] for its runs.
    - [Derive]: the derive macros of [src/crates/derive/src/lib.rs]:
      the attribute loop ([fold_attrs], [parse_tags], [parse_type_tag]),
      [type_tag_part] and the [format!] of the emitted [type_tag_()]
      ([format_str], [tag_value]); an abstract tag [tag_of] of type
      applications with its decoder [parse_tag].
    - [Relay]: the relay adapter of the test [src/tests/test_relay.rs]
      ([TestRelay]: [accept], [iter_types], [send], [send_msg],
      [poll_events] over its unbounded channel), with the tags the derive
      macro gives the test's types.
    - [Interface]: the erased interface: [TypeTagAccept] and
      [ReceiverTrait] as classes, [ReceiverWrapper] and the test relay as
      instances, the [Receiver] handle as a trait object ([DynReceiver])
      with its delegating methods, and the contract of [accept] and
      [iter_types] ([TypeTagAcceptLaws]); the listener traits behind
      [wrapper()] and [PermitDrop] as classes with their instances.
    - [Admission]: the interleaving of producer tasks (each a program
      counter of [reserve] / [send] / [force_send]) with the event-poll
      loop over one shared receiver, as the step relation [astep] with
      [reachable].
    - [Reserve]: the wakeups of producers waiting in [Receiver::reserve]
      on [reserve_notify], on the runs of [astep] that take no
      [Response] ([quiet_astep]).
    - [Stats]: [ReceiverStats] and its [Display] ([receiver_stats_fmt]),
      with a reader of the text ([parse_receiver_stats]).
    - [Bus]: the [Bus] the examples run on, which is not under [src/],
      modelled from the spec (6): a pool of tasks (handler invocations
      and [main]) running bodies of statements ([Stmt]: [println!],
      [sleep], [send], [flush], [close]), interleaved by the step
      relation [bstep]; [send] reaches every subscription whose type
      matches, once each has a permit under its capacity; the [trace] of
      a body is what it and the handlers it triggers will do; an
      executable scheduler [sched_run] whose runs are runs of [bstep].
    - [Examples]: the handlers, registries and [main]s of
      [src/examples/demo_async.rs] ([DemoAsync]) and
      [src/examples/demo_backpressure.rs] ([DemoBackpressure]).

    ** State and operations

    Shared state is passed explicitly: a [ReceiverWrapper S] holds the
    strategy state [S], the waiters slab, the context and the store of
    oneshot channels (keyed by a channel id, so that the requester's end
    and the waiter's end alias one channel).  Operations that may panic
    ([unwrap], [unimplemented!]) return an [outcome]; a Rust [Result] is a
    [result].  [processing] is a [u64] kept in [Z] with its wrap-around
    written out.  A [TypeId] is a [positive] and a [TypeTag] a [string], so
    two distinct types may share a tag, as they may in Rust.

    ** Theorems

    By group:
    - Admission ([Admission], [Context], [Receiver]): under every
      interleaving of [reserve], [send] and the event loop,
      [0 <= processing <= limit], and [processing] equals the units held,
      pending at the strategy, fused on refused sends or taken by the loop
      ([admission_invariant], by rule induction on [astep]); refused sends
      leak their permit and [limit] of them block admission forever
      ([refused_sends_block_admission]); a [force_send] answered by the
      strategy wraps [processing] to [u64::MAX]
      ([force_send_wraps_processing]); [try_reserve]'s specification,
      termination and invariant; [send] fuses its permit; a dropped permit
      wraps at zero.
    - Responses ([Wrapper], [Receiver]): the request/response round trip,
      delivery for every waiter variant, at most one answer per [mid], and
      the panic of the poll loop when a requester dropped its future (spec
      scenario 5).  Every live request sender is held by a waiter of the
      slab (the invariant [senders_held], by rule induction on [wop]), so
      dropping the receiver resolves every request future, with the
      response delivered or else [NoResponse]
      ([receiver_drop_resolves_requests], spec 4.3 and 8).
    - Reserve ([Reserve]): a dropped permit gives its unit back without
      waking the [reserve_notify] waiters, so a producer waiting in
      [reserve] stays waiting below [limit] until a [Response] comes
      ([cancelled_permit_strands_reserver], by an invariant of the
      quiet steps); a producer running [try_reserve] alone in the
      interleaving ends holding a permit with [processing] one higher
      exactly when [processing < limit], and otherwise goes on to await
      [reserve_notify] ([try_reserve_is_a_run]).
    - Interface ([Interface]): [Receiver::accept] holds exactly for the
      triples [Receiver::iter_types] advertises for every lawful
      receiver ([dyn_accept_iff]); the wrapper is lawful, the test relay
      is not.
    - Lifecycle ([Lifecycle]): the [Ready] arm's order loses the wakeup of
      a [ready()] caller for good ([ready_lost_wakeup]), the spec's order
      does not ([ready_spec_order_no_lost_wakeup]), a caller after
      [InitFailed] waits for good ([ready_after_init_failed_waits]), and
      subscribing before sending means no notification fired after a
      [close]/[sync]/[flush] caller reached [send_action] is lost: every
      later state has the caller returned or woken
      ([lifecycle_waiter_woken], by an invariant of the caller's
      subscription, then of its wakeup, over every interleaving).
    - Dispatch and types: [init] resends [Init], the loop stops at
      [Exited], [accept] by tag against [send_boxed] by [TypeId], [Full]
      reported as [Closed], [send] of another type panics, the casts of
      [AnyReceiver]/[AnyWrapperRef].
    - Derive ([Derive]): the emitted tag refines [tag_of]
      ([derive_message_tag]); tags of distinct derived types differ
      ([derived_tags_injective], through the decoder's round trip
      [parse_tag_correct]); const parameters make the macro panic; the
      [clone]/[shared] capabilities follow the [message] attributes.
    - Relay ([Relay]): the test relay against the relay adapter contract
      of the spec: advertised triples accepted, actions and messages
      answered in order, scenario 4; its [accept] accepts more than it
      handles (a lemma of [Interface]).
    - Errors ([Errors]): the erasing conversions and their round trip.
    - Examples ([Bus], [Examples]): for handlers that send only to
      types of smaller rank, every run of the bus ends and never
      deadlocks while a task is left, prints the same lines in every
      order of the tasks, and keeps each subscription within its
      capacity.  [demo_async] ends with every handler's line, the [i32]
      and [i16] messages handled by both receivers
      ([demo_async_completes]); in [demo_backpressure] [main] prints
      [sending k+1] only after [k - 1] messages were handled
      ([demo_backpressure_one_at_a_time]).  Both end in the same number
      of steps under every schedule, 31 and 73 ([examples_run_length]:
      each step of the bus consumes one event of the run left).
    - Display ([Stats]): the text of [ReceiverStats] reads back when
      the names have no [':'] ([receiver_stats_display_roundtrip]).
    - [Receiver]'s [PartialEq] compares the [TypeId] of the [Arc] itself,
      so all receivers are equal ([receiver_eq_ignores_inner]).

    ** Bounds and fuel

    [try_reserve] is a loop of a [load] and a [compare_exchange]; run by a
    task alone it breaks after at most two accesses, so [try_reserve] runs
    [reserve_loop] with fuel 2 and [try_reserve_total] shows the fuel is
    enough.  In
    [Admission] the loop is not run with fuel: each access is one step of
    [astep], so a failed [compare_exchange] under contention is a step
    back to the [load], and no bound is assumed.  [poll_loop] is
    structural on the list of events.  The waiters slab has a capacity
    ([Slab.cap]) standing for sharded_slab's configured maximum; a full
    slab is the [AddListenerError] path.  The tag decoder [parse_tag]
    runs with fuel one more than the length of the string, which each
    nesting level and each argument consume at most one character of
    ([parse_roundtrip_fuel]).  The [trace] of a bus body is computed
    [n] levels of handlers deep; for handlers ranked below [top], any
    [n >= rank] gives the same run ([trace_stable]), so [top] levels are
    enough.  [parse_fields] runs with the length of its text as fuel, and
    each field takes at least two characters ([length_fmt_fields]).

    ** Not modelled

    Malformed attribute tokens of the derive macros (a [syn] parse error
    panics in [unwrap]) and the trait bounds the macros add; [new_relay]
    and the body of the relay test (it drives [Bus] and the relay
    wrapper, which are not under [src/]); of the examples, the [sync]
    methods (the bus calls them only on [sync()]), [env_logger] and the
    text of the printed values (a line is its format string and
    arguments); [Receiver]'s [Debug] text; logging, and the futures'
    wakers (the loop is fed the events [poll_events] returns); the
    views [typed()] and [wrapper()] through the trait object (their
    types depend on the receiver's [M], [R] and [E], so they are
    modelled on the wrapper only); [ReceiverPollerBuilder]
    (receiver.rs:132-134), which nothing in [src/] implements; the string
    [std::any::type_name] gives ([name()]) is a parameter; a message
    type's own [Clone::clone], which is not code of this repository, is
    taken to return an equal value ([try_clone_boxed]).  The
    bus is a model of the spec, not of code: the examples' theorems
    hold for the bus the spec describes. *)

From stdpp Require Export base gmap list strings.
From Stdlib Require Export ZArith Lia.

Declare Scope mb_scope.
Delimit Scope mb_scope with mb.

(** ** Unsigned 64-bit integers

    Rust's [u64] and [AtomicU64] are kept as [Z] values in
    [0, 2^64).  [AtomicU64::fetch_sub] wraps around on underflow; it is
    modelled by [wrap64]. *)

Definition u64_modulus : Z := 2 ^ 64.

Definition wrap64 (z : Z) : Z := z mod u64_modulus.

Definition is_u64 (z : Z) : bool := (0 <=? z)%Z && (z <? u64_modulus)%Z.

(** [AtomicU64::fetch_sub(d)]: the stored value after the operation. *)
Definition fetch_sub64 (x d : Z) : Z := wrap64 (x - d).

(** [AtomicU64::fetch_add(d)]. *)
Definition fetch_add64 (x d : Z) : Z := wrap64 (x + d).

Lemma is_u64_spec z : is_u64 z = true <-> (0 <= z < u64_modulus)%Z.
Proof. unfold is_u64. rewrite andb_true_iff, Z.leb_le, Z.ltb_lt. tauto. Qed.

Lemma wrap64_small z : (0 <= z < u64_modulus)%Z -> wrap64 z = z.
Proof. apply Z.mod_small. Qed.

Lemma wrap64_range z : (0 <= wrap64 z < u64_modulus)%Z.
Proof. apply Z.mod_pos_bound. reflexivity. Qed.

Lemma fetch_sub64_pos x : (1 <= x < u64_modulus)%Z -> fetch_sub64 x 1 = (x - 1)%Z.
Proof. intros. apply wrap64_small. lia. Qed.

Lemma fetch_sub64_zero : fetch_sub64 0 1 = (u64_modulus - 1)%Z.
Proof. reflexivity. Qed.

Lemma fetch_add64_small x : (0 <= x)%Z -> (x + 1 < u64_modulus)%Z -> fetch_add64 x 1 = (x + 1)%Z.
Proof. intros. apply wrap64_small. lia. Qed.

(** ** Rust's [Result] *)

Inductive result (T E : Type) : Type :=
| Ok (t : T)
| Err (e : E).
Arguments Ok {T E} t.
Arguments Err {T E} e.

Definition map_err {T E F} (f : E -> F) (r : result T E) : result T F :=
  match r with Ok t => Ok t | Err e => Err (f e) end.

Definition map_ok {T U E} (f : T -> U) (r : result T E) : result U E :=
  match r with Ok t => Ok (f t) | Err e => Err e end.

Definition is_ok {T E} (r : result T E) : bool :=
  match r with Ok _ => true | Err _ => false end.

(** ** Code that may panic

    A Rust call that may panic ([unwrap], [unimplemented!]) returns an
    [outcome]: [Done] with its value, or [Panic] with the message.  A panic
    ends the task that runs the code. *)

Inductive outcome (A : Type) : Type :=
| Done (a : A)
| Panic (msg : string).
Arguments Done {A} a.
Arguments Panic {A} msg.

Definition obind {A B} (c : outcome A) (k : A -> outcome B) : outcome B :=
  match c with Done a => k a | Panic m => Panic m end.

Notation "x <-! c ;; k" := (obind c (fun x => k))
  (at level 100, c at next level, k at level 200, right associativity) : mb_scope.

(** [Result::unwrap] and [Option::unwrap]. *)
Definition unwrap {T E} (r : result T E) : outcome T :=
  match r with
  | Ok t => Done t
  | Err _ => Panic "called `Result::unwrap()` on an `Err` value"
  end.

Definition unwrap_opt {T} (o : option T) : outcome T :=
  match o with
  | Some t => Done t
  | None => Panic "called `Option::unwrap()` on a `None` value"
  end.

Definition is_panic {A} (o : outcome A) : bool :=
  match o with Done _ => false | Panic _ => true end.

Lemma obind_done {A B} (a : A) (k : A -> outcome B) : obind (Done a) k = k a.
Proof. reflexivity. Qed.

Lemma obind_panic {A B} m (k : A -> outcome B) : obind (Panic m) k = Panic m.
Proof. reflexivity. Qed.

Lemma obind_Done_inv {A B} (c : outcome A) (k : A -> outcome B) b :
  obind c k = Done b -> exists a, c = Done a /\ k a = Done b.
Proof. destruct c; simpl; [eauto | discriminate]. Qed.

Lemma is_Some_decide (P : Prop) `{Decision P} {A} (x : A) :
  is_Some (if decide P then Some x else None) <-> P.
Proof.
  unfold is_Some. case_decide as HP; split; intros Hs.
  - exact HP.
  - exists x; reflexivity.
  - destruct Hs as [y Hy]; discriminate.
  - contradiction.
Qed.

(** An invariant of a step relation holds along its runs. *)
Lemma rtc_preserved {A} (R : relation A) (P : A -> Prop) x y :
  (forall a b, R a b -> P a -> P b) -> P x -> rtc R x y -> P y.
Proof. intros Hs Hx Hr. induction Hr; eauto. Qed.

(** A weighted count of a list updated at a position in range. *)
Lemma sum_list_map_insert {A} (f : A -> nat) (l : list A) i x y :
  l !! i = Some x ->
  (sum_list (map f (<[i := y]> l)) + f x = sum_list (map f l) + f y)%nat.
Proof.
  revert i. induction l as [|a l IH]; intros [|i] Hi; simpl in *; try discriminate.
  - injection Hi as ->. lia.
  - specialize (IH i Hi). lia.
Qed.

Lemma bind_map {A B C} (f : A -> B) (g : B -> list C) (l : list A) :
  map f l ≫= g = l ≫= (fun x => g (f x)).
Proof. induction l as [|x l IH]; [done|]. cbn [map]. by rewrite !bind_cons, IH. Qed.

(** An element of a non-empty list where [f] is least. *)
Lemma list_min_exists {A} (f : A -> nat) (l : list A) :
  l <> [] -> exists x, x ∈ l /\ forall y, y ∈ l -> f x <= f y.
Proof.
  induction l as [|a l IH]; [done|]. intros _.
  destruct l as [|b l].
  - exists a. split; [set_solver|]. intros y ->%list_elem_of_singleton. lia.
  - destruct IH as (x & Hx & Hmin); [done|].
    destruct (decide (f a <= f x)).
    + exists a. split; [set_solver|]. intros y [->|Hy]%elem_of_cons; [lia|]. specialize (Hmin y Hy). lia.
    + exists x. split; [set_solver|]. intros y [->|Hy]%elem_of_cons; [lia|]. by apply Hmin.
Qed.

Lemma filter_none {A} (P : A -> Prop) `{forall x, Decision (P x)} (l : list A) :
  (forall x, x ∈ l -> ~ P x) -> filter P l = [].
Proof.
  induction l as [|x l IH]; intros Hn; [done|]. rewrite filter_cons_False by set_solver.
  apply IH. set_solver.
Qed.

(** In [imap (fun j x => (f j, x)) l] with [f] injective, an index occurs
    at most once. *)
Lemma filter_imap_index {A} (P : A -> Prop) `{forall x, Decision (P x)} (l : list A) (f : nat -> nat) i :
  Inj eq eq f -> length (filter (fun p => p.1 = i /\ P p.2) (imap (fun j x => (f j, x)) l)) <= 1.
Proof.
  revert f. induction l as [|x l IH]; intros f Hf; [simpl; lia|]. rewrite imap_cons, filter_cons.
  case_decide as Hx; simpl in *; [|apply (IH (fun j => f (S j))); intros ?? ?%Hf; lia].
  rewrite filter_none; [simpl; lia|]. intros [j y] (k & z & [= -> ->] & _)%elem_of_lookup_imap.
  simpl. intros [<- _]. destruct Hx as [Hx _]. apply Hf in Hx. lia.
Qed.

Lemma forallb_false {A} (f : A -> bool) (l : list A) :
  forallb f l = false -> exists x, x ∈ l /\ f x = false.
Proof.
  induction l as [|x l IH]; simpl; [done|]. destruct (f x) eqn:Hx; simpl.
  - intros (y & Hy & Hf)%IH. exists y. split; [set_solver|done].
  - intros _. exists x. split; [set_solver|done].
Qed.

Lemma suffix_of_drop {A} (l k : list A) :
  l `suffix_of` k -> exists n, n <= length k /\ l = drop n k.
Proof.
  intros [m ->]. exists (length m). split; [rewrite length_app; lia|]. by rewrite drop_app_length.
Qed.

(** The occurrences of [x] in [l]. *)
Definition occ {A} `{EqDecision A} (x : A) (l : list A) : nat := length (filter (fun y => y = x) l).

Lemma occ_app {A} `{EqDecision A} (x : A) l1 l2 : occ x (l1 ++ l2) = occ x l1 + occ x l2.
Proof. unfold occ. by rewrite filter_app, length_app. Qed.

#[export] Instance occ_proper {A} `{EqDecision A} (x : A) : Proper ((≡ₚ) ==> (=)) (occ x).
Proof. intros l1 l2 Hp. unfold occ. by rewrite Hp. Qed.

Lemma occ_elem_of {A} `{EqDecision A} (x : A) l : x ∈ l <-> occ x l <> 0.
Proof.
  unfold occ. split.
  - intros Hx. assert (Hf : x ∈ filter (fun y => y = x) l) by (by apply list_elem_of_filter).
    destruct (filter _ l); [by apply elem_of_nil in Hf|done].
  - destruct (filter _ l) as [|y k] eqn:Hf; [done|]. intros _.
    assert (Hy : y ∈ filter (fun y => y = x) l) by (rewrite Hf; set_solver).
    by apply list_elem_of_filter in Hy as [-> ?].
Qed.

Lemma omap_bind {A B C} (f : B -> option C) (g : A -> list B) (l : list A) :
  omap f (l ≫= g) = l ≫= (fun x => omap f (g x)).
Proof. induction l as [|x l IH]; [done|]. by rewrite !bind_cons, omap_app, IH. Qed.

(** Each element adding at most one occurrence. *)
Lemma occ_bind_le {A B} `{EqDecision B} (x : B) (g : A -> list B) (l : list A) :
  (forall y, y ∈ l -> occ x (g y) <= 1) -> occ x (l ≫= g) <= length l.
Proof.
  induction l as [|y l IH]; intros Hl; [done|]. rewrite bind_cons, occ_app. simpl.
  specialize (IH (fun z Hz => Hl z ltac:(set_solver))). specialize (Hl y ltac:(set_solver)). lia.
Qed.

Lemma filter_length_mono {A} (P Q : A -> Prop) `{forall x, Decision (P x)} `{forall x, Decision (Q x)}
    (l : list A) :
  (forall x, x ∈ l -> P x -> Q x) -> length (filter P l) <= length (filter Q l).
Proof.
  induction l as [|x l IH]; intros Himp; [done|]. rewrite !filter_cons.
  specialize (IH ltac:(set_solver)). pose proof (Himp x ltac:(set_solver)).
  repeat case_decide; simpl; try lia; tauto.
Qed.

(** ** Strings

    stdpp makes [String.append] [simpl never]; these are its equations. *)

Lemma append_String c s r : String c s +:+ r = String c (s +:+ r).
Proof. reflexivity. Qed.

Lemma append_Empty s : EmptyString +:+ s = s.
Proof. reflexivity. Qed.

Lemma append_Empty_r s : s +:+ EmptyString = s.
Proof. induction s; [done|]. rewrite append_String. congruence. Qed.

Lemma append_assoc s1 s2 s3 : s1 +:+ (s2 +:+ s3) = (s1 +:+ s2) +:+ s3.
Proof. induction s1; [done|]. rewrite !append_String. congruence. Qed.

Lemma length_append s1 s2 : String.length (s1 +:+ s2) = (String.length s1 + String.length s2)%nat.
Proof. induction s1 as [|c s1 IH]; [done|]. rewrite append_String. simpl. by rewrite IH. Qed.

(** ** Automation *)

Create HintDb mb.
Create Rewrite HintDb mb.
#[export] Hint Rewrite @obind_done @obind_panic : mb.
#[export] Hint Rewrite append_String append_Empty append_Empty_r : mb.
#[export] Hint Resolve wrap64_range : mb.

(** [mb_case]: split every [match]/[if] of the goal and the hypotheses,
    then clean up the equations. *)
Ltac mb_case :=
  repeat (simpl in *; autorewrite with mb in *;
          first [ case_match | progress simplify_eq ]).

(** [u64_lia]: close a bound on [u64] values after unfolding the modulus. *)
Ltac u64_lia := unfold u64_modulus in *; lia.
