(* ===== verification/Envelope.v ===== *)
(** * Message envelopes: [Box<dyn Message>] and the derived message shims

    A Rust type is seen by the runtime through its [TypeId] (what
    [Any::downcast] compares), its [TypeTag] (the string the bus compares in
    [accept]) and the capabilities the derive macro gave it ([clone],
    [shared]).  A boxed message is such a type with a payload value.  The
    operations are those the derive macro of
    [src/crates/derive/src/lib.rs] emits for a message type:
    [as_any_boxed] + [downcast] (by [TypeId]), [try_clone_into],
    [try_clone_boxed], [as_shared_ref] and [as_shared_boxed]. *)

From S2P Require Import Prelude.

(** Payload values.  Messages are plain data in every use of the crate
    (integers, floats kept as their bits, unit, wrappers such as [Msg<F>]);
    the model only needs equality on them. *)
Inductive Val : Type :=
| VUnit
| VInt (z : Z)
| VStr (s : string)
| VPair (a b : Val).

#[export] Instance Val_eq_dec : EqDecision Val.
Proof. solve_decision. Defined.

(** A Rust type: [TypeId] (a [positive]), [TypeTag], and the two
    capabilities of [#[message(clone, shared)]]. *)
Record RTy : Type := mkRTy {
  ty_id : positive;
  ty_tag : string;
  ty_clone : bool;
  ty_shared : bool
}.

#[export] Instance RTy_eq_dec : EqDecision RTy.
Proof. solve_decision. Defined.

(** [Box<dyn Message>]: the concrete type and the value. *)
Record BoxedMessage : Type := mkBoxed {
  bm_ty : RTy;
  bm_val : Val
}.

#[export] Instance BoxedMessage_eq_dec : EqDecision BoxedMessage.
Proof. solve_decision. Defined.

(** [IntoBoxedMessage::into_boxed]: [Box::new(self)]. *)
Definition into_boxed (M : RTy) (v : Val) : BoxedMessage := mkBoxed M v.

(** [Message::type_tag] of a boxed message. *)
Definition type_tag (b : BoxedMessage) : string := ty_tag (bm_ty b).

(** [b.as_any_boxed().downcast::<M>()]: [Box<dyn Any>::downcast] compares
    [TypeId]s; on failure the box is handed back. *)
Definition downcast (M : RTy) (b : BoxedMessage) : result Val BoxedMessage :=
  if decide (ty_id (bm_ty b) = ty_id M) then Ok (bm_val b) else Err b.

(** [try_clone_boxed] (derive [clone_part]): [Some(Box::new(self.clone()))]
    for a [clone] message, [None] otherwise.  The type's own [Clone::clone]
    is not code of this repository ([#[derive(Clone)]] or a user impl): it
    is taken to return a value equal to [self], so the clone is the same
    [Val]. *)
Definition try_clone_boxed (b : BoxedMessage) : option BoxedMessage :=
  if ty_clone (bm_ty b) then Some (mkBoxed (bm_ty b) (bm_val b)) else None.

(** The slot [&mut dyn Any] of [try_clone_into]: an [Option<T>] for the
    type [T] it was created for, holding [slot_val]. *)
Record Slot : Type := mkSlot {
  slot_elem : RTy;
  slot_val : option Val
}.

(** [try_clone_into] (derive [clone_part]): [into.downcast_mut::<Option<Self>>()]
    succeeds when the slot was made for [Self]; then [into.replace(clone)]. *)
Definition try_clone_into (b : BoxedMessage) (into : Slot) : bool * Slot :=
  if ty_clone (bm_ty b) then
    if decide (ty_id (slot_elem into) = ty_id (bm_ty b))
    then (true, mkSlot (slot_elem into) (Some (bm_val b)))
    else (false, into)
  else (false, into).

(** [as_shared_boxed] (derive [shared_part]): [Ok(self)] as a shared
    message, or [Err(self)] back as a plain message. *)
Definition as_shared_boxed (b : BoxedMessage) : result BoxedMessage BoxedMessage :=
  if ty_shared (bm_ty b) then Ok b else Err b.

(** [as_shared_ref]: [Some(self)] or [None]. *)
Definition as_shared_ref (b : BoxedMessage) : option BoxedMessage :=
  if ty_shared (bm_ty b) then Some b else None.

(** The types of the request/response test of [tests/test_relay.rs]:
    [Msg<i16>] (derived with [clone]), [Msg<u8>] and its [Error]; they
    are the concrete instantiation the examples of the development run
    with. *)
Definition msg_ty : RTy := mkRTy 1 "Msg<i16>" true false.
Definition resp_ty : RTy := mkRTy 2 "Msg<u8>" true false.
Definition err_ty : RTy := mkRTy 3 "Error" false false.

(** ** Lemmas *)

Lemma downcast_same M v : downcast M (into_boxed M v) = Ok v.
Proof. unfold downcast; simpl. by rewrite decide_True. Qed.

Lemma downcast_other M M' v :
  ty_id M <> ty_id M' -> downcast M' (into_boxed M v) = Err (into_boxed M v).
Proof. intros H. unfold downcast; simpl. by rewrite decide_False. Qed.

#[export] Hint Rewrite downcast_same : mb.

