(* ===== verification/Errors.v ===== *)
(** * The error envelope of [src/src/error.rs]

    [SendError<M>] ([Closed]/[Full] with the message handed back) and
    [Error<M, E>] with its nine variants, and the conversions between
    typed and erased forms: [SendError::into_boxed], [Error::into_dyn],
    [Error::map], [Error::specify], [Error::from_typed] and the [From]
    impls.  A typed error [E] is boxed into [Box<dyn StdSyncSendError>]
    with its static type, so the erased form keeps its [TypeTag]. *)

From S2P Require Import Prelude Envelope.

(** [VoidError]: the empty enum, default [E] of [Error]. *)
Inductive VoidError : Set := .

(** [SendError<M>]. *)
Inductive SendError (M : Type) : Type :=
| Closed (m : M)
| Full (m : M).
Arguments Closed {M} m.
Arguments Full {M} m.

(** [erased_serde::Error]: opaque, carried verbatim. *)
Record SerdeError : Type := mkSerdeError { serde_msg : string }.

(** [Box<dyn StdSyncSendError>]: a typed error value with its type. *)
Record DynError : Type := mkDynError {
  de_ty : RTy;
  de_val : Val
}.

(** [Error<M, E>].  The variant [Error::SendError] is [SendErr] here, as the
    name [SendError] is taken by the type. *)
Inductive Error (M E : Type) : Type :=
| SendErr (e : SendError M)
| NoResponse
| NoReceivers
| AddListenerError
| MessageCastError
| Other (e : E)
| Serialization (s : SerdeError)
| OtherBoxed (b : DynError)
| WrongMessageType (m : M).
Arguments SendErr {M E} e.
Arguments NoResponse {M E}.
Arguments NoReceivers {M E}.
Arguments AddListenerError {M E}.
Arguments MessageCastError {M E}.
Arguments Other {M E} e.
Arguments Serialization {M E} s.
Arguments OtherBoxed {M E} b.
Arguments WrongMessageType {M E} m.

(** The erased error [Error] (= [Error<(), VoidError>]), the default instance. *)
Abbreviation ErasedError := (Error unit VoidError).

(** [SendError::<M>::into_boxed]. *)
Definition send_error_into_boxed (M_ty : RTy) (e : SendError Val) : SendError BoxedMessage :=
  match e with
  | Closed m => Closed (into_boxed M_ty m)
  | Full m => Closed (into_boxed M_ty m)
  end.

(** [impl From<SendError<M>> for Error<M, E>] ([#[from]]). *)
Definition error_from_send {M E} (e : SendError M) : Error M E := SendErr e.

(** [impl From<oneshot::error::RecvError> for Error<M, E>]. *)
Definition error_from_recv {M E} : Error M E := NoResponse.

(** [Error::<M, E>::into_dyn]: a typed error [E] of static type [E_ty] is
    boxed. *)
Definition into_dyn {M} (E_ty : RTy) (e : Error M Val) : Error M VoidError :=
  match e with
  | SendErr inner => SendErr inner
  | NoResponse => NoReceivers
  | NoReceivers => NoReceivers
  | Serialization s => Serialization s
  | Other inner => OtherBoxed (mkDynError E_ty inner)
  | OtherBoxed inner => OtherBoxed inner
  | WrongMessageType inner => WrongMessageType inner
  | AddListenerError => AddListenerError
  | MessageCastError => MessageCastError
  end.

(** [Error::<M, E>::map::<U>]: [U: From<Box<dyn StdSyncSendError>>]; a
    typed [Other] panics. *)
Definition error_map {M E U} (from_box : DynError -> U) (e : Error M E) : outcome (Error M U) :=
  match e with
  | SendErr inner => Done (SendErr inner)
  | NoResponse => Done NoReceivers
  | NoReceivers => Done NoReceivers
  | Serialization s => Done (Serialization s)
  | Other _ => Panic "expected boxed error!"
  | OtherBoxed inner => Done (Other (from_box inner))
  | WrongMessageType inner => Done (WrongMessageType inner)
  | AddListenerError => Done AddListenerError
  | MessageCastError => Done MessageCastError
  end.

(** [Error::<(), E>::specify::<M>]. *)
Definition specify {M E} (e : Error unit E) : outcome (Error M E) :=
  match e with
  | SendErr _ => Panic "cannot specify type on typed error"
  | WrongMessageType _ => Panic "cannot specify type on typed error"
  | NoResponse => Done NoReceivers
  | NoReceivers => Done NoReceivers
  | Serialization s => Done (Serialization s)
  | Other inner => Done (Other inner)
  | OtherBoxed inner => Done (OtherBoxed inner)
  | AddListenerError => Done AddListenerError
  | MessageCastError => Done MessageCastError
  end.

(** [Error::<Box<dyn Message>>::from_typed::<M>]. *)
Definition from_typed (M_ty : RTy) (err : Error Val VoidError) : Error BoxedMessage VoidError :=
  match err with
  | SendErr (Closed m) => SendErr (Closed (into_boxed M_ty m))
  | SendErr (Full m) => SendErr (Full (into_boxed M_ty m))
  | WrongMessageType m => WrongMessageType (into_boxed M_ty m)
  | NoResponse => NoReceivers
  | NoReceivers => NoReceivers
  | Serialization s => Serialization s
  | Other inner => match inner with end
  | OtherBoxed inner => OtherBoxed inner
  | AddListenerError => AddListenerError
  | MessageCastError => MessageCastError
  end.

(** ** Properties of the conversions *)

(** C34: [SendError::into_boxed] turns a full queue into a closed receiver:
    its result is always [Closed], while [Error::from_typed] keeps [Full].
    The two erasures of a send error agree exactly on [Closed] errors. *)
Theorem into_boxed_agrees_with_from_typed_iff_closed M_ty (s : SendError Val) :
  from_typed M_ty (SendErr s) = SendErr (send_error_into_boxed M_ty s)
  <-> exists m, s = Closed m.
Proof.
  destruct s as [m|m]; simpl; split.
  - eauto.
  - reflexivity.
  - discriminate.
  - intros [m' Hm']. discriminate.
Qed.

(** [SendError::into_boxed] never reports [Full]. *)
Theorem into_boxed_never_full M_ty (s : SendError Val) :
  exists m, send_error_into_boxed M_ty s = Closed m.
Proof. destruct s; simpl; eauto. Qed.

(** C35: none of the error conversions of [error.rs] produces [NoResponse]:
    [into_dyn], [map], [specify] and [from_typed] all turn it into
    [NoReceivers], so a requester can never tell a receiver that did not
    answer from a missing receiver once an error was converted. *)
Theorem conversions_never_NoResponse {M E U} E_ty M_ty (from_box : DynError -> U)
    (e1 : Error M Val) (e2 : Error M E) (e3 : Error unit E) (e4 : Error Val VoidError) :
  into_dyn E_ty e1 <> NoResponse /\
  error_map from_box e2 <> Done NoResponse /\
  @specify M E e3 <> Done NoResponse /\
  from_typed M_ty e4 <> NoResponse.
Proof.
  repeat split.
  - destruct e1; discriminate.
  - destruct e2; discriminate.
  - destruct e3; discriminate.
  - destruct e4 as [[]| | | | |[]| | |]; discriminate.
Qed.

(** Erasing a typed error keeps its type: [into_dyn] boxes [Other(e)]
    with the static type of [E], so its [TypeTag] is [E]'s. *)
Theorem into_dyn_keeps_type_tag {M} E_ty (e : Error M Val) v :
  e = Other v ->
  exists b, into_dyn E_ty e = OtherBoxed b /\ ty_tag (de_ty b) = ty_tag E_ty /\ de_val b = v.
Proof. intros ->. simpl. eauto. Qed.

(** Round trip typed -> erased -> typed.  [map] with the downcast that
    unboxes a [Box<dyn StdSyncSendError>] recovers every typed error
    [into_dyn] erased, except [NoResponse], which comes back as
    [NoReceivers] (an [OtherBoxed] comes back typed, as [map] means to). *)
Theorem map_into_dyn_roundtrip {M} E_ty (e : Error M Val) :
  e <> NoResponse -> (forall b, e <> OtherBoxed b) ->
  error_map de_val (into_dyn E_ty e) = Done e.
Proof. intros H1 H2. destruct e; simpl; congruence. Qed.

Lemma map_into_dyn_roundtrip_witness :
  (Other (VInt 3) : Error unit Val) <> NoResponse /\
  error_map de_val (into_dyn (mkRTy 7 "E" false false) (Other (VInt 3) : Error unit Val))
  = Done (Other (VInt 3)).
Proof.
  split; [discriminate|].
  apply map_into_dyn_roundtrip; [discriminate | intros b; discriminate].
Defined.

Lemma into_dyn_keeps_type_tag_witness :
  exists b, into_dyn (mkRTy 7 "E" false false) (Other (VInt 3) : Error unit Val) = OtherBoxed b
            /\ ty_tag (de_ty b) = "E" /\ de_val b = VInt 3.
Proof. apply (into_dyn_keeps_type_tag (M:=unit) (mkRTy 7 "E" false false) (Other (VInt 3)) (VInt 3)). reflexivity. Defined.
