(* ===== verification/Runtime.v ===== *)
(** * Contracts of the libraries the receiver calls

    [receiver.rs] builds on three library primitives.  They are not code of
    the repository; they are modelled from their documented contracts, as
    much as the receiver relies on:
    - [tokio::sync::Notify]: [notified()] registers a waiter (a future
      created by [notified()] receives every later [notify_waiters], even
      before it is polled); [notify_waiters] wakes every registered waiter
      and stores nothing; [notify_one] wakes the oldest waiter or, when
      there is none, stores one permit that the next waiter consumes.
    - [tokio::sync::oneshot]: a channel with one sender and one receiver;
      [send] fails, handing the value back, when the receiver was dropped;
      the receiver gets [RecvError] when the sender is dropped unsent.
    - [sharded_slab::Slab]: [insert] returns a fresh key, or [None] when
      the slab is full; [take] removes and returns the entry of a key.
      Keys carry a generation in the real slab, so a stale key never finds
      a newer entry; the model hands out keys that are never reused, which
      has that property. *)

From S2P Require Import Prelude.

(** ** [tokio::sync::Notify] *)

Module Notify.

Record t : Type := mk {
  waiting : list nat;  (** registered [Notified] futures, oldest first *)
  woken : list nat;    (** futures woken and not yet completed *)
  permit : bool        (** the stored [notify_one] permit *)
}.

Definition new : t := mk [] [] false.

(** [notify.notified()] by task [id]. *)
Definition notified (id : nat) (n : t) : t :=
  mk (waiting n ++ [id]) (woken n) (permit n).

(** [notify_waiters()]. *)
Definition notify_waiters (n : t) : t :=
  mk [] (woken n ++ waiting n) (permit n).

(** [notify_one()]. *)
Definition notify_one (n : t) : t :=
  match waiting n with
  | [] => mk [] (woken n) true
  | x :: rest => mk rest (woken n ++ [x]) (permit n)
  end.

(** Polling the [Notified] future of [id]: [Some] with the new state when
    it completes. *)
Definition poll (id : nat) (n : t) : option t :=
  if decide (id ∈ woken n) then Some (mk (waiting n) (filter (fun x => x <> id) (woken n)) (permit n))
  else if permit n then Some (mk (filter (fun x => x <> id) (waiting n)) (woken n) false)
  else None.

(** Dropping the [Notified] future of [id] before it completed: it leaves
    the waiter list (a notification it had received is lost with it). *)
Definition drop_notified (id : nat) (n : t) : t :=
  mk (filter (fun x => x <> id) (waiting n)) (filter (fun x => x <> id) (woken n)) (permit n).

End Notify.

(** ** [tokio::sync::oneshot] *)

Module Oneshot.

Record chan (V : Type) : Type := mk {
  rx_alive : bool;
  tx_alive : bool;
  value : option V
}.
Arguments mk {V}.
Arguments rx_alive {V}.
Arguments tx_alive {V}.
Arguments value {V}.

Definition new {V} : chan V := mk true true None.

(** [Sender::send(v)]: consumes the sender. *)
Definition send {V} (v : V) (c : chan V) : result unit V * chan V :=
  if rx_alive c then (Ok tt, mk true false (Some v)) else (Err v, mk false false (value c)).

(** Dropping the sender unsent / the receiver. *)
Definition drop_tx {V} (c : chan V) : chan V := mk (rx_alive c) false (value c).
Definition drop_rx {V} (c : chan V) : chan V := mk false (tx_alive c) (value c).

(** [rx.await]: [Some (Ok v)], [Some (Err RecvError)], or [None] while
    pending. *)
Definition recv {V} (c : chan V) : option (result V unit) :=
  match value c with
  | Some v => Some (Ok v)
  | None => if tx_alive c then None else Some (Err tt)
  end.

End Oneshot.

(** ** [sharded_slab::Slab] *)

Module Slab.

Record t (V : Type) : Type := mk {
  entries : gmap Z V;
  next : Z;   (** the next fresh key *)
  cap : nat   (** how many entries fit *)
}.
Arguments mk {V}.
Arguments entries {V}.
Arguments next {V}.
Arguments cap {V}.

Definition new {V} (cap : nat) : t V := mk ∅ 0 cap.

(** [slab.insert(v)]. *)
Definition insert {V} (v : V) (s : t V) : option Z * t V :=
  if decide (size (entries s) < cap s)%nat
  then (Some (next s), mk (<[next s := v]> (entries s)) (next s + 1) (cap s))
  else (None, s).

(** [slab.take(key)]. *)
Definition take {V} (key : Z) (s : t V) : option V * t V :=
  match entries s !! key with
  | Some v => (Some v, mk (delete key (entries s)) (next s) (cap s))
  | None => (None, s)
  end.

(** Well-formedness: every live key is below [next] and non-negative. *)
Definition wf {V} (s : t V) : Prop :=
  forall k v, entries s !! k = Some v -> (0 <= k < next s)%Z.

Lemma new_wf {V} cap : wf (@new V cap).
Proof. intros k v H. simpl in H. by rewrite lookup_empty in H. Qed.

Lemma insert_wf {V} (v : V) s : wf s -> (0 <= next s)%Z -> wf (insert v s).2.
Proof.
  intros Hwf Hn k w. unfold insert. case_decide; simpl; [|apply Hwf].
  rewrite lookup_insert. case_decide; [intros; subst; lia|].
  intros Hk. specialize (Hwf _ _ Hk). lia.
Qed.

Lemma take_wf {V} key (s : t V) : wf s -> wf (take key s).2.
Proof.
  intros Hwf k w. unfold take. destruct (entries s !! key) eqn:E; simpl; [|apply Hwf].
  rewrite lookup_delete. case_decide; [discriminate|]. apply Hwf.
Qed.

Lemma next_fresh {V} (s : t V) : wf s -> entries s !! next s = None.
Proof.
  intros Hwf. destruct (entries s !! next s) eqn:E; [|done].
  specialize (Hwf _ _ E). lia.
Qed.

Lemma insert_Some {V} (v : V) s k s' :
  insert v s = (Some k, s') ->
  k = next s /\ entries s' = <[k := v]> (entries s) /\ next s' = (next s + 1)%Z /\ cap s' = cap s.
Proof. unfold insert. case_decide; intros; simplify_eq; done. Qed.

Lemma insert_None {V} (v : V) s s' : insert v s = (None, s') -> s' = s.
Proof. unfold insert. case_decide; intros; simplify_eq; done. Qed.

Lemma take_Some {V} key (s : t V) v s' :
  take key s = (Some v, s') ->
  entries s !! key = Some v /\ entries s' = delete key (entries s) /\ next s' = next s /\ cap s' = cap s.
Proof. unfold take. destruct (entries s !! key); intros; simplify_eq; done. Qed.

Lemma take_None {V} key (s : t V) s' : take key s = (None, s') -> s' = s /\ entries s !! key = None.
Proof. unfold take. destruct (entries s !! key); intros; simplify_eq; done. Qed.

Lemma take_insert {V} (v : V) s k s' :
  insert v s = (Some k, s') -> take k s' = (Some v, mk (delete k (<[k:=v]> (entries s))) (next s + 1) (cap s)).
Proof.
  unfold insert, take. case_decide; intros H'; simplify_eq; simpl.
  by rewrite lookup_insert_eq.
Qed.

Lemma take_again {V} key (s : t V) : take key (take key s).2 = (None, (take key s).2).
Proof.
  unfold take. destruct (entries s !! key) eqn:E; simpl.
  - by rewrite lookup_delete_eq.
  - by rewrite E.
Qed.

End Slab.
