(* ===== verification/Protocol.v ===== *)
(** * The receiver protocol: actions, events and the handler strategy

    The data of [src/src/receiver.rs] that flows between the bus, the
    receiver wrapper and a handler strategy: [Stats], [Action] and
    [Event<M, E>]; and the strategy traits [SendUntypedReceiver] (actions),
    [SendTypedReceiver<M>] (messages with a correlation id) and
    [ReciveTypedReceiver<R, E>] ([poll_events]) as the class [Strategy].
    The concrete strategies (buffered pools, batching, actors) are not in
    the sources; the wrapper's theorems are proved against the class and
    its contract [StrategyLaws], which states what the spec (4.2) asks of
    every strategy: a message is pending from the moment [send] accepts it
    until the strategy answers it with exactly one [Response]. *)

From S2P Require Import Prelude Envelope Errors.

(** [Stats]: the observation record. *)
Record Stats : Type := mkStats {
  has_queue : bool;
  queue_capacity : Z;
  queue_size : Z;
  has_parallel : bool;
  parallel_capacity : Z;
  parallel_size : Z;
  has_batch : bool;
  batch_capacity : Z;
  batch_size : Z
}.

(** [Action].  [Action::Stats] is [StatsAction], the name [Stats] being the
    record's. *)
Inductive Action : Type :=
| Init
| Flush
| Sync
| Close
| StatsAction.

#[export] Instance Action_eq_dec : EqDecision Action.
Proof. solve_decision. Defined.

(** [Event<M, E>]: [Event::Stats] is [StatsEvent]. *)
Inductive Event (M E : Type) : Type :=
| Response (mid : Z) (r : result M (Error unit E))
| Synchronized (r : result unit (Error unit E))
| InitFailed (e : Error unit E)
| StatsEvent (s : Stats)
| Flushed
| Exited
| Ready
| Pause.
Arguments Response {M E} mid r.
Arguments Synchronized {M E} r.
Arguments InitFailed {M E} e.
Arguments StatsEvent {M E} s.
Arguments Flushed {M E}.
Arguments Exited {M E}.
Arguments Ready {M E}.
Arguments Pause {M E}.

(** A handler strategy with state [S], for the wrapper's message type and
    response/error types (all values are [Val]; their static types are the
    wrapper's).
    - [strat_send_action]: [SendUntypedReceiver::send];
    - [strat_send]: [SendTypedReceiver::<M>::send];
    - [strat_event s ev s']: [poll_events] may return [Poll::Ready(ev)] in
      state [s], leaving [s'];
    - [strat_pending]: the correlation ids the strategy has accepted and
      not answered yet (ghost state of the contract). *)
Class Strategy (S : Type) := {
  strat_send_action : S -> Action -> S * result unit (SendError Action);
  strat_send : S -> Z -> Val -> S * result unit (SendError Val);
  strat_event : S -> Event Val Val -> S -> Prop;
  strat_pending : S -> list Z
}.

(** The contract of 4.2: [send] either accepts the message (its id becomes
    pending) or hands it back with nothing pending added; a [Response]
    answers a pending id and removes it; no other event or action touches
    the pending ids. *)
Class StrategyLaws (S : Type) `{Strategy S} := {
  send_ok_pending s mid v s' :
    strat_send s mid v = (s', Ok tt) -> strat_pending s' = strat_pending s ++ [mid];
  send_err_pending s mid v s' e :
    strat_send s mid v = (s', Err e) -> strat_pending s' = strat_pending s;
  send_action_pending s a s' r :
    strat_send_action s a = (s', r) -> strat_pending s' = strat_pending s;
  response_pending s mid r s' :
    strat_event s (Response mid r) s' ->
    exists l1 l2, strat_pending s = l1 ++ mid :: l2 /\ strat_pending s' = l1 ++ l2;
  other_event_pending s ev s' :
    strat_event s ev s' -> (forall mid r, ev <> Response mid r) ->
    strat_pending s' = strat_pending s
}.

(** ** A reference strategy

    A bounded queue of correlation ids that answers them in any order, and
    records the actions it was sent; once [Close] is sent it refuses
    everything with [Closed].  It is the shape of the buffered strategies
    the spec describes, and shows that [StrategyLaws] can be met.  It is
    used to run the wrapper on concrete inputs. *)
Record BufferStrategy : Type := mkBuffer {
  buf_pending : list Z;
  buf_cap : nat;
  buf_closed : bool;
  buf_actions : list Action
}.

Inductive buffer_event : BufferStrategy -> Event Val Val -> BufferStrategy -> Prop :=
| buffer_response l1 mid l2 cap cl acts r :
    buffer_event (mkBuffer (l1 ++ mid :: l2) cap cl acts) (Response mid r)
                 (mkBuffer (l1 ++ l2) cap cl acts)
| buffer_other s ev :
    (forall mid r, ev <> Response mid r) -> buffer_event s ev s.

#[export] Instance BufferStrategy_Strategy : Strategy BufferStrategy := {
  strat_send_action s a :=
    if buf_closed s then (s, Err (Closed a))
    else (mkBuffer (buf_pending s) (buf_cap s) (bool_decide (a = Close)) (buf_actions s ++ [a]), Ok tt);
  strat_send s mid v :=
    if buf_closed s then (s, Err (Closed v))
    else if decide (length (buf_pending s) < buf_cap s)%nat
    then (mkBuffer (buf_pending s ++ [mid]) (buf_cap s) (buf_closed s) (buf_actions s), Ok tt)
    else (s, Err (Full v));
  strat_event := buffer_event;
  strat_pending := buf_pending
}.

#[export] Instance BufferStrategy_Laws : StrategyLaws BufferStrategy.
Proof.
  split; simpl.
  - intros s mid v s'. repeat case_match; intros; simplify_eq; done.
  - intros s mid v s' e. repeat case_match; intros; simplify_eq; done.
  - intros s a s' r. case_match; intros; simplify_eq; done.
  - intros s mid r s' Hev. inversion Hev as [l1 mid' l2| ? ? Hne]; subst; eauto.
    exfalso. by eapply Hne.
  - intros s ev s' Hev Hne. inversion Hev; subst; [|done]. exfalso. by eapply Hne.
Qed.
