(* ===== verification/Context.v ===== *)
(** * Receiver context, permits and admission ([try_reserve])

    [ReceiverContext] of [src/src/receiver.rs] (one per subscription):
    the permit budget [limit], the atomic counter [processing], the three
    atomic flags and the five [Notify]s.  [Permit] is the RAII token whose
    [Drop] calls [PermitDrop::permit_drop] (a wrapping [fetch_sub]) unless
    it is fused.  [try_reserve] is the load/compare-exchange loop of
    [ReceiverWrapper::try_reserve]; it is modelled one atomic access at a
    time ([reserve_step]) so that the interleaving model of [Admission.v]
    can run several of them against each other, and sequentially by
    [try_reserve] with fuel. *)

From S2P Require Import Prelude Runtime.

Record ReceiverContext : Type := mkContext {
  limit : Z;
  processing : Z;
  need_flush : bool;
  ready_flag : bool;
  flushed : Notify.t;
  synchronized : Notify.t;
  closed : Notify.t;
  ready : Notify.t;
  response : Notify.t;
  init_sent : bool
}.

(** The stores into one field of the context. *)
Definition set_processing (p : Z) (c : ReceiverContext) : ReceiverContext :=
  mkContext (limit c) p (need_flush c) (ready_flag c) (flushed c) (synchronized c)
            (closed c) (ready c) (response c) (init_sent c).

Definition set_ready_flag (b : bool) (c : ReceiverContext) : ReceiverContext :=
  mkContext (limit c) (processing c) (need_flush c) b (flushed c) (synchronized c)
            (closed c) (ready c) (response c) (init_sent c).

Definition set_notifies (fl sy cl rd rs : Notify.t) (c : ReceiverContext) : ReceiverContext :=
  mkContext (limit c) (processing c) (need_flush c) (ready_flag c) fl sy cl rd rs (init_sent c).

Definition map_flushed (f : Notify.t -> Notify.t) (c : ReceiverContext) :=
  set_notifies (f (flushed c)) (synchronized c) (closed c) (ready c) (response c) c.
Definition map_synchronized (f : Notify.t -> Notify.t) (c : ReceiverContext) :=
  set_notifies (flushed c) (f (synchronized c)) (closed c) (ready c) (response c) c.
Definition map_closed (f : Notify.t -> Notify.t) (c : ReceiverContext) :=
  set_notifies (flushed c) (synchronized c) (f (closed c)) (ready c) (response c) c.
Definition map_ready (f : Notify.t -> Notify.t) (c : ReceiverContext) :=
  set_notifies (flushed c) (synchronized c) (closed c) (f (ready c)) (response c) c.
Definition map_response (f : Notify.t -> Notify.t) (c : ReceiverContext) :=
  set_notifies (flushed c) (synchronized c) (closed c) (ready c) (f (response c)) c.

(** The context [Receiver::new] builds. *)
Definition new_context (limit : Z) : ReceiverContext :=
  mkContext limit 0 false false Notify.new Notify.new Notify.new Notify.new Notify.new false.

(** [impl PermitDrop for ReceiverContext]:
    [processing.fetch_sub(1, SeqCst)], wrapping at zero. *)
Definition permit_drop (c : ReceiverContext) : ReceiverContext :=
  set_processing (fetch_sub64 (processing c) 1) c.

(** [Permit]: its [inner] is the context of its receiver. *)
Record Permit : Type := mkPermit { fuse : bool }.

(** [impl Drop for Permit]. *)
Definition drop_permit (p : Permit) (c : ReceiverContext) : ReceiverContext :=
  if fuse p then c else permit_drop c.

(** The program points of the [try_reserve] loop of one task:
    before the [load], before the [compare_exchange] of the loaded
    [count], and returned. *)
Inductive ReserveState : Type :=
| RLoad
| RCas (count : Z)
| RDone (p : option Permit).

(** One atomic access of [try_reserve]. *)
Definition reserve_step (c : ReceiverContext) (st : ReserveState) : ReserveState * ReceiverContext :=
  match st with
  | RLoad =>
      let count := processing c in
      if decide (count < limit c)%Z then (RCas count, c) else (RDone None, c)
  | RCas count =>
      if decide (processing c = count)
      then (RDone (Some (mkPermit false)), set_processing (count + 1) c)
      else (RLoad, c)
  | RDone p => (RDone p, c)
  end.

(** The loop run by one task alone, with fuel; [None] when the fuel runs
    out before the loop breaks. *)
Fixpoint reserve_loop (fuel : nat) (c : ReceiverContext) (st : ReserveState)
  : option (option Permit * ReceiverContext) :=
  match st with
  | RDone p => Some (p, c)
  | _ =>
      match fuel with
      | O => None
      | S fuel' => let '(st', c') := reserve_step c st in reserve_loop fuel' c' st'
      end
  end.

(** [ReceiverWrapper::try_reserve] when no other task touches
    [processing]: two accesses are enough (see [try_reserve_total]). *)
Definition try_reserve (c : ReceiverContext) : option (option Permit * ReceiverContext) :=
  reserve_loop 2 c RLoad.

(** The context's invariant: [processing] within the budget, which is a
    [u64]. *)
Definition ctx_inv (c : ReceiverContext) : Prop :=
  (0 <= processing c <= limit c)%Z /\ (limit c < u64_modulus)%Z.

(** ** Lemmas *)

Lemma processing_set_processing p c : processing (set_processing p c) = p.
Proof. reflexivity. Qed.

Lemma limit_set_processing p c : limit (set_processing p c) = limit c.
Proof. reflexivity. Qed.

Lemma limit_set_notifies a b d e f c : limit (set_notifies a b d e f c) = limit c.
Proof. reflexivity. Qed.

Lemma processing_set_notifies a b d e f c : processing (set_notifies a b d e f c) = processing c.
Proof. reflexivity. Qed.

Lemma limit_set_ready_flag b c : limit (set_ready_flag b c) = limit c.
Proof. reflexivity. Qed.

Lemma processing_set_ready_flag b c : processing (set_ready_flag b c) = processing c.
Proof. reflexivity. Qed.

#[export] Hint Rewrite processing_set_processing limit_set_processing
  limit_set_notifies processing_set_notifies limit_set_ready_flag
  processing_set_ready_flag : mb.

Lemma permit_drop_pos c :
  (1 <= processing c < u64_modulus)%Z -> processing (permit_drop c) = (processing c - 1)%Z.
Proof. intros. apply fetch_sub64_pos. lia. Qed.

Lemma reserve_step_limit c st : limit (reserve_step c st).2 = limit c.
Proof. destruct st; simpl; repeat case_decide; reflexivity. Qed.

(** What a task at a program point of [try_reserve] knows: the [count] it
    is about to compare-exchange was below the limit when it was loaded. *)
Definition reserve_state_ok (c : ReceiverContext) (st : ReserveState) : Prop :=
  match st with
  | RCas count => (0 <= count < limit c)%Z
  | _ => True
  end.

(** One access of [try_reserve] keeps the context's invariant, whatever the
    other tasks did to [processing] in between; a successful
    compare-exchange is the only change, and it raises [processing] by one
    and hands out an unfused permit. *)
Lemma reserve_step_inv c st :
  ctx_inv c -> reserve_state_ok c st ->
  ctx_inv (reserve_step c st).2 /\ reserve_state_ok (reserve_step c st).2 (reserve_step c st).1.
Proof.
  unfold ctx_inv. intros [Hp Hl] Hst. destruct st as [|count|p]; simpl in *.
  - case_decide; simpl; split; try split; auto; lia.
  - case_decide; simpl; split; try split; auto; lia.
  - auto.
Qed.

(** C21: [try_reserve] hands out a fresh unfused permit and raises
    [processing] by one exactly when [processing < limit]; otherwise it
    returns [None] and leaves the context alone. *)
Theorem try_reserve_spec c :
  try_reserve c =
    if decide (processing c < limit c)%Z
    then Some (Some (mkPermit false), set_processing (processing c + 1) c)
    else Some (None, c).
Proof. unfold try_reserve; simpl. case_decide; simpl; [rewrite decide_True|]; done. Qed.

(** [try_reserve] run by one task breaks out of its loop: two atomic
    accesses always reach [break]. *)
Theorem try_reserve_total c : exists p c', try_reserve c = Some (p, c').
Proof. rewrite try_reserve_spec. case_decide; eauto. Qed.

(** [try_reserve] keeps [0 <= processing <= limit]. *)
Theorem try_reserve_inv c p c' :
  ctx_inv c -> try_reserve c = Some (p, c') -> ctx_inv c'.
Proof.
  rewrite try_reserve_spec. unfold ctx_inv. intros [Hp Hl].
  case_decide; intros; simplify_eq; simpl; lia.
Qed.

(** C29: a dropped permit refunds one unit of [processing] unless it was
    fused, and at [processing = 0] the refund wraps [processing] around to
    [u64::MAX]: [fetch_sub] on an [AtomicU64] does not saturate. *)
Theorem drop_permit_effect p c :
  processing (drop_permit p c) =
    if fuse p then processing c
    else if decide (processing c = 0)%Z then (u64_modulus - 1)%Z
    else wrap64 (processing c - 1).
Proof.
  unfold drop_permit. destruct (fuse p); [done|]. simpl.
  case_decide as H; [rewrite H|]; reflexivity.
Qed.

Lemma try_reserve_inv_witness : ctx_inv (set_processing 1 (new_context 3)).
Proof.
  apply (try_reserve_inv (new_context 3) (Some (mkPermit false))).
  - unfold ctx_inv; simpl. u64_lia.
  - reflexivity.
Defined.
