(* ===== verification/Wrapper.v ===== *)
(** * The receiver wrapper ([ReceiverWrapper<M, R, E, S>])

    The erased receiver of [src/src/receiver.rs]: the strategy [inner], the
    [waiters] slab of response listeners and the [context].  The oneshot
    channels whose senders the waiters hold are kept beside it in
    [chans] (the receiving halves belong to the requesters).  The static
    types [M], [R], [E] of the instantiation are the section's [M_ty],
    [R_ty], [E_ty].

    Operations: the four [add_response_listener]s (one per waiter
    variant), [response] (lines 252-270), the body of the event-poll loop
    of [start_polling_events] (lines 198-240) as a list of atomic
    operations per event ([event_ops]) run by [exec_op], the loop itself
    over a finite stream of events ([poll_loop]), [accept] and
    [iter_types], [send_boxed], [send_action], [stats] and the state
    predicates. *)

From S2P Require Import Prelude Envelope Errors Runtime Protocol Context.

Local Open Scope mb_scope.

(** [enum Waiter<R, E>]: each variant holds the sender of a oneshot
    channel, named by the channel's id. *)
Inductive Waiter : Type :=
| WithErrorType (ch : Z)
| WithoutErrorType (ch : Z)
| Boxed (ch : Z)
| BoxedWithError (ch : Z).

#[export] Instance Waiter_eq_dec : EqDecision Waiter.
Proof. solve_decision. Defined.

(** What travels on the channel of each waiter variant:
    [Result<R, Error<(), E>>], [Result<R, Error>],
    [Result<Box<dyn Message>, Error>] and
    [Result<Box<dyn Message>, Error<(), E>>]. *)
Inductive Delivery : Type :=
| DWithErr (r : result Val (Error unit Val))
| DWithout (r : result Val ErasedError)
| DBoxed (r : result BoxedMessage ErasedError)
| DBoxedWithErr (r : result BoxedMessage (Error unit Val)).

Record ReceiverWrapper (S : Type) : Type := mkWrapper {
  inner : S;
  waiters : Slab.t Waiter;
  context : ReceiverContext;
  chans : gmap Z (Oneshot.chan Delivery);
  next_chan : Z
}.
Arguments mkWrapper {S}.
Arguments inner {S}.
Arguments waiters {S}.
Arguments context {S}.
Arguments chans {S}.
Arguments next_chan {S}.

Definition set_inner {S} (s : S) (w : ReceiverWrapper S) :=
  mkWrapper s (waiters w) (context w) (chans w) (next_chan w).
Definition set_waiters {S} (sl : Slab.t Waiter) (w : ReceiverWrapper S) :=
  mkWrapper (inner w) sl (context w) (chans w) (next_chan w).
Definition set_context {S} (c : ReceiverContext) (w : ReceiverWrapper S) :=
  mkWrapper (inner w) (waiters w) c (chans w) (next_chan w).
Definition set_chans {S} (cs : gmap Z (Oneshot.chan Delivery)) (w : ReceiverWrapper S) :=
  mkWrapper (inner w) (waiters w) (context w) cs (next_chan w).

Lemma waiters_set_context {S} c (w : ReceiverWrapper S) : waiters (set_context c w) = waiters w.
Proof. reflexivity. Qed.
Lemma chans_set_context {S} c (w : ReceiverWrapper S) : chans (set_context c w) = chans w.
Proof. reflexivity. Qed.
Lemma chans_set_waiters {S} sl (w : ReceiverWrapper S) : chans (set_waiters sl w) = chans w.
Proof. reflexivity. Qed.
Lemma waiters_set_chans {S} cs (w : ReceiverWrapper S) : waiters (set_chans cs w) = waiters w.
Proof. reflexivity. Qed.
Lemma chans_set_chans {S} cs (w : ReceiverWrapper S) : chans (set_chans cs w) = cs.
Proof. reflexivity. Qed.
Lemma context_set_inner {S} s (w : ReceiverWrapper S) : context (set_inner s w) = context w.
Proof. reflexivity. Qed.

Lemma inner_set_context {S} c (w : ReceiverWrapper S) : inner (set_context c w) = inner w.
Proof. reflexivity. Qed.
Lemma context_set_context {S} c (w : ReceiverWrapper S) : context (set_context c w) = c.
Proof. reflexivity. Qed.
Lemma inner_set_inner {S} s (w : ReceiverWrapper S) : inner (set_inner s w) = s.
Proof. reflexivity. Qed.

#[export] Hint Rewrite @waiters_set_context @chans_set_context @chans_set_waiters
  @waiters_set_chans @chans_set_chans @context_set_inner @inner_set_context
  @context_set_context @inner_set_inner : mb.

(** [oneshot::channel()]: a fresh channel. *)
Definition new_channel {S} (w : ReceiverWrapper S) : Z * ReceiverWrapper S :=
  (next_chan w, mkWrapper (inner w) (waiters w) (context w)
                  (<[next_chan w := Oneshot.new]> (chans w)) (next_chan w + 1)).

(** The five notifies of the context, by name. *)
Inductive NotifyName : Type := NFlushed | NSynchronized | NClosed | NReady | NResponse.

#[export] Instance NotifyName_eq_dec : EqDecision NotifyName.
Proof. solve_decision. Defined.

(** [close_notify], [sync_notify], [flush_notify], [ready_notify] and
    [reserve_notify]. *)
Definition notify_of (n : NotifyName) (c : ReceiverContext) : Notify.t :=
  match n with
  | NFlushed => flushed c
  | NSynchronized => synchronized c
  | NClosed => closed c
  | NReady => ready c
  | NResponse => response c
  end.

Definition map_notify (n : NotifyName) (f : Notify.t -> Notify.t) (c : ReceiverContext) :=
  match n with
  | NFlushed => map_flushed f c
  | NSynchronized => map_synchronized f c
  | NClosed => map_closed f c
  | NReady => map_ready f c
  | NResponse => map_response f c
  end.

(** The atomic operations the event-poll loop performs. *)
Inductive LoopOp : Type :=
| OpStoreReady (b : bool)                     (** [ready_flag.store(b)] *)
| OpNotifyWaiters (n : NotifyName)            (** [n.notify_waiters()] *)
| OpFetchSubProcessing                        (** [processing.fetch_sub(1)] *)
| OpNotifyOneResponse                         (** [response.notify_one()] *)
| OpRespond (mid : Z) (r : result Val (Error unit Val))  (** [self.response(mid, r)] *)
| OpBreak                                     (** [break] *)
| OpUnimplemented.                            (** [_ => unimplemented!()] *)

(** The arm of the [match event] of the poll loop, in program order. *)
Definition event_ops (ev : Event Val Val) : list LoopOp :=
  match ev with
  | Pause => [OpStoreReady false]
  | Ready => [OpNotifyWaiters NReady; OpStoreReady true]
  | InitFailed _ => [OpNotifyWaiters NReady; OpStoreReady false]
  | Exited => [OpNotifyWaiters NClosed; OpBreak]
  | Flushed => [OpNotifyWaiters NFlushed]
  | Synchronized _ => [OpNotifyWaiters NSynchronized]
  | Response mid r => [OpFetchSubProcessing; OpNotifyOneResponse; OpRespond mid r]
  | StatsEvent _ => [OpUnimplemented]
  end.

Section Wrapper.
Context {S : Type} `{Strategy S}.
Context (M_ty R_ty E_ty : RTy).

Implicit Types w : ReceiverWrapper S.

(** The shared body of the four [add_response_listener]s:
    [self.waiters.insert(mk(listener)).ok_or_else(|| AddListenerError)?].
    On failure the listener (the channel's sender) is dropped. *)
Definition add_listener (mk : Z -> Waiter) (ch : Z) w : result Z ErasedError * ReceiverWrapper S :=
  match Slab.insert (mk ch) (waiters w) with
  | (Some key, sl) => (Ok key, set_waiters sl w)
  | (None, _) => (Err AddListenerError, set_chans (alter Oneshot.drop_tx ch (chans w)) w)
  end.

(** [WrapperReturnTypeAndError::add_response_listener]. *)
Definition add_response_listener_re := add_listener WithErrorType.
(** [WrapperReturnTypeOnly::add_response_listener]. *)
Definition add_response_listener_r := add_listener WithoutErrorType.
(** [WrapperErrorTypeOnly::add_response_listener]. *)
Definition add_response_listener_e := add_listener BoxedWithError.
(** [ReceiverTrait::add_response_listener]. *)
Definition add_response_listener_boxed := add_listener Boxed.

(** [sender.send(v).unwrap()]: the send consumes the sender, and panics
    when the receiving half was dropped. *)
Definition deliver (ch : Z) (d : Delivery) w : outcome (ReceiverWrapper S) :=
  match chans w !! ch with
  | Some c =>
      let '(r, c') := Oneshot.send d c in
      _ <-! unwrap r ;; Done (set_chans (<[ch := c']> (chans w)) w)
  | None => Done w
  end.

(** [WrapperReturnTypeAndError::response]: take the waiter of [mid] and
    forward [resp] in the shape its variant expects; an unknown [mid] is
    ignored.  The function always returns [Ok(())]. *)
Definition response (mid : Z) (resp : result Val (Error unit Val)) w
  : outcome (result unit ErasedError * ReceiverWrapper S) :=
  let '(found, sl) := Slab.take mid (waiters w) in
  let w1 := set_waiters sl w in
  w2 <-!
    match found with
    | Some (WithErrorType ch) => deliver ch (DWithErr resp) w1
    | Some (WithoutErrorType ch) => deliver ch (DWithout (map_err (into_dyn E_ty) resp)) w1
    | Some (Boxed ch) =>
        deliver ch (DBoxed (map_ok (into_boxed R_ty) (map_err (into_dyn E_ty) resp))) w1
    | Some (BoxedWithError ch) => deliver ch (DBoxedWithErr (map_ok (into_boxed R_ty) resp)) w1
    | None => Done w1
    end ;;
  Done (Ok tt, w2).

(** One atomic operation of the poll loop; the boolean says whether the
    loop goes on. *)
Definition exec_op (op : LoopOp) w : outcome (ReceiverWrapper S * bool) :=
  match op with
  | OpStoreReady b => Done (set_context (set_ready_flag b (context w)) w, true)
  | OpNotifyWaiters n => Done (set_context (map_notify n Notify.notify_waiters (context w)) w, true)
  | OpFetchSubProcessing => Done (set_context (permit_drop (context w)) w, true)
  | OpNotifyOneResponse => Done (set_context (map_response Notify.notify_one (context w)) w, true)
  | OpRespond mid r => x <-! response mid r w ;; Done (x.2, true)
  | OpBreak => Done (w, false)
  | OpUnimplemented => Panic "not implemented"
  end.

(** A list of operations, in order, stopping at [break]. *)
Fixpoint exec_ops (ops : list LoopOp) w : outcome (ReceiverWrapper S * bool) :=
  match ops with
  | [] => Done (w, true)
  | op :: rest =>
      x <-! exec_op op w ;; let '(w', go) := x in
      if go then exec_ops rest w' else Done (w', false)
  end.

(** One turn of the loop: the handling of one event. *)
Definition handle_event (ev : Event Val Val) w : outcome (ReceiverWrapper S * bool) :=
  exec_ops (event_ops ev) w.

(** Where the poll loop stands once the events at hand are consumed. *)
Inductive LoopStatus : Type :=
| LoopExited (rest : list (Event Val Val))  (** broke out at [Exited] *)
| LoopPending.                              (** awaits the next event *)

(** The poll loop fed with the events [poll_events] returns, in order. *)
Fixpoint poll_loop (evs : list (Event Val Val)) w : outcome (ReceiverWrapper S * LoopStatus) :=
  match evs with
  | [] => Done (w, LoopPending)
  | ev :: rest =>
      x <-! handle_event ev w ;; let '(w', go) := x in
      if go then poll_loop rest w' else Done (w', LoopExited rest)
  end.

(** [TypeTagAccept::accept]: compares type tags as strings. *)
Definition accept (msg : string) (resp err : option string) : bool :=
  match resp with
  | Some r => if decide (r = ty_tag R_ty) then
                match err with
                | Some e => if decide (e = ty_tag E_ty) then bool_decide (msg = ty_tag M_ty) else false
                | None => bool_decide (msg = ty_tag M_ty)
                end
              else false
  | None => match err with
            | Some e => if decide (e = ty_tag E_ty) then bool_decide (msg = ty_tag M_ty) else false
            | None => bool_decide (msg = ty_tag M_ty)
            end
  end.

(** [TypeTagAccept::iter_types]: the triples handed to the callback; the
    wrapper calls it once, whatever it returns. *)
Definition iter_types : list (string * string * string) :=
  [(ty_tag M_ty, ty_tag R_ty, ty_tag E_ty)].

(** [ReceiverTrait::send_boxed]: downcast to [M] (by [TypeId]) or fail
    with [MessageCastError]; then the strategy's typed [send], its error
    converted by [SendError::into_boxed]. *)
Definition send_boxed (mid : Z) (b : BoxedMessage) w
  : result unit (Error BoxedMessage VoidError) * ReceiverWrapper S :=
  match downcast M_ty b with
  | Err _ => (Err MessageCastError, w)
  | Ok m =>
      let '(s', r) := strat_send (inner w) mid m in
      (map_err (fun e => SendErr (send_error_into_boxed M_ty e)) r, set_inner s' w)
  end.

(** [ReceiverTrait::send_action]. *)
Definition send_action (a : Action) w : result unit (Error Action VoidError) * ReceiverWrapper S :=
  let '(s', r) := strat_send_action (inner w) a in (map_err error_from_send r, set_inner s' w).

(** [ReceiverTrait::stats]: [unimplemented!()]. *)
Definition stats w : outcome (result Stats (Error Action VoidError)) := Panic "not implemented".

(** [is_ready], [is_init_sent], [need_flush]: atomic loads. *)
Definition is_ready w : bool := ready_flag (context w).
Definition is_init_sent w : bool := init_sent (context w).
Definition wrapper_need_flush w : bool := need_flush (context w).

(** [ReceiverTrait::try_reserve] on the wrapper's context. *)
Definition wrapper_try_reserve w : option (option Permit * ReceiverWrapper S) :=
  match try_reserve (context w) with
  | Some (p, c) => Some (p, set_context c w)
  | None => None
  end.

End Wrapper.

(** ** The wrapper's invariant *)

Definition waiter_chan (wt : Waiter) : Z :=
  match wt with
  | WithErrorType ch | WithoutErrorType ch | Boxed ch | BoxedWithError ch => ch
  end.

(** Every waiter holds the live, unused sender of a channel of [chans], no
    two waiters share a channel, slab keys and channel ids are fresh. *)
Definition wrapper_wf {S} (w : ReceiverWrapper S) : Prop :=
  Slab.wf (waiters w) /\ (0 <= Slab.next (waiters w))%Z /\
  (forall ch c, chans w !! ch = Some c -> (ch < next_chan w)%Z) /\
  (forall mid wt, Slab.entries (waiters w) !! mid = Some wt ->
     exists c, chans w !! waiter_chan wt = Some c /\
               Oneshot.tx_alive c = true /\ Oneshot.value c = None) /\
  (forall mid1 mid2 wt1 wt2,
     Slab.entries (waiters w) !! mid1 = Some wt1 ->
     Slab.entries (waiters w) !! mid2 = Some wt2 ->
     waiter_chan wt1 = waiter_chan wt2 -> mid1 = mid2).

Lemma set_inner_wf {S} (s : S) w : wrapper_wf w -> wrapper_wf (set_inner s w).
Proof. done. Qed.

Lemma set_context_wf {S} c (w : ReceiverWrapper S) : wrapper_wf w -> wrapper_wf (set_context c w).
Proof. done. Qed.

Lemma new_channel_wf {S} (w : ReceiverWrapper S) :
  wrapper_wf w ->
  wrapper_wf (new_channel w).2 /\ chans (new_channel w).2 !! (new_channel w).1 = Some Oneshot.new /\
  (forall mid wt, Slab.entries (waiters w) !! mid = Some wt -> waiter_chan wt <> next_chan w) /\
  waiters (new_channel w).2 = waiters w.
Proof.
  unfold wrapper_wf. intros (Hs & Hn & Hch & Hwt & Hinj). unfold new_channel; simpl.
  split_and!.
  - done.
  - done.
  - intros ch c. rewrite lookup_insert. case_decide; [intros; lia|].
    intros Hc. specialize (Hch _ _ Hc). lia.
  - intros mid wt Hm. destruct (Hwt _ _ Hm) as (c & Hc & Ht & Hv).
    exists c. rewrite lookup_insert_ne; [done|]. intros Heq. rewrite <-Heq in Hc.
    specialize (Hch _ _ Hc). lia.
  - done.
  - by rewrite lookup_insert_eq.
  - intros mid wt Hm Heq. destruct (Hwt _ _ Hm) as (c & Hc & _).
    rewrite Heq in Hc. specialize (Hch _ _ Hc). lia.
  - done.
Qed.

Section WrapperLemmas.
Context {S : Type} `{Strategy S}.
Context (M_ty R_ty E_ty : RTy).
Implicit Types w : ReceiverWrapper S.

Lemma add_listener_wf mk ch w :
  wrapper_wf w -> chans w !! ch = Some Oneshot.new ->
  (forall mid wt, Slab.entries (waiters w) !! mid = Some wt -> waiter_chan wt <> ch) ->
  (forall c, waiter_chan (mk c) = c) ->
  wrapper_wf (add_listener mk ch w).2.
Proof.
  intros Hwf Hnew Hfree Hmk. pose proof Hwf as (Hs & Hn & Hch & Hwt & Hinj).
  unfold add_listener.
  destruct (Slab.insert (mk ch) (waiters w)) as [[key|] sl] eqn:Hins; simpl.
  - pose proof (Slab.insert_wf (mk ch) (waiters w) Hs Hn) as Hswf. rewrite Hins in Hswf.
    apply Slab.insert_Some in Hins as (-> & He & Hnx & _).
    split_and!; simpl; try done.
    + rewrite Hnx. lia.
    + intros mid wt. rewrite He, lookup_insert. case_decide; [intros [= <-]|apply Hwt].
      rewrite Hmk. by exists Oneshot.new.
    + intros mid1 mid2 wt1 wt2. rewrite He, !lookup_insert.
      pose proof (Slab.next_fresh _ Hs) as Hf.
      repeat case_decide; intros Hl1 Hl2 Heq; simplify_eq; try done.
      * rewrite Hmk in Heq. exfalso. by eapply Hfree.
      * rewrite Hmk in Heq. exfalso. by eapply Hfree.
      * by eapply Hinj.
  - split_and!; simpl; try done.
    + intros c' cc. rewrite lookup_alter_Some.
      intros [(? & ? & ? & ->)|[? Hc]]; simplify_eq; eauto.
    + intros mid wt Hm. destruct (Hwt _ _ Hm) as (c & Hc & Ht & Hv).
      exists c. rewrite lookup_alter_ne; [done|]. intros Heq. by eapply Hfree.
Qed.

Lemma deliver_wf ch d w w' :
  wrapper_wf w ->
  (forall mid wt, Slab.entries (waiters w) !! mid = Some wt -> waiter_chan wt <> ch) ->
  deliver ch d w = Done w' -> wrapper_wf w'.
Proof.
  unfold wrapper_wf. intros (Hs & Hn & Hch & Hwt & Hinj) Hfree. unfold deliver.
  destruct (chans w !! ch) as [c|] eqn:Hc; [|intros [= <-]; by split_and!].
  destruct (Oneshot.send d c) as [r c'] eqn:Hsend.
  destruct r; simpl; intros [= <-]; split_and!; simpl; try done.
  - intros ch' c''. rewrite lookup_insert. case_decide; [intros _; subst; eauto|eauto].
  - intros mid wt Hm. rewrite lookup_insert_ne; [by eapply Hwt|]. intros Heq. by eapply Hfree.
Qed.

Lemma response_wf mid r w res w' :
  wrapper_wf w -> response R_ty E_ty mid r w = Done (res, w') -> wrapper_wf w'.
Proof.
  intros Hwf. pose proof Hwf as (Hs & Hn & Hch & Hwt & Hinj). unfold response.
  destruct (Slab.take mid (waiters w)) as [[wt|] sl] eqn:Ht; simpl.
  - pose proof (Slab.take_wf mid (waiters w) Hs) as Hswf. rewrite Ht in Hswf.
    apply Slab.take_Some in Ht as (Hm & He & Hnx & _).
    assert (Hw1 : wrapper_wf (set_waiters sl w)).
    { split_and!; simpl; try done.
      - rewrite Hnx. lia.
      - intros k v. rewrite He, lookup_delete_Some. intros [_ Hk]. eauto.
      - intros m1 m2 v1 v2. rewrite He, !lookup_delete_Some. intros [_ Hl1] [_ Hl2]. eauto. }
    assert (Hfree : forall k v, Slab.entries (waiters (set_waiters sl w)) !! k = Some v ->
                    waiter_chan v <> waiter_chan wt).
    { simpl. intros k v. rewrite He, lookup_delete_Some. intros [Hne Hk] Heq. apply Hne. symmetry. eauto. }
    destruct wt; simpl in *; destruct (deliver _ _ _) eqn:Hd; simpl; intros; simplify_eq;
      eapply deliver_wf; eauto.
  - apply Slab.take_None in Ht as [-> _]. intros; simplify_eq. done.
Qed.

Lemma exec_op_wf op w w' go :
  wrapper_wf w -> exec_op R_ty E_ty op w = Done (w', go) -> wrapper_wf w'.
Proof.
  intros Hwf. destruct op; simpl; intros; simplify_eq; try done.
  destruct (response R_ty E_ty mid r w) as [[res w'']|] eqn:Hr; simpl in *; simplify_eq.
  by eapply response_wf.
Qed.

Lemma exec_ops_wf ops w w' go :
  wrapper_wf w -> exec_ops R_ty E_ty ops w = Done (w', go) -> wrapper_wf w'.
Proof.
  revert w. induction ops as [|op ops IH]; intros w Hwf; simpl; [by intros; simplify_eq|].
  destruct (exec_op R_ty E_ty op w) as [[w1 go1]|] eqn:Hop; simpl; [|discriminate].
  pose proof (exec_op_wf _ _ _ _ Hwf Hop).
  destruct go1; [by apply IH|]. by intros; simplify_eq.
Qed.

Lemma send_boxed_wf mid b w : wrapper_wf w -> wrapper_wf (send_boxed M_ty mid b w).2.
Proof. unfold send_boxed. destruct (downcast M_ty b); [destruct (strat_send _ _ _)|]; done. Qed.

Lemma send_action_wf a w : wrapper_wf w -> wrapper_wf (send_action a w).2.
Proof. unfold send_action. by destruct (strat_send_action _ _). Qed.

End WrapperLemmas.

(** ** What the wrapper guarantees *)

Section WrapperTheorems.
Context {S : Type} `{Strategy S}.
Context (M_ty R_ty E_ty : RTy).
Implicit Types w : ReceiverWrapper S.

(** What a requester decodes from what its waiter delivered: the value of
    an [Ok] response, downcast to [R] where the waiter boxed it (as
    [add_response_waiter]'s fallback does with
    [x.as_any_boxed().downcast::<R>()]). *)
Definition delivered_value (d : Delivery) : option Val :=
  match d with
  | DWithErr (Ok v) | DWithout (Ok v) => Some v
  | DBoxed (Ok b) | DBoxedWithErr (Ok b) =>
      match downcast R_ty b with Ok v => Some v | Err _ => None end
  | _ => None
  end.

Lemma response_take mid wt w :
  Slab.entries (waiters w) !! mid = Some wt ->
  exists sl, Slab.take mid (waiters w) = (Some wt, sl) /\ Slab.entries sl !! mid = None.
Proof.
  intros Hm. unfold Slab.take. rewrite Hm. eexists; split; [done|]. simpl.
  by rewrite lookup_delete_eq.
Qed.

Lemma deliver_open ch d w c :
  chans w !! ch = Some c -> Oneshot.rx_alive c = true ->
  deliver ch d w = Done (set_chans (<[ch := Oneshot.mk true false (Some d)]> (chans w)) w).
Proof. intros Hc Hr. unfold deliver, Oneshot.send. by rewrite Hc, Hr. Qed.

Lemma deliver_closed ch d w c :
  chans w !! ch = Some c -> Oneshot.rx_alive c = false ->
  deliver ch d w = Panic "called `Result::unwrap()` on an `Err` value".
Proof. intros Hc Hr. unfold deliver, Oneshot.send. by rewrite Hc, Hr. Qed.

Lemma deliver_waiters ch d w w' : deliver ch d w = Done w' -> waiters w' = waiters w.
Proof.
  unfold deliver. destruct (chans w !! ch); [|by intros [= <-]].
  destruct (Oneshot.send d _) as [[] ?]; simpl; by intros [= <-].
Qed.

Lemma deliver_effect ch d w w' :
  deliver ch d w = Done w' -> context w' = context w /\ inner w' = inner w.
Proof.
  unfold deliver. destruct (chans w !! ch); [|by intros [= <-]].
  destruct (Oneshot.send d _) as [[] ?]; simpl; by intros [= <-].
Qed.

(** [response] touches only the waiters and the channels. *)
Lemma response_effect mid r (w w' : ReceiverWrapper S) res :
  response R_ty E_ty mid r w = Done (res, w') -> context w' = context w /\ inner w' = inner w.
Proof.
  unfold response. destruct (Slab.take mid (waiters w)) as [found sl].
  destruct found as [[ch|ch|ch|ch]|]; simpl;
    try (match goal with |- context [obind ?c _] => destruct c as [w2|] eqn:Hd end);
    simpl; intros; simplify_eq; try (apply deliver_effect in Hd as [-> ->]); done.
Qed.

(** C5: [response] forwards an [Ok] response to the waiter of [mid],
    whichever of the four variants it is: the requester's channel then
    holds a delivery that decodes to the response value, the waiter is
    gone from the slab and the function returns [Ok(())]. *)
Theorem response_delivers mid wt v w c :
  Slab.entries (waiters w) !! mid = Some wt ->
  chans w !! waiter_chan wt = Some c -> Oneshot.rx_alive c = true ->
  exists w' d, response R_ty E_ty mid (Ok v) w = Done (Ok tt, w') /\
    Slab.entries (waiters w') !! mid = None /\
    chans w' !! waiter_chan wt = Some (Oneshot.mk true false (Some d)) /\
    delivered_value d = Some v.
Proof.
  intros Hm Hc Hr. destruct (response_take mid wt w Hm) as (sl & Ht & Hsl).
  unfold response. rewrite Ht.
  destruct wt as [ch|ch|ch|ch]; simpl in *;
    erewrite deliver_open by (simpl; eauto); simpl;
    (eexists _, _; split_and!; [reflexivity|simpl; exact Hsl|simpl; by rewrite lookup_insert_eq|]);
    simpl; try reflexivity; unfold downcast; simpl; by rewrite decide_True.
Qed.

(** C6: each correlation id is answered at most once: after [response] for
    [mid], a second [response] for the same [mid] finds no waiter and
    changes nothing. *)
Theorem response_at_most_once mid r1 r2 w res w1 :
  response R_ty E_ty mid r1 w = Done (res, w1) ->
  response R_ty E_ty mid r2 w1 = Done (Ok tt, w1).
Proof.
  unfold response. destruct (Slab.take mid (waiters w)) as [[wt|] sl] eqn:Ht; simpl.
  - apply Slab.take_Some in Ht as (_ & He & _).
    intros Hd. assert (Hw1 : waiters w1 = sl).
    { destruct wt; simpl in Hd; destruct (deliver _ _ _) as [w2|] eqn:Hd2; simpl in Hd;
        simplify_eq; by apply deliver_waiters in Hd2. }
    unfold Slab.take. rewrite Hw1, He, lookup_delete_eq. simpl.
    rewrite <-Hw1. by destruct w1.
  - apply Slab.take_None in Ht as [-> Hn]. intros; simplify_eq. simpl.
    unfold Slab.take. simpl. rewrite Hn. by destruct w.
Qed.

(** C7: when the requester dropped its response future before the
    response came, [response] panics: [sender.send(..).unwrap()] fails on a
    dropped receiver.  The spec (scenario 5) wants the event loop to log
    and go on; the panic ends the event-poll task. *)
Theorem response_dropped_requester_panics mid wt r w c :
  Slab.entries (waiters w) !! mid = Some wt ->
  chans w !! waiter_chan wt = Some c -> Oneshot.rx_alive c = false ->
  exists msg, response R_ty E_ty mid r w = Panic msg.
Proof.
  intros Hm Hc Hr. destruct (response_take mid wt w Hm) as (sl & Ht & _).
  unfold response. rewrite Ht.
  destruct wt; simpl in *; erewrite (deliver_closed _ _ _ c) by (simpl; eauto); eauto.
Qed.

(** [accept] holds exactly for the receiver's message tag, with the
    response and error tags, when given, equal to [R]'s and [E]'s. *)
Theorem accept_spec msg resp err :
  accept M_ty R_ty E_ty msg resp err = true <->
  msg = ty_tag M_ty /\ (resp = None \/ resp = Some (ty_tag R_ty)) /\
  (err = None \/ err = Some (ty_tag E_ty)).
Proof.
  unfold accept.
  destruct resp as [r|], err as [e|]; repeat case_decide; rewrite ?bool_decide_eq_true;
    naive_solver.
Qed.

(** C25: [accept] compares type tags but [send_boxed] downcasts by
    [TypeId]: a message of another type that carries [M]'s tag is
    accepted, and then refused by [send_boxed] with [MessageCastError],
    the strategy untouched. *)
Theorem accept_by_tag_send_by_type_id mid b w :
  type_tag b = ty_tag M_ty -> ty_id (bm_ty b) <> ty_id M_ty ->
  accept M_ty R_ty E_ty (type_tag b) None None = true /\
  send_boxed M_ty mid b w = (Err MessageCastError, w).
Proof.
  intros Htag Hid. split.
  - apply accept_spec. auto.
  - unfold send_boxed, downcast. by rewrite decide_False.
Qed.

(** C26: when the strategy's queue is full, [send_boxed] reports the
    receiver as [Closed] (the terminal error a caller must not retry)
    instead of [Full]: [SendError::into_boxed] maps [Full] to [Closed]. *)
Theorem send_boxed_full_is_closed mid v w s' v' :
  strat_send (inner w) mid v = (s', Err (Full v')) ->
  send_boxed M_ty mid (into_boxed M_ty v) w =
    (Err (SendErr (Closed (into_boxed M_ty v'))), set_inner s' w).
Proof. intros Hs. unfold send_boxed. rewrite downcast_same. by rewrite Hs. Qed.

Lemma poll_loop_app evs1 evs2 w :
  poll_loop R_ty E_ty (evs1 ++ evs2) w =
    obind (poll_loop R_ty E_ty evs1 w) (fun x =>
      match x.2 with
      | LoopPending => poll_loop R_ty E_ty evs2 x.1
      | LoopExited rest => Done (x.1, LoopExited (rest ++ evs2))
      end).
Proof.
  revert w. induction evs1 as [|ev evs1 IH]; intros w; simpl; [done|].
  destruct (handle_event R_ty E_ty ev w) as [[w' go]|m]; simpl; [|done].
  destruct go; [apply IH|done].
Qed.

(** The event-poll loop breaks at the first [Exited]: it wakes the
    [close] waiters and returns, and no event after [Exited] is looked at
    (the result does not depend on them). *)
Theorem poll_loop_stops_at_exited evs1 evs2 w w1 :
  poll_loop R_ty E_ty evs1 w = Done (w1, LoopPending) ->
  poll_loop R_ty E_ty (evs1 ++ Exited :: evs2) w =
    Done (set_context (map_closed Notify.notify_waiters (context w1)) w1, LoopExited evs2).
Proof. intros Hl. rewrite poll_loop_app, Hl. reflexivity. Qed.

(** The [Stats] event reaches [unimplemented!()]: the poll task panics. *)
Lemma handle_event_stats_panics st w :
  handle_event R_ty E_ty (StatsEvent st) w = Panic "not implemented".
Proof. reflexivity. Qed.

End WrapperTheorems.

(** ** Runs on concrete wrappers

    A wrapper over the reference strategy for [Msg<i16>] -> [Msg<u8>], with
    one waiter of each shape registered under correlation id [0]. *)

Section Examples.
Local Open Scope Z_scope.

Definition ex_wrapper (wt : Waiter) (rx_alive : bool) : ReceiverWrapper BufferStrategy :=
  mkWrapper (mkBuffer [0] 1%nat false []) (Slab.mk {[0 := wt]} 1 4%nat) (new_context 1)
            {[0 := Oneshot.mk rx_alive true None]} 1.

Lemma response_delivers_witness :
  exists w' d, response resp_ty err_ty 0 (Ok (VInt 9)) (ex_wrapper (Boxed 0) true) = Done (Ok tt, w') /\
    Slab.entries (waiters w') !! 0 = None /\
    chans w' !! 0 = Some (Oneshot.mk true false (Some d)) /\
    delivered_value resp_ty d = Some (VInt 9).
Proof.
  apply (response_delivers resp_ty err_ty 0 (Boxed 0) (VInt 9) _ (Oneshot.mk true true None));
    reflexivity.
Defined.

Lemma response_at_most_once_witness :
  exists w1, response resp_ty err_ty 0 (Ok (VInt 9)) (ex_wrapper (WithErrorType 0) true) = Done (Ok tt, w1) /\
             response resp_ty err_ty 0 (Ok (VInt 7)) w1 = Done (Ok tt, w1).
Proof.
  eexists. split; [reflexivity|].
  apply (response_at_most_once resp_ty err_ty 0 (Ok (VInt 9)) (Ok (VInt 7))
           (ex_wrapper (WithErrorType 0) true) (Ok tt)).
  reflexivity.
Defined.

Lemma response_dropped_requester_panics_witness :
  exists msg, response resp_ty err_ty 0 (Ok (VInt 9)) (ex_wrapper (WithoutErrorType 0) false) = Panic msg.
Proof.
  apply (response_dropped_requester_panics resp_ty err_ty 0 (WithoutErrorType 0) _ _
           (Oneshot.mk false true None)); reflexivity.
Defined.

Lemma accept_by_tag_send_by_type_id_witness :
  accept msg_ty resp_ty err_ty "Msg<i16>" None None = true /\
  send_boxed msg_ty 0 (mkBoxed (mkRTy 9 "Msg<i16>" false false) (VInt 1)) (ex_wrapper (Boxed 0) true) =
    (Err MessageCastError, ex_wrapper (Boxed 0) true).
Proof.
  apply (accept_by_tag_send_by_type_id msg_ty resp_ty err_ty 0
           (mkBoxed (mkRTy 9 "Msg<i16>" false false) (VInt 1))); [reflexivity | discriminate].
Defined.

Lemma send_boxed_full_is_closed_witness :
  send_boxed msg_ty 1 (into_boxed msg_ty (VInt 5)) (ex_wrapper (Boxed 0) true) =
    (Err (SendErr (Closed (into_boxed msg_ty (VInt 5)))),
     set_inner (mkBuffer [0] 1%nat false []) (ex_wrapper (Boxed 0) true)).
Proof. apply (send_boxed_full_is_closed msg_ty). reflexivity. Defined.

Lemma poll_loop_stops_at_exited_witness :
  poll_loop resp_ty err_ty ([Ready] ++ Exited :: [Flushed]) (ex_wrapper (Boxed 0) true) =
    Done (set_context (map_closed Notify.notify_waiters
            (context (set_context (set_ready_flag true (map_ready Notify.notify_waiters (new_context 1)))
                        (set_context (map_ready Notify.notify_waiters (new_context 1)) (ex_wrapper (Boxed 0) true)))))
          (set_context (set_ready_flag true (map_ready Notify.notify_waiters (new_context 1)))
             (set_context (map_ready Notify.notify_waiters (new_context 1)) (ex_wrapper (Boxed 0) true))),
          LoopExited [Flushed]).
Proof. apply (poll_loop_stops_at_exited resp_ty err_ty). reflexivity. Defined.

End Examples.
