(* ===== verification/AnyReceiver.v ===== *)
(** * Type-checked views of an erased receiver ([AnyReceiver], [AnyWrapperRef])

    [AnyReceiver::new] records the data pointer of the strategy with the
    [TypeId] of [dyn SendTypedReceiver<M>] and its vtable;
    [cast_send_typed::<M2>] gives the trait object back only when the
    [TypeId] of [dyn SendTypedReceiver<M2>] is the recorded one.
    [AnyWrapperRef] does the same for the three listener traits
    [WrapperReturnTypeOnly<R>], [WrapperErrorTypeOnly<E>] and
    [WrapperReturnTypeAndError<R, E>] (lines 466-596).

    The [TypeId] of a trait-object type is modelled by [TraitId]: the
    trait and the [TypeId]s of its type arguments, so two trait-object
    types have the same [TypeId] exactly when they are the same trait at
    the same types.  The reconstituted trait object is the recorded data
    pointer with the recorded vtable: the model returns the data. *)

From S2P Require Import Prelude Envelope.

Inductive TraitId : Type :=
| TSendTyped (m : positive)              (** [dyn SendTypedReceiver<M>] *)
| TRetOnly (r : positive)                (** [dyn WrapperReturnTypeOnly<R>] *)
| TErrOnly (e : positive)                (** [dyn WrapperErrorTypeOnly<E>] *)
| TRetAndErr (r e : positive).           (** [dyn WrapperReturnTypeAndError<R, E>] *)

#[export] Instance TraitId_eq_dec : EqDecision TraitId.
Proof. solve_decision. Defined.

(** [AnyReceiver<'a>]: [data] and [typed = (TypeId, vtable)]. *)
Record AnyReceiver (D : Type) : Type := mkAnyReceiver {
  ar_data : D;
  ar_typed : TraitId
}.
Arguments mkAnyReceiver {D}.
Arguments ar_data {D}.
Arguments ar_typed {D}.

(** [AnyReceiver::new::<M, R, E, S>(rcvr)]. *)
Definition any_receiver_new {D} (M_ty : RTy) (rcvr : D) : AnyReceiver D :=
  mkAnyReceiver rcvr (TSendTyped (ty_id M_ty)).

(** [AnyReceiver::cast_send_typed::<M2>]. *)
Definition cast_send_typed {D} (M2 : RTy) (ar : AnyReceiver D) : option D :=
  if decide (ar_typed ar = TSendTyped (ty_id M2)) then Some (ar_data ar) else None.

(** [AnyWrapperRef<'a>]: [data] and the three [(TypeId, vtable)] pairs. *)
Record AnyWrapperRef (D : Type) : Type := mkAnyWrapperRef {
  aw_data : D;
  aw_wrapper_r : TraitId;
  aw_wrapper_e : TraitId;
  aw_wrapper_re : TraitId
}.
Arguments mkAnyWrapperRef {D}.
Arguments aw_data {D}.
Arguments aw_wrapper_r {D}.
Arguments aw_wrapper_e {D}.
Arguments aw_wrapper_re {D}.

(** [AnyWrapperRef::new::<R, E, S>(rcvr)]. *)
Definition any_wrapper_new {D} (R_ty E_ty : RTy) (rcvr : D) : AnyWrapperRef D :=
  mkAnyWrapperRef rcvr (TRetOnly (ty_id R_ty)) (TErrOnly (ty_id E_ty))
                  (TRetAndErr (ty_id R_ty) (ty_id E_ty)).

(** [cast_ret_only::<R2>]. *)
Definition cast_ret_only {D} (R2 : RTy) (aw : AnyWrapperRef D) : option D :=
  if decide (aw_wrapper_r aw = TRetOnly (ty_id R2)) then Some (aw_data aw) else None.

(** [cast_error_only::<E2>]. *)
Definition cast_error_only {D} (E2 : RTy) (aw : AnyWrapperRef D) : option D :=
  if decide (aw_wrapper_e aw = TErrOnly (ty_id E2)) then Some (aw_data aw) else None.

(** [cast_ret_and_error::<R2, E2>]. *)
Definition cast_ret_and_error {D} (R2 E2 : RTy) (aw : AnyWrapperRef D) : option D :=
  if decide (aw_wrapper_re aw = TRetAndErr (ty_id R2) (ty_id E2)) then Some (aw_data aw) else None.

(** ** The casts recover exactly the recorded instantiation *)

(** C28: [cast_send_typed::<M2>] of the view [AnyReceiver::new] built for
    [M] succeeds, giving back the strategy, exactly when [M2] and [M] have
    the same [TypeId]; a mismatched cast is [None] and never
    reconstitutes a trait object from another instantiation's vtable. *)
Theorem cast_send_typed_spec {D} M_ty M2 (rcvr : D) :
  cast_send_typed M2 (any_receiver_new M_ty rcvr) =
    if decide (ty_id M2 = ty_id M_ty) then Some rcvr else None.
Proof.
  unfold cast_send_typed, any_receiver_new; simpl.
  case_decide as Hc; case_decide as Hm; congruence.
Qed.

(** The three casts of [AnyWrapperRef] succeed exactly at the
    [TypeId]s of the [R] and [E] the view was built for. *)
Theorem wrapper_casts_spec {D} R_ty E_ty R2 E2 (rcvr : D) :
  let aw := any_wrapper_new R_ty E_ty rcvr in
  (is_Some (cast_ret_only R2 aw) <-> ty_id R2 = ty_id R_ty) /\
  (is_Some (cast_error_only E2 aw) <-> ty_id E2 = ty_id E_ty) /\
  (is_Some (cast_ret_and_error R2 E2 aw) <-> ty_id R2 = ty_id R_ty /\ ty_id E2 = ty_id E_ty).
Proof.
  unfold cast_ret_only, cast_error_only, cast_ret_and_error, any_wrapper_new; simpl.
  rewrite !is_Some_decide.
  split; [|split]; split.
  - intros Heq. injection Heq as Heq. auto.
  - intros ->. reflexivity.
  - intros Heq. injection Heq as Heq. auto.
  - intros ->. reflexivity.
  - intros Heq. injection Heq as Heq1 Heq2. auto.
  - intros [-> ->]. reflexivity.
Qed.

(** ** [Debug] and [PartialEq] of the [Receiver] handle (lines 647-665)

    [Receiver] holds an [Arc<dyn ReceiverTrait>]; the Rust type behind it
    is a [ReceiverWrapper<M, R, E, S>] or a [RelayWrapper<S>]. *)

Inductive InnerTy : Type :=
| IWrapper (m r e : positive) (strategy : string)
| IRelay (relay : string).

#[export] Instance InnerTy_eq_dec : EqDecision InnerTy.
Proof. solve_decision. Defined.

(** The [TypeId]s in play: that of [Arc<dyn ReceiverTrait>] and those of
    the types behind it. *)
Inductive HandleTypeId : Type :=
| TyArcDynReceiverTrait
| TyInner (t : InnerTy).

#[export] Instance HandleTypeId_eq_dec : EqDecision HandleTypeId.
Proof. solve_decision. Defined.

Record ReceiverHandle : Type := mkReceiverHandle { rh_inner : InnerTy }.

(** [self.inner.type_id()]: [Any] is in scope and implemented for every
    ['static] type, and method resolution tries the receiver
    [&Arc<dyn ReceiverTrait>] (auto-ref) before it dereferences the [Arc],
    so the call is [<Arc<dyn ReceiverTrait> as Any>::type_id]: the
    [TypeId] of the [Arc] type, whatever the receiver behind it. *)
Definition handle_type_id (r : ReceiverHandle) : HandleTypeId := TyArcDynReceiverTrait.

(** [impl fmt::Debug for Receiver]: [write!(f, "Receiver({:?})",
    self.inner.type_id())]; the [Debug] text of a [TypeId] is a
    parameter. *)
Definition receiver_debug (show_type_id : HandleTypeId -> string) (r : ReceiverHandle) : string :=
  "Receiver(" +:+ show_type_id (handle_type_id r) +:+ ")".

(** [impl PartialEq for Receiver]. *)
Definition receiver_eq (r1 r2 : ReceiverHandle) : bool :=
  bool_decide (handle_type_id r1 = handle_type_id r2).

(** Every two receivers compare equal, whatever their message types or
    strategies, and [Debug] prints the same [TypeId] for all. *)
Lemma receiver_eq_ignores_inner r1 r2 : receiver_eq r1 r2 = true.
Proof. reflexivity. Qed.

Lemma receiver_debug_ignores_inner show r1 r2 : receiver_debug show r1 = receiver_debug show r2.
Proof. reflexivity. Qed.
