(* ===== verification/Receiver.v ===== *)
(** * The public [Receiver] handle

    [impl Receiver] of [src/src/receiver.rs] (lines 667-959) over a
    [ReceiverWrapper]: [new], [send] (typed fast path through
    [AnyReceiver::cast_send_typed]), [force_send], [send_boxed], the four
    [add_response_waiter]s (through the [AnyWrapperRef] casts) with the
    futures they return, and [init].  The notification-awaiting operations
    ([ready], [close], [sync], [flush]) and [reserve] suspend; they are
    modelled as task programs in [Lifecycle.v] and [Admission.v].

    A [Panic] outcome is the panic of the calling task (an [unwrap] on a
    failed cast); the unwinding then drops a permit still unfused, which
    the model does not follow further. *)

From S2P Require Import Prelude Envelope Errors Runtime Protocol Context Wrapper AnyReceiver.

Local Open Scope mb_scope.

Section Receiver.
Context {S : Type} `{Strategy S}.
Context (M_ty R_ty E_ty : RTy).

Implicit Types w : ReceiverWrapper S.

(** [Receiver::new::<M, R, E, S>(limit, inner)]: an empty waiters slab
    (of capacity [slab_cap]) and a fresh context. *)
Definition receiver_new (limit : Z) (slab_cap : nat) (s : S) : ReceiverWrapper S :=
  mkWrapper s (Slab.new slab_cap) (new_context limit) ∅ 0.

(** [ReceiverTrait::typed] and [ReceiverTrait::wrapper] of a
    [ReceiverWrapper]: always [Some]. *)
Definition typed w : option (AnyReceiver S) := Some (any_receiver_new M_ty (inner w)).
Definition wrapper w : option (AnyWrapperRef unit) := Some (any_wrapper_new R_ty E_ty tt).

(** The typed send of [send] and [force_send]:
    [any_receiver.cast_send_typed::<M2>().unwrap().send(mid, msg, bus).map_err(Into::into)]. *)
Definition send_typed (M2 : RTy) (mid : Z) (msg : Val) w
  : outcome (result unit (Error Val VoidError) * ReceiverWrapper S) :=
  ar <-! unwrap_opt (typed w) ;;
  s <-! unwrap_opt (cast_send_typed M2 ar) ;;
  let '(s', r) := strat_send s mid msg in
  Done (map_err error_from_send r, set_inner s' w).

(** [Receiver::send::<M2>(bus, mid, msg, permit)]: the permit is fused
    after the strategy's [send], whatever it returned, and then dropped. *)
Definition receiver_send (M2 : RTy) (mid : Z) (msg : Val) (permit : Permit) w
  : outcome (result unit (Error Val VoidError) * ReceiverWrapper S) :=
  x <-! send_typed M2 mid msg w ;;
  let '(res, w') := x in
  let permit' := mkPermit true in
  Done (res, set_context (drop_permit permit' (context w')) w').

(** [Receiver::force_send]: no permit. *)
Definition force_send (M2 : RTy) (mid : Z) (msg : Val) w :=
  send_typed M2 mid msg w.

(** [Receiver::send_boxed]. *)
Definition receiver_send_boxed (mid : Z) (b : BoxedMessage) (permit : Permit) w
  : result unit (Error BoxedMessage VoidError) * ReceiverWrapper S :=
  let '(res, w') := send_boxed M_ty mid b w in
  let permit' := mkPermit true in
  (res, set_context (drop_permit permit' (context w')) w').

(** The common shape of the [add_response_waiter]s: make a channel, hand
    its sender to [add] and, on success, return the correlation id with the
    channel whose receiver the returned future awaits; on failure the
    receiver is dropped with the future that was never made. *)
Definition add_waiter_with (add : Z -> ReceiverWrapper S -> result Z ErasedError * ReceiverWrapper S) w
  : result (Z * Z) ErasedError * ReceiverWrapper S :=
  let '(ch, w1) := new_channel w in
  match add ch w1 with
  | (Ok mid, w2) => (Ok (mid, ch), w2)
  | (Err e, w2) => (Err e, set_chans (alter Oneshot.drop_rx ch (chans w2)) w2)
  end.

(** [add_response_waiter_boxed]: [self.inner.add_response_listener(tx)?]. *)
Definition add_response_waiter_boxed w :=
  add_waiter_with add_response_listener_boxed w.

(** [add_response_waiter_boxed_we::<E2>]: [cast_error_only::<E2>().unwrap()]. *)
Definition add_response_waiter_boxed_we (E2 : RTy) w
  : outcome (result (Z * Z) ErasedError * ReceiverWrapper S) :=
  aw <-! unwrap_opt (wrapper w) ;;
  _ <-! unwrap_opt (cast_error_only E2 aw) ;;
  Done (add_waiter_with add_response_listener_e w).

(** [add_response_waiter::<R2>]: [cast_ret_only::<R2>().unwrap()]. *)
Definition add_response_waiter (R2 : RTy) w
  : outcome (result (Z * Z) ErasedError * ReceiverWrapper S) :=
  aw <-! unwrap_opt (wrapper w) ;;
  _ <-! unwrap_opt (cast_ret_only R2 aw) ;;
  Done (add_waiter_with add_response_listener_r w).

(** [add_response_waiter_we::<R2, E2>]: [cast_ret_and_error::<R2, E2>().unwrap()]. *)
Definition add_response_waiter_we (R2 E2 : RTy) w
  : outcome (result (Z * Z) ErasedError * ReceiverWrapper S) :=
  aw <-! unwrap_opt (wrapper w) ;;
  _ <-! unwrap_opt (cast_ret_and_error R2 E2 aw) ;;
  Done (add_waiter_with add_response_listener_re w).

(** The futures returned by the [add_response_waiter]s:
    [match rx.await { Ok(x) => x, Err(err) => Err(Error::from(err)) }].
    [None] while pending; a [Delivery] of another shape cannot reach the
    channel (each waiter variant sends its own shape). *)
Definition await_response (ch : Z) w : option (option Delivery) :=
  c ← chans w !! ch;
  match Oneshot.recv c with
  | None => None
  | Some (Ok d) => Some (Some d)
  | Some (Err _) => Some None
  end.

(** The future of [add_response_waiter::<R>]: [Result<R, Error>]. *)
Definition await_response_r (ch : Z) w : option (result Val ErasedError) :=
  o ← await_response ch w;
  match o with
  | Some (DWithout r) => Some r
  | Some _ => None
  | None => Some (Err error_from_recv)
  end.

(** The future of [add_response_waiter_boxed]: [Result<Box<dyn Message>, Error>]. *)
Definition await_response_boxed (ch : Z) w : option (result BoxedMessage ErasedError) :=
  o ← await_response ch w;
  match o with
  | Some (DBoxed r) => Some r
  | Some _ => None
  | None => Some (Err error_from_recv)
  end.

(** The requester drops its response future: the channel's receiver is
    dropped. *)
Definition drop_response_future (ch : Z) w : ReceiverWrapper S :=
  set_chans (alter Oneshot.drop_rx ch (chans w)) w.

(** [Receiver::init]: sends [Init] when [is_init_sent()] is false. *)
Definition receiver_init w : result unit (Error Action VoidError) * ReceiverWrapper S :=
  if negb (is_init_sent w) then send_action Init w else (Ok tt, w).

End Receiver.

(** ** Properties of the handle *)

Lemma receiver_new_wf {St} `{Strategy St} lim cap (s : St) :
  wrapper_wf (receiver_new lim cap s).
Proof.
  unfold receiver_new, wrapper_wf; simpl. split_and!.
  - apply Slab.new_wf.
  - done.
  - intros ch c Hc. by rewrite lookup_empty in Hc.
  - intros mid wt Hm. by rewrite lookup_empty in Hm.
  - intros m1 m2 w1 w2 Hm. by rewrite lookup_empty in Hm.
Qed.

(** [receiver_init] run [n] times. *)
Fixpoint init_times {St} `{Strategy St} (n : nat) (w : ReceiverWrapper St) : ReceiverWrapper St :=
  match n with O => w | S k => init_times k (receiver_init w).2 end.

Section ReceiverTheorems.
Context {S : Type} `{Strategy S}.
Context (M_ty R_ty E_ty : RTy).
Implicit Types w : ReceiverWrapper S.

Lemma add_waiter_with_ok mk w :
  wrapper_wf w -> (size (Slab.entries (waiters w)) < Slab.cap (waiters w))%nat ->
  (forall c, waiter_chan (mk c) = c) ->
  exists w1,
    add_waiter_with (add_listener mk) w = (Ok (Slab.next (waiters w), next_chan w), w1) /\
    Slab.entries (waiters w1) !! Slab.next (waiters w) = Some (mk (next_chan w)) /\
    chans w1 !! next_chan w = Some Oneshot.new /\ wrapper_wf w1.
Proof.
  intros Hwf Hcap Hmk.
  destruct (new_channel_wf w Hwf) as (Hwf1 & Hnew & Hfree & Hsame).
  unfold add_waiter_with. destruct (new_channel w) as [ch w1] eqn:Hnc. simpl in *.
  assert (ch = next_chan w) as -> by (unfold new_channel in Hnc; congruence).
  pose proof (add_listener_wf mk (next_chan w) w1 Hwf1 Hnew) as Hwf2.
  unfold add_listener in *. unfold Slab.insert in *. rewrite Hsame in *.
  rewrite decide_True in * by done. simpl in *.
  eexists; split_and!; [reflexivity| |done|].
  - simpl. by rewrite lookup_insert_eq.
  - apply Hwf2; [|done]. intros mid wt Hm. try rewrite Hsame in Hm. eauto.
Qed.

Lemma receiver_init_keeps_init_sent w : is_init_sent (receiver_init w).2 = is_init_sent w.
Proof.
  unfold receiver_init, send_action.
  destruct (negb _); [destruct (strat_send_action _ _)|]; reflexivity.
Qed.

(** C23: [Receiver::send] fuses the permit whatever the strategy answers:
    [processing] is left as it was, so the unit of the permit stays
    counted; on [Err] (the message refused, [Full] or [Closed]) nothing
    will ever give it back. *)
Theorem send_keeps_processing M2 mid msg p w res w' :
  receiver_send M_ty M2 mid msg p w = Done (res, w') ->
  processing (context w') = processing (context w).
Proof.
  unfold receiver_send, send_typed. simpl.
  destruct (cast_send_typed M2 _) as [s|]; simpl; [|discriminate].
  destruct (strat_send s mid msg); simpl. intros; simplify_eq. reflexivity.
Qed.

(** C27: [Receiver::send::<M2>] for an [M2] other than the receiver's [M]
    panics ([cast_send_typed::<M2>().unwrap()] on [None]) instead of
    falling back to [send_boxed]. *)
Theorem send_wrong_type_panics M2 mid msg p w :
  ty_id M2 <> ty_id M_ty -> exists m, receiver_send M_ty M2 mid msg p w = Panic m.
Proof.
  intros Hne. unfold receiver_send, send_typed. simpl.
  rewrite cast_send_typed_spec, decide_False by done. simpl. eauto.
Qed.

(** C4: request/response round trip: on a well-formed wrapper with room in
    its slab, [add_response_waiter::<R>] registers a waiter, and once the
    strategy's [Response(mid, Ok(v))] is handled by the poll loop the
    future of the request resolves to [Ok(v)]. *)
Theorem request_response_roundtrip w v :
  wrapper_wf w -> (size (Slab.entries (waiters w)) < Slab.cap (waiters w))%nat ->
  exists mid ch w1,
    add_response_waiter R_ty E_ty R_ty w = Done (Ok (mid, ch), w1) /\
    exists w2, handle_event R_ty E_ty (Response mid (Ok v)) w1 = Done (w2, true) /\
               await_response_r ch w2 = Some (Ok v).
Proof.
  intros Hwf Hcap.
  destruct (add_waiter_with_ok WithoutErrorType w Hwf Hcap (fun _ => eq_refl))
    as (w1 & Hadd & Hm & Hc & Hwf1).
  exists (Slab.next (waiters w)), (next_chan w), w1. split.
  { unfold add_response_waiter. simpl. unfold cast_ret_only. simpl.
    rewrite decide_True by done. simpl. unfold add_response_listener_r. by rewrite Hadd. }
  destruct (response_take _ _ _ Hm) as (sl & Ht & _).
  eexists. split.
  - unfold handle_event. simpl. unfold response. autorewrite with mb. rewrite Ht. simpl.
    erewrite deliver_open by (autorewrite with mb; eauto). reflexivity.
  - unfold await_response_r, await_response. simpl. by rewrite lookup_insert_eq.
Qed.

(** C8: scenario 5 of the spec: a requester drops its response future;
    when the strategy later answers, handling the [Response] panics in
    the poll loop (the spec expects a logged, discarded response). *)
Theorem dropped_request_panics_poll_loop w r :
  wrapper_wf w -> (size (Slab.entries (waiters w)) < Slab.cap (waiters w))%nat ->
  exists mid ch w1,
    add_response_waiter R_ty E_ty R_ty w = Done (Ok (mid, ch), w1) /\
    exists m, handle_event R_ty E_ty (Response mid r) (drop_response_future ch w1) = Panic m.
Proof.
  intros Hwf Hcap.
  destruct (add_waiter_with_ok WithoutErrorType w Hwf Hcap (fun _ => eq_refl))
    as (w1 & Hadd & Hm & Hc & Hwf1).
  exists (Slab.next (waiters w)), (next_chan w), w1. split.
  { unfold add_response_waiter. simpl. unfold cast_ret_only. simpl.
    rewrite decide_True by done. simpl. unfold add_response_listener_r. by rewrite Hadd. }
  destruct (response_take _ _ _ Hm) as (sl & Ht & _).
  unfold handle_event, drop_response_future. simpl. unfold response. autorewrite with mb.
  rewrite Ht. simpl.
  erewrite deliver_closed.
  - eauto.
  - autorewrite with mb. rewrite lookup_alter_eq, Hc. reflexivity.
  - reflexivity.
Qed.

End ReceiverTheorems.

(** C24: [Receiver::init] never sets [init_sent]: called [n] times on a
    fresh receiver it sends [Init] [n] times (with the reference
    strategy, which records the actions), where the spec promises exactly
    one [Init]. *)
Theorem init_sends_init_each_time (M_ty R_ty E_ty : RTy) n limit scap cap :
  buf_actions (inner (init_times n (receiver_new limit scap (mkBuffer [] cap false [])))) =
  repeat Init n.
Proof.
  assert (Hstep : forall w : ReceiverWrapper BufferStrategy,
            is_init_sent w = false -> buf_closed (inner w) = false ->
            inner (receiver_init w).2 =
            mkBuffer (buf_pending (inner w)) (buf_cap (inner w)) false (buf_actions (inner w) ++ [Init])).
  { intros [[pend c cl acts] wt ctx cs nc] Hi Hc. simpl in *. subst cl.
    unfold receiver_init. rewrite Hi. reflexivity. }
  assert (Hgen : forall n (w : ReceiverWrapper BufferStrategy),
            is_init_sent w = false -> buf_closed (inner w) = false ->
            buf_actions (inner (init_times n w)) = buf_actions (inner w) ++ repeat Init n).
  { clear n. induction n as [|n IH]; intros w Hi Hc; simpl; [by rewrite app_nil_r|].
    rewrite IH.
    - rewrite Hstep by done. simpl. rewrite <-app_assoc. reflexivity.
    - by rewrite receiver_init_keeps_init_sent.
    - by rewrite Hstep. }
  by rewrite Hgen.
Qed.

(** ** Runs on a fresh receiver *)

Section Examples.
Local Open Scope Z_scope.

Definition ex_receiver (cap : nat) : ReceiverWrapper BufferStrategy :=
  receiver_new 1 4%nat (mkBuffer [] cap false []).

Lemma send_keeps_processing_witness :
  exists res w', receiver_send msg_ty msg_ty 0 (VInt 1) (mkPermit false) (ex_receiver 0%nat) = Done (res, w') /\
                 processing (context w') = 0.
Proof.
  destruct (receiver_send msg_ty msg_ty 0 (VInt 1) (mkPermit false) (ex_receiver 0%nat))
    as [[res w']|m] eqn:E; [|discriminate].
  exists res, w'. split; [reflexivity|].
  rewrite (send_keeps_processing msg_ty msg_ty 0 (VInt 1) (mkPermit false) _ res w' E). reflexivity.
Defined.

Lemma send_wrong_type_panics_witness :
  exists m, receiver_send msg_ty resp_ty 0 (VInt 1) (mkPermit false) (ex_receiver 1%nat) = Panic m.
Proof. apply (send_wrong_type_panics msg_ty resp_ty). cbv. discriminate. Defined.

Lemma request_response_roundtrip_witness :
  exists mid ch w1,
    add_response_waiter resp_ty err_ty resp_ty (ex_receiver 1%nat) = Done (Ok (mid, ch), w1) /\
    exists w2, handle_event resp_ty err_ty (Response mid (Ok (VInt 9))) w1 = Done (w2, true) /\
               await_response_r ch w2 = Some (Ok (VInt 9)).
Proof.
  apply (request_response_roundtrip resp_ty err_ty (ex_receiver 1%nat) (VInt 9)).
  - apply receiver_new_wf.
  - vm_compute. lia.
Defined.

Lemma dropped_request_panics_poll_loop_witness :
  exists mid ch w1,
    add_response_waiter resp_ty err_ty resp_ty (ex_receiver 1%nat) = Done (Ok (mid, ch), w1) /\
    exists m, handle_event resp_ty err_ty (Response mid (Ok (VInt 9))) (drop_response_future ch w1) = Panic m.
Proof.
  apply (dropped_request_panics_poll_loop resp_ty err_ty (ex_receiver 1%nat) (Ok (VInt 9))).
  - apply receiver_new_wf.
  - vm_compute. lia.
Defined.

End Examples.
