(* ===== verification/Requests.v ===== *)
(** * Pending requests when the receiver goes away

    A request is a oneshot channel: the requester holds the receiving
    half ([add_response_waiter*]'s future), the waiters slab holds the
    sending half in a [Waiter].  [ReceiverWrapper] has no [Drop] of its
    own: when its last [Arc] goes, the drop glue drops the slab, each
    [Waiter] in it and so each [oneshot::Sender] ([drop_receiver]).  The
    spec (4.3, 8) says pending responses then complete with
    [NoResponse], and that each request gets exactly one outcome.

    [wop] is one operation of the program on the wrapper: registering a
    waiter ([add_waiter_with] with any of the four listeners), a step of
    the event-poll loop ([exec_op]), the strategy moving on, a requester
    dropping its future, a [send_boxed] or a [send_action].  The
    invariant [senders_held]: a channel whose sender is alive has a
    waiter in the slab.  The theorem: from a fresh receiver, after any
    operations, dropping the receiver resolves every request, with the
    response the loop delivered or else with [NoResponse]. *)

From S2P Require Import Prelude Envelope Errors Runtime Protocol Context Wrapper AnyReceiver Receiver.

Local Open Scope mb_scope.

Section Requests.
Context {S : Type} `{Strategy S}.
Context (M_ty R_ty E_ty : RTy).
Implicit Types w : ReceiverWrapper S.

(** The channels whose sender a waiter of the slab holds. *)
Definition held_chans w : list Z :=
  (fun kv => waiter_chan kv.2) <$> map_to_list (Slab.entries (waiters w)).

(** The drop glue of [ReceiverWrapper]: every [Waiter] of the slab drops
    its sender; the channels stay with the requesters. *)
Definition drop_receiver w : gmap Z (Oneshot.chan Delivery) :=
  map_imap (fun ch c => Some (if bool_decide (ch ∈ held_chans w) then Oneshot.drop_tx c else c))
           (chans w).

(** The operations of the program on one wrapper. *)
Inductive wop : ReceiverWrapper S -> ReceiverWrapper S -> Prop :=
| wop_add mk w r w' :
    (forall c, waiter_chan (mk c) = c) ->
    add_waiter_with (add_listener mk) w = (r, w') -> wop w w'
| wop_exec op w w' go :
    exec_op R_ty E_ty op w = Done (w', go) -> wop w w'
| wop_strategy s w : wop w (set_inner s w)
| wop_drop_future ch w : wop w (drop_response_future ch w)
| wop_send_boxed mid b w : wop w (send_boxed M_ty mid b w).2
| wop_send_action a w : wop w (send_action a w).2.

(** A live sender is held by a waiter of the slab. *)
Definition senders_held w : Prop :=
  forall ch c, chans w !! ch = Some c -> Oneshot.tx_alive c = true -> ch ∈ held_chans w.

Definition req_inv w : Prop := wrapper_wf w /\ senders_held w.

(** ** Lemmas *)

Lemma held_chans_spec w ch :
  ch ∈ held_chans w <-> exists mid wt, Slab.entries (waiters w) !! mid = Some wt /\ waiter_chan wt = ch.
Proof.
  unfold held_chans. rewrite list_elem_of_fmap. split.
  - intros ([mid wt] & -> & Hin). apply elem_of_map_to_list in Hin. eauto.
  - intros (mid & wt & Hm & <-). exists (mid, wt). split; [done|]. by apply elem_of_map_to_list.
Qed.

Lemma drop_receiver_lookup w ch :
  drop_receiver w !! ch =
    (fun c => if bool_decide (ch ∈ held_chans w) then Oneshot.drop_tx c else c) <$> chans w !! ch.
Proof. unfold drop_receiver. rewrite map_lookup_imap. by destruct (chans w !! ch). Qed.

(** A future whose sender was dropped or used never stays pending: it
    returns what was sent, or [NoResponse]. *)
Lemma await_response_settled ch w c :
  chans w !! ch = Some c -> Oneshot.tx_alive c = false -> await_response ch w = Some (Oneshot.value c).
Proof. intros Hc Ht. unfold await_response. rewrite Hc. simpl. unfold Oneshot.recv. rewrite Ht. by destruct (Oneshot.value c). Qed.

(** Waiters kept: the channels they hold stay held. *)
Lemma held_chans_mono w w' :
  (forall mid wt, Slab.entries (waiters w) !! mid = Some wt ->
     Slab.entries (waiters w') !! mid = Some wt) ->
  forall ch, ch ∈ held_chans w -> ch ∈ held_chans w'.
Proof. intros Hsub ch. rewrite !held_chans_spec. intros (mid & wt & Hm & <-). eauto. Qed.

Lemma senders_held_frame w w' :
  chans w' = chans w -> waiters w' = waiters w -> senders_held w -> senders_held w'.
Proof. intros Hc Hw Hh ch c. rewrite Hc. unfold held_chans. rewrite Hw. apply Hh. Qed.

Lemma held_chans_waiters w w' : waiters w' = waiters w -> held_chans w' = held_chans w.
Proof. unfold held_chans. by intros ->. Qed.

(** A channel whose sender is dead may change: the invariant needs to
    hold of the other channels only. *)
Lemma senders_held_insert_dead w w' ch c :
  waiters w' = waiters w -> chans w' = <[ch := c]> (chans w) -> Oneshot.tx_alive c = false ->
  (forall ch' c', ch' <> ch -> chans w !! ch' = Some c' -> Oneshot.tx_alive c' = true ->
     ch' ∈ held_chans w) ->
  senders_held w'.
Proof.
  intros Hw Hc Ht Hh ch' c'. rewrite Hc, lookup_insert, (held_chans_waiters w w' Hw).
  case_decide; [intros [= <-] ?; congruence|eauto].
Qed.

Lemma senders_held_alter f ch w :
  (forall c, Oneshot.tx_alive (f c) = Oneshot.tx_alive c) ->
  senders_held w -> senders_held (set_chans (alter f ch (chans w)) w).
Proof.
  intros Hf Hh ch' c'. rewrite (held_chans_waiters w) by done. simpl.
  rewrite lookup_alter_Some. intros [(<- & c & Hc & ->)|[_ Hc]] Ht; [rewrite Hf in Ht|]; eauto.
Qed.

Lemma drop_response_future_wf ch w : wrapper_wf w -> wrapper_wf (drop_response_future ch w).
Proof.
  unfold drop_response_future. intros (Hs & Hn & Hch & Hwt & Hinj). split_and!; simpl; try done.
  - intros ch' c. rewrite lookup_alter_Some. intros [(<- & c0 & Hc & _)|[_ Hc]]; eauto.
  - intros mid wt Hm. destruct (Hwt _ _ Hm) as (c & Hc & Ht & Hv).
    destruct (decide (ch = waiter_chan wt)) as [Heq|Hne].
    + subst ch. exists (Oneshot.drop_rx c). by rewrite lookup_alter_eq, Hc.
    + exists c. by rewrite lookup_alter_ne.
Qed.

Lemma drop_response_future_req ch w : req_inv w -> req_inv (drop_response_future ch w).
Proof.
  intros [Hwf Hh]. split; [by apply drop_response_future_wf|].
  by apply senders_held_alter.
Qed.

(** Taking the waiter of [mid] out of the slab keeps every other channel
    held. *)
Lemma held_chans_take w sl mid wt ch :
  Slab.entries (waiters w) !! mid = Some wt -> Slab.entries sl = delete mid (Slab.entries (waiters w)) ->
  ch ∈ held_chans w -> ch <> waiter_chan wt -> ch ∈ held_chans (set_waiters sl w).
Proof.
  intros Hm Hsl. rewrite !held_chans_spec. intros (mid' & wt' & Hm' & <-) Hne.
  exists mid', wt'. simpl. rewrite Hsl, lookup_delete_ne; [done|]. by intros ->; simplify_eq.
Qed.

(** [response]: the taken waiter's sender is used (or the loop panics),
    every other sender stays in the slab. *)
Lemma response_senders_held mid r w res w' :
  senders_held w -> response R_ty E_ty mid r w = Done (res, w') -> senders_held w'.
Proof.
  intros Hh. unfold response. destruct (Slab.take mid (waiters w)) as [[wt|] sl] eqn:Ht.
  - apply Slab.take_Some in Ht as (Hm & Hsl & _).
    assert (Hd : exists d, match wt with
        | WithErrorType ch => deliver ch (DWithErr r) (set_waiters sl w)
        | WithoutErrorType ch => deliver ch (DWithout (map_err (into_dyn E_ty) r)) (set_waiters sl w)
        | Boxed ch => deliver ch (DBoxed (map_ok (into_boxed R_ty) (map_err (into_dyn E_ty) r))) (set_waiters sl w)
        | BoxedWithError ch => deliver ch (DBoxedWithErr (map_ok (into_boxed R_ty) r)) (set_waiters sl w)
        end = deliver (waiter_chan wt) d (set_waiters sl w)) by (destruct wt; eexists; reflexivity).
    destruct Hd as [d ->]. unfold deliver. simpl.
    destruct (chans w !! waiter_chan wt) as [c|] eqn:Hc.
    + unfold Oneshot.send. destruct (Oneshot.rx_alive c); simpl; [|discriminate].
      intros [= _ <-]. eapply (senders_held_insert_dead (set_waiters sl w)); [done|done|done|].
      intros ch' c' Hne Hc' Ht'. apply (held_chans_take w sl mid wt); eauto.
    + intros [= _ <-]. intros ch' c' Hc' Ht'. apply (held_chans_take w sl mid wt); eauto.
      intros ->. simpl in Hc'. congruence.
  - apply Slab.take_None in Ht as [-> _]. simpl. intros [= _ <-]. by destruct w.
Qed.

Lemma add_waiter_with_req mk w r w' :
  (forall c, waiter_chan (mk c) = c) -> req_inv w ->
  add_waiter_with (add_listener mk) w = (r, w') -> req_inv w'.
Proof.
  intros Hmk [Hwf Hh]. pose proof Hwf as (Hs & _).
  destruct (new_channel_wf w Hwf) as (Hwf1 & Hnew & Hfree & _).
  pose proof (add_listener_wf mk _ _ Hwf1 Hnew Hfree Hmk) as Hwf2.
  unfold add_waiter_with, new_channel in *. simpl in *.
  destruct (add_listener mk (next_chan w) _) as [[key|e] w2] eqn:Hadd;
    unfold add_listener in Hadd; simpl in Hadd;
    destruct (Slab.insert (mk (next_chan w)) (waiters w)) as [[k|] sl] eqn:Hins; simplify_eq.
  - intros [= <- <-]. split; [done|]. apply Slab.insert_Some in Hins as (-> & He & _).
    pose proof (Slab.next_fresh _ Hs) as Hfresh.
    intros ch' c. simpl. rewrite lookup_insert. case_decide as Hch.
    + intros _ _. subst ch'. apply held_chans_spec. exists (Slab.next (waiters w)), (mk (next_chan w)).
      simpl. by rewrite He, lookup_insert_eq.
    + intros Hc Ht. apply (held_chans_mono w); [|by eapply Hh].
      intros mid wt Hm. simpl. rewrite He, lookup_insert_ne; [done|]. intros Heq. subst mid. congruence.
  - intros [= <- <-]. split; [by apply drop_response_future_wf|].
    apply senders_held_alter; [done|]. simpl. rewrite alter_insert_eq.
    eapply (senders_held_insert_dead w); [done|done|done|]. eauto.
Qed.
Lemma wop_req w w' : wop w w' -> req_inv w -> req_inv w'.
Proof.
  destruct 1 as [mk w r w' Hmk Hadd|op w w' go Hop|s w|ch w|mid b w|a w]; intros Hinv;
    try pose proof Hinv as [Hwf Hh].
  - by eapply add_waiter_with_req.
  - split; [by eapply exec_op_wf|].
    destruct op; simpl in Hop; simplify_eq; try done.
    destruct (response R_ty E_ty mid r w) as [[res w1]|] eqn:Hr; simplify_eq/=.
    by eapply response_senders_held.
  - done.
  - by apply drop_response_future_req.
  - split; [by apply send_boxed_wf|]. unfold send_boxed.
    destruct (downcast M_ty b); [destruct (strat_send _ _ _)|]; done.
  - split; [by apply send_action_wf|]. unfold send_action. by destruct (strat_send_action _ _).
Qed.

Lemma req_inv_rtc w w' : rtc wop w w' -> req_inv w -> req_inv w'.
Proof. induction 1; eauto using wop_req. Qed.

Lemma req_inv_new lim cap s : req_inv (receiver_new lim cap s).
Proof.
  split; [apply receiver_new_wf|]. intros ch c Hc. unfold receiver_new in Hc. simpl in Hc. by rewrite lookup_empty in Hc.
Qed.

(** C9: dropping the receiver resolves every request.  From a fresh
    receiver, after any sequence of waiter registrations, event-loop
    steps, strategy steps, sends and dropped futures, the drop of the
    receiver leaves no future pending: each returns the response the loop
    delivered on its channel or, when there was none, [NoResponse]
    ([None]); never both, never neither. *)
Theorem receiver_drop_resolves_requests lim cap s w ch c :
  rtc wop (receiver_new lim cap s) w -> chans w !! ch = Some c ->
  await_response ch (set_chans (drop_receiver w) w) = Some (Oneshot.value c).
Proof.
  intros Hrun Hc. destruct (req_inv_rtc _ _ Hrun (req_inv_new lim cap s)) as [_ Hh].
  assert (Hd := drop_receiver_lookup w ch). rewrite Hc in Hd. simpl in Hd.
  destruct (decide (ch ∈ held_chans w)) as [Hheld|Hfree].
  - rewrite bool_decide_true in Hd by done. by apply (await_response_settled _ (set_chans _ w) (Oneshot.drop_tx c)).
  - rewrite bool_decide_false in Hd by done. apply (await_response_settled _ (set_chans _ w) c Hd).
    destruct (Oneshot.tx_alive c) eqn:Ht; [|done]. exfalso. eauto.
Qed.

End Requests.

(** ** A run: two requests, the first answered *)

Section RequestsExample.
Local Open Scope Z_scope.

Definition req_add (w : ReceiverWrapper BufferStrategy) : ReceiverWrapper BufferStrategy :=
  (add_waiter_with (add_listener WithoutErrorType) w).2.

Definition req_ex : ReceiverWrapper BufferStrategy :=
  match exec_op resp_ty err_ty (OpRespond 0 (Ok (VInt 9))) (req_add (req_add (ex_receiver 1%nat))) with
  | Done (w, _) => w
  | Panic _ => ex_receiver 1%nat
  end.

Lemma req_ex_run : rtc (wop msg_ty resp_ty err_ty) (ex_receiver 1%nat) req_ex.
Proof.
  eapply rtc_l; [eapply (wop_add _ _ _ WithoutErrorType); [done|reflexivity]|].
  eapply rtc_l; [eapply (wop_add _ _ _ WithoutErrorType); [done|reflexivity]|].
  eapply rtc_once, (wop_exec _ _ _ (OpRespond 0 (Ok (VInt 9)))). vm_compute. reflexivity.
Qed.

Lemma receiver_drop_resolves_requests_witness :
  await_response 0 (set_chans (drop_receiver req_ex) req_ex) = Some (Some (DWithout (Ok (VInt 9)))) /\
  await_response 1 (set_chans (drop_receiver req_ex) req_ex) = Some None.
Proof.
  split.
  - apply (receiver_drop_resolves_requests msg_ty resp_ty err_ty 1 4 (mkBuffer [] 1 false []) req_ex 0
             (Oneshot.mk true false (Some (DWithout (Ok (VInt 9)))))); [apply req_ex_run|vm_compute; reflexivity].
  - apply (receiver_drop_resolves_requests msg_ty resp_ty err_ty 1 4 (mkBuffer [] 1 false []) req_ex 1
             Oneshot.new); [apply req_ex_run|vm_compute; reflexivity].
Defined.

End RequestsExample.
