(* ===== verification/Lifecycle.v ===== *)
(** * Lifecycle waits: [ready], [close], [sync], [flush] against the event loop

    [Receiver::ready] (lines 914-919) subscribes to [ready_notify] and
    awaits the notification unless [is_ready()] already holds;
    [Receiver::close], [sync] and [flush] (lines 921-952) subscribe to
    their notification, send their [Action] and await the notification
    when the send succeeded.  The notifications are fired by the
    event-poll loop of [start_polling_events] (lines 208-225).  The caller
    tasks and the loop run concurrently: [lstep] interleaves them one
    atomic operation at a time, over the shared wrapper.

    The loop's arms are a parameter [arm] of the step relation: the code's
    [event_ops] ([Ready] fires [ready] and then stores [ready_flag]), or
    [event_ops_spec], the order the spec's table (4.3) gives ([ready_flag]
    stored, then [ready] fired).  The theorems: with the code's order a
    [ready()] caller can miss the [Ready] event and wait for good although
    the receiver is ready; with the spec's order it cannot; and a
    [close]/[sync]/[flush] caller, having subscribed before sending, is
    woken by the loop's notification whenever it comes. *)

From S2P Require Import Prelude Envelope Errors Runtime Protocol Context Wrapper Receiver.

Local Open Scope mb_scope.

(** The three actions a caller awaits the completion of. *)
Inductive LAction : Type := LClose | LSync | LFlush.

#[export] Instance LAction_eq_dec : EqDecision LAction.
Proof. solve_decision. Defined.

(** The [Action] each of [close], [sync], [flush] sends. *)
Definition laction_action (a : LAction) : Action :=
  match a with LClose => Close | LSync => Sync | LFlush => Flush end.

(** The notification each of them awaits: [close_notify], [sync_notify],
    [flush_notify]. *)
Definition laction_notify (a : LAction) : NotifyName :=
  match a with LClose => NClosed | LSync => NSynchronized | LFlush => NFlushed end.

(** The program points of a caller task. *)
Inductive LTask : Type :=
| LReady                      (** [ready()]: before [ready_notify().notified()] *)
| LReadyCheck                 (** subscribed: before [if !is_ready()] *)
| LAct (a : LAction)          (** [close]/[sync]/[flush]: before [notified()] *)
| LActSend (a : LAction)      (** subscribed: before [send_action] *)
| LAwait (n : NotifyName)     (** [notify.await] *)
| LReturned.                  (** the call returned *)

#[export] Instance LTask_eq_dec : EqDecision LTask.
Proof. solve_decision. Defined.

(** The callers and the loop over one receiver; [lhist] lists the events
    the loop has taken, in order. *)
Record LState (S : Type) : Type := mkL {
  lw : ReceiverWrapper S;
  lloop : list LoopOp;
  lexited : bool;
  ltasks : list LTask;
  lhist : list (Event Val Val)
}.
Arguments mkL {S}.
Arguments lw {S}.
Arguments lloop {S}.
Arguments lexited {S}.
Arguments ltasks {S}.
Arguments lhist {S}.

(** An operation on one of the context's notifications. *)
Definition set_notify {S} (n : NotifyName) (f : Notify.t -> Notify.t) (w : ReceiverWrapper S) :=
  set_context (map_notify n f (context w)) w.

(** The arms of the loop in the order of the spec's table (4.3): [Ready]
    stores [ready_flag] before it fires [ready]. *)
Definition event_ops_spec (ev : Event Val Val) : list LoopOp :=
  match ev with
  | Ready => [OpStoreReady true; OpNotifyWaiters NReady]
  | _ => event_ops ev
  end.

(** The events whose arm (in either order) fires [ready]. *)
Definition wakes_ready (ev : Event Val Val) : bool :=
  match ev with Ready | InitFailed _ => true | _ => false end.

Section Lifecycle.
Context {S : Type} `{Strategy S}.
Context (R_ty E_ty : RTy) (arm : Event Val Val -> list LoopOp).

Inductive lstep : LState S -> LState S -> Prop :=
| l_ready_subscribe w lp ex ts h i :
    ts !! i = Some LReady ->
    lstep (mkL w lp ex ts h)
          (mkL (set_notify NReady (Notify.notified i) w) lp ex (<[i := LReadyCheck]> ts) h)
| l_ready_check w lp ex ts h i :
    ts !! i = Some LReadyCheck ->
    lstep (mkL w lp ex ts h)
          (mkL (if is_ready w then set_notify NReady (Notify.drop_notified i) w else w) lp ex
               (<[i := if is_ready w then LReturned else LAwait NReady]> ts) h)
| l_act_subscribe w lp ex ts h i a :
    ts !! i = Some (LAct a) ->
    lstep (mkL w lp ex ts h)
          (mkL (set_notify (laction_notify a) (Notify.notified i) w) lp ex
               (<[i := LActSend a]> ts) h)
| l_act_send w lp ex ts h i a r w' :
    ts !! i = Some (LActSend a) ->
    send_action (laction_action a) w = (r, w') ->
    lstep (mkL w lp ex ts h)
          (mkL (if is_ok r then w' else set_notify (laction_notify a) (Notify.drop_notified i) w')
               lp ex (<[i := if is_ok r then LAwait (laction_notify a) else LReturned]> ts) h)
| l_wake w lp ex ts h i n n' :
    ts !! i = Some (LAwait n) ->
    Notify.poll i (notify_of n (context w)) = Some n' ->
    lstep (mkL w lp ex ts h) (mkL (set_notify n (fun _ => n') w) lp ex (<[i := LReturned]> ts) h)
| l_poll w ts h ev s' :
    strat_event (inner w) ev s' ->
    lstep (mkL w [] false ts h) (mkL (set_inner s' w) (arm ev) false ts (h ++ [ev]))
| l_exec w op rest ex ts h w' go :
    exec_op R_ty E_ty op w = Done (w', go) ->
    lstep (mkL w (op :: rest) ex ts h)
          (mkL w' (if go then rest else []) (ex || negb go) ts h).

(** A step that takes no event firing [ready]. *)
Definition quiet_step (a a' : LState S) : Prop :=
  lstep a a' /\ Forall (fun ev => wakes_ready ev = false) (drop (length (lhist a)) (lhist a')).

End Lifecycle.

(** A fresh receiver with the reference strategy and the given callers,
    the loop between events. *)
Definition lifecycle_init (ts : list LTask) : LState BufferStrategy :=
  mkL (receiver_new 1 4 (mkBuffer [] 1 false [])) [] false ts [].

(** What one loop operation does to a notification and to [ready_flag]. *)
Definition op_notify (op : LoopOp) (n : NotifyName) (x : Notify.t) : Notify.t :=
  match op with
  | OpNotifyWaiters m => if decide (n = m) then Notify.notify_waiters x else x
  | OpNotifyOneResponse => if decide (n = NResponse) then Notify.notify_one x else x
  | _ => x
  end.

Definition op_flag (op : LoopOp) (b : bool) : bool :=
  match op with OpStoreReady b' => b' | _ => b end.

(** The caller [i] is subscribed to the notification [n]: its [Notified]
    future is registered, woken or not. *)
Definition registered (i : nat) (n : Notify.t) : Prop :=
  i ∈ Notify.waiting n \/ i ∈ Notify.woken n.

(** The callers start before subscribing, the loop between events. *)
Definition lifecycle_start {S} (a : LState S) : Prop :=
  lloop a = [] /\ Forall (fun t => t = LReady \/ exists x, t = LAct x) (ltasks a).

(** ** [Notify] under the other tasks' operations *)

Create HintDb notify.

Section NotifyFacts.
Implicit Types (i j : nat) (n : Notify.t).

Lemma registered_notified i j n : registered i n -> registered i (Notify.notified j n).
Proof. unfold registered; simpl. rewrite elem_of_app. tauto. Qed.

Lemma registered_notified_self i n : registered i (Notify.notified i n).
Proof. left; simpl. rewrite elem_of_app, list_elem_of_singleton. auto. Qed.

Lemma registered_drop i j n : i <> j -> registered i n -> registered i (Notify.drop_notified j n).
Proof. unfold registered; simpl. rewrite !list_elem_of_filter. tauto. Qed.

Lemma woken_notify_waiters i n : registered i n -> i ∈ Notify.woken (Notify.notify_waiters n).
Proof. unfold registered; simpl. rewrite elem_of_app. tauto. Qed.

Lemma registered_notify_waiters i n : registered i n -> registered i (Notify.notify_waiters n).
Proof. right. by apply woken_notify_waiters. Qed.

Lemma registered_notify_one i n : registered i n -> registered i (Notify.notify_one n).
Proof.
  unfold registered, Notify.notify_one. destruct (Notify.waiting n) as [|x l]; simpl; [tauto|].
  rewrite elem_of_cons, elem_of_app, list_elem_of_singleton. naive_solver.
Qed.

Lemma registered_poll i j n n' :
  i <> j -> Notify.poll j n = Some n' -> registered i n -> registered i n'.
Proof.
  unfold Notify.poll, registered. repeat case_decide; destruct (Notify.permit n);
    intros ? [= <-]; simpl; rewrite ?list_elem_of_filter; tauto.
Qed.

Lemma registered_op i op m n : registered i n -> registered i (op_notify op m n).
Proof.
  destruct op; simpl; try case_decide; eauto using registered_notify_waiters, registered_notify_one.
Qed.

Lemma poll_woken i n : i ∈ Notify.woken n -> is_Some (Notify.poll i n).
Proof. unfold Notify.poll. case_decide; [eauto|done]. Qed.

Lemma poll_unwoken i n : i ∉ Notify.woken n -> Notify.permit n = false -> Notify.poll i n = None.
Proof. unfold Notify.poll. intros ? ->. by case_decide. Qed.

(** Not woken, with no stored permit: what a lost wakeup leaves. *)
Definition unwoken i n : Prop := (i ∉ Notify.woken n) /\ Notify.permit n = false.

Lemma unwoken_notified i j n : unwoken i n -> unwoken i (Notify.notified j n).
Proof. done. Qed.

Lemma unwoken_drop i j n : unwoken i n -> unwoken i (Notify.drop_notified j n).
Proof. unfold unwoken; simpl. rewrite list_elem_of_filter. tauto. Qed.

Lemma unwoken_poll i j n n' : unwoken i n -> Notify.poll j n = Some n' -> unwoken i n'.
Proof.
  unfold Notify.poll, unwoken. intros [Hw Hp]. rewrite Hp.
  case_decide; intros [= <-]; simpl; rewrite ?list_elem_of_filter; tauto.
Qed.

(** A waiter registered and not woken stays registered under the other
    callers' operations, and is woken by [notify_waiters] only. *)
Lemma waiting_notified i j n : i ∈ Notify.waiting n -> i ∈ Notify.waiting (Notify.notified j n).
Proof. simpl. rewrite elem_of_app. auto. Qed.

Lemma waiting_drop i j n : i <> j -> i ∈ Notify.waiting n -> i ∈ Notify.waiting (Notify.drop_notified j n).
Proof. simpl. rewrite list_elem_of_filter. auto. Qed.

Lemma woken_drop i j n : i <> j -> i ∈ Notify.woken n -> i ∈ Notify.woken (Notify.drop_notified j n).
Proof. simpl. rewrite list_elem_of_filter. auto. Qed.

Lemma waiting_poll i j n n' :
  i <> j -> Notify.poll j n = Some n' ->
  (i ∈ Notify.waiting n -> i ∈ Notify.waiting n') /\ (i ∈ Notify.woken n -> i ∈ Notify.woken n').
Proof.
  unfold Notify.poll. repeat case_decide; destruct (Notify.permit n);
    intros ? [= <-]; simpl; rewrite ?list_elem_of_filter; auto.
Qed.

End NotifyFacts.

#[export] Hint Resolve registered_notified registered_notified_self registered_drop
  registered_notify_waiters registered_notify_one registered_poll registered_op
  unwoken_notified unwoken_drop unwoken_poll : notify.

(** ** What the steps do to the notifications *)

Lemma notify_of_map_notify m n f c :
  notify_of n (map_notify m f c) = if decide (n = m) then f (notify_of n c) else notify_of n c.
Proof. destruct m, n; reflexivity. Qed.

Lemma ready_flag_map_notify m f c : ready_flag (map_notify m f c) = ready_flag c.
Proof. by destruct m. Qed.

Lemma notify_of_set_notify {S} m n f (w : ReceiverWrapper S) :
  notify_of n (context (set_notify m f w)) =
    if decide (n = m) then f (notify_of n (context w)) else notify_of n (context w).
Proof. apply notify_of_map_notify. Qed.

Lemma is_ready_set_notify {S} m f (w : ReceiverWrapper S) : is_ready (set_notify m f w) = is_ready w.
Proof. apply ready_flag_map_notify. Qed.

Lemma send_action_context {S} `{Strategy S} a (w w' : ReceiverWrapper S) r :
  send_action a w = (r, w') -> context w' = context w.
Proof. unfold send_action. destruct (strat_send_action _ _). by intros [= _ <-]. Qed.

Lemma exec_op_context {S} `{Strategy S} R_ty E_ty op (w w' : ReceiverWrapper S) go :
  exec_op R_ty E_ty op w = Done (w', go) ->
  (forall n, notify_of n (context w') = op_notify op n (notify_of n (context w))) /\
  ready_flag (context w') = op_flag op (ready_flag (context w)).
Proof.
  destruct op as [b|m| | |mid r| |]; simpl; intros Hop; simplify_eq; simpl.
  - split; [intros []|]; reflexivity.
  - split; [intros n; apply notify_of_map_notify|apply ready_flag_map_notify].
  - split; [intros []|]; reflexivity.
  - split; [intros []|]; reflexivity.
  - destruct (response R_ty E_ty mid r w) as [[res w2]|] eqn:Hr; simpl in Hop; simplify_eq.
    apply response_effect in Hr as [-> _]. split; [intros []|]; reflexivity.
  - split; [intros []|]; reflexivity.
Qed.

(** Every notification, seen by a caller [i] in a step that does not
    move [i]'s own future: what [i] knows of it is kept. *)
Definition notify_frame (P : nat -> Notify.t -> Prop) (i : nat) (c c' : ReceiverContext) : Prop :=
  forall n, P i (notify_of n c) -> P i (notify_of n c').

Lemma notify_frame_set {S} (P : nat -> Notify.t -> Prop) i m f (w : ReceiverWrapper S) :
  (forall x, P i x -> P i (f x)) -> notify_frame P i (context w) (context (set_notify m f w)).
Proof. intros Hf n. rewrite notify_of_set_notify. case_decide; auto. Qed.

Lemma notify_frame_refl (P : nat -> Notify.t -> Prop) i c : notify_frame P i c c.
Proof. by intros n. Qed.

#[export] Hint Resolve notify_frame_set notify_frame_refl : notify.

(** ** Every waiting caller is subscribed *)

(** What caller [i] at program point [t] has registered. *)
Definition task_registered (c : ReceiverContext) (i : nat) (t : LTask) : Prop :=
  match t with
  | LReadyCheck => registered i (notify_of NReady c)
  | LActSend a => registered i (notify_of (laction_notify a) c)
  | LAwait n => registered i (notify_of n c)
  | _ => True
  end.

Definition reg_inv {S} (a : LState S) : Prop :=
  forall i t, ltasks a !! i = Some t -> task_registered (context (lw a)) i t.

Lemma task_registered_frame c c' i t :
  notify_frame registered i c c' -> task_registered c i t -> task_registered c' i t.
Proof. intros Hf Ht. destruct t; cbn [task_registered] in *; try done; by apply Hf. Qed.

(** The caller [i] moved, the others kept their program points. *)
Ltac task_cases :=
  let k := fresh "k" in let t := fresh "t" in let Hk := fresh "Hk" in
  let Hne := fresh "Hne" in
  intros k t Hk; apply list_lookup_insert_Some in Hk as [(<- & <- & _)|(Hne & Hk)].

Lemma notify_frame_set_at {S} (P : nat -> Notify.t -> Prop) i m x (w : ReceiverWrapper S) :
  (P i (notify_of m (context w)) -> P i x) ->
  notify_frame P i (context w) (context (set_notify m (fun _ => x) w)).
Proof. intros Hx n. rewrite notify_of_set_notify. case_decide; subst; auto. Qed.

Lemma reg_inv_start {S} (a : LState S) : lifecycle_start a -> reg_inv a.
Proof.
  intros [_ Hts] i t Hi. apply (Forall_lookup_1 _ _ _ _ Hts) in Hi as [->|[x ->]]; done.
Qed.

Section Registration.
Context {S : Type} `{Strategy S} (R_ty E_ty : RTy) (arm : Event Val Val -> list LoopOp).

Lemma reg_inv_step (a a' : LState S) : lstep R_ty E_ty arm a a' -> reg_inv a -> reg_inv a'.
Proof.
  intros Hs Hinv.
  destruct Hs as [w lp ex ts h i Hi|w lp ex ts h i Hi|w lp ex ts h i x Hi|w lp ex ts h i x r w' Hi Hsend
                 |w lp ex ts h i n n' Hi Hp|w ts h ev s' Hev|w op rest ex ts h w' go Hop];
    unfold reg_inv in *; cbn [ltasks lw] in *.
  - task_cases.
    + cbn [task_registered]. rewrite notify_of_set_notify, decide_True by done. apply registered_notified_self.
    + eapply task_registered_frame; [|by apply Hinv]. auto with notify.
  - destruct (is_ready w); task_cases; try done; try by apply Hinv.
    + eapply task_registered_frame; [|by apply Hinv]. auto with notify.
    + exact (Hinv _ _ Hi).
  - task_cases.
    + cbn [task_registered]. rewrite notify_of_set_notify, decide_True by done.
      apply registered_notified_self.
    + eapply task_registered_frame; [|by apply Hinv]. auto with notify.
  - apply send_action_context in Hsend.
    destruct (is_ok r); task_cases; try done; rewrite ?Hsend.
    + exact (Hinv _ _ Hi).
    + by apply Hinv.
    + eapply task_registered_frame; [|rewrite <-Hsend in Hinv; by apply Hinv]. auto with notify.
  - task_cases; [done|].
    eapply task_registered_frame; [|by apply Hinv]. apply notify_frame_set_at. eauto with notify.
  - intros k t Hk. rewrite context_set_inner. by apply Hinv.
  - intros k t Hk. apply exec_op_context in Hop as [Hn _].
    eapply task_registered_frame; [|by apply Hinv]. intros m. rewrite Hn. apply registered_op.
Qed.

Lemma reg_inv_reach (a0 a : LState S) :
  lifecycle_start a0 -> rtc (lstep R_ty E_ty arm) a0 a -> reg_inv a.
Proof.
  intros H0. apply rtc_preserved; [apply reg_inv_step|by apply reg_inv_start].
Qed.

End Registration.

(** ** A [close]/[sync]/[flush] caller past its subscription *)

(** Caller [i] is woken on the notification: its [Notified] completes. *)
Definition woken_on (i : nat) (n : Notify.t) : Prop := i ∈ Notify.woken n.

Lemma woken_on_op i op m n : woken_on i n -> woken_on i (op_notify op m n).
Proof.
  unfold woken_on, op_notify. intros Hw. destruct op; repeat case_decide; try done.
  - simpl. rewrite elem_of_app. auto.
  - unfold Notify.notify_one. destruct (Notify.waiting n); simpl; rewrite ?elem_of_app; auto.
Qed.

Lemma woken_on_poll i j n n' : i <> j -> Notify.poll j n = Some n' -> woken_on i n -> woken_on i n'.
Proof. intros Hne Hp. apply (waiting_poll i j n n' Hne Hp). Qed.

Section Armed.
Context {S : Type} `{Strategy S} (R_ty E_ty : RTy) (arm : Event Val Val -> list LoopOp).

(** What caller [i] holds of its notification, kept by the other tasks
    and by the loop: [registered], or [woken_on]. *)
Variable P : nat -> Notify.t -> Prop.
Hypothesis P_notified : forall i j n, P i n -> P i (Notify.notified j n).
Hypothesis P_drop : forall i j n, i <> j -> P i n -> P i (Notify.drop_notified j n).
Hypothesis P_poll : forall i j n n', i <> j -> Notify.poll j n = Some n' -> P i n -> P i n'.
Hypothesis P_op : forall i op m n, P i n -> P i (op_notify op m n).

(** Caller [i] of [close]/[sync]/[flush] for [x], past its
    [notified()]: returned, or before [send_action] or awaiting, with [P]
    of its notification. *)
Definition act_armed (i : nat) (x : LAction) (a : LState S) : Prop :=
  ltasks a !! i = Some LReturned \/
  ((ltasks a !! i = Some (LActSend x) \/ ltasks a !! i = Some (LAwait (laction_notify x))) /\
   P i (notify_of (laction_notify x) (context (lw a)))).

Lemma act_armed_step i x (a a' : LState S) :
  lstep R_ty E_ty arm a a' -> act_armed i x a -> act_armed i x a'.
Proof.
  intros Hs Ha.
  destruct Hs as [w lp ex ts h j Hj|w lp ex ts h j Hj|w lp ex ts h j y Hj|w lp ex ts h j y r w' Hj Hsend
                 |w lp ex ts h j n n' Hj Hp|w ts h ev s' Hev|w op rest ex ts h w' go Hop];
    unfold act_armed in *; cbn [ltasks lw] in *.
  all: try (destruct (decide (j = i)) as [<-|Hne];
            [try (exfalso; destruct Ha as [Ha|[[Ha|Ha] _]]; congruence)
            |rewrite list_lookup_insert_ne by done; destruct Ha as [Ha|[Ht Ha]]; [by left|right; split; [done|]]]).
  - apply (notify_frame_set P); auto.
  - destruct (is_ready w); [apply (notify_frame_set P); auto|done].
  - apply (notify_frame_set P); auto.
  - assert (y = x) as -> by (destruct Ha as [Ha|[[Ha|Ha] _]]; congruence).
    rewrite list_lookup_insert_eq by (by eapply lookup_lt_Some).
    destruct (is_ok r); [right; split; [by right|]|by left].
    rewrite (send_action_context _ _ _ _ Hsend). destruct Ha as [Ha|[_ Ha]]; [congruence|done].
  - apply send_action_context in Hsend. destruct (is_ok r); [by rewrite Hsend|].
    apply (notify_frame_set P); [auto|by rewrite Hsend].
  - left. rewrite list_lookup_insert_eq by (by eapply lookup_lt_Some). done.
  - apply (notify_frame_set_at P); eauto.
  - destruct Ha as [Ha|[Ht Ha]]; [by left|right]. by rewrite context_set_inner.
  - apply exec_op_context in Hop as [Hn _].
    destruct Ha as [Ha|[Ht Ha]]; [by left|right]. rewrite Hn. auto.
Qed.

Lemma act_armed_rtc i x (a a' : LState S) :
  rtc (lstep R_ty E_ty arm) a a' -> act_armed i x a -> act_armed i x a'.
Proof. intros Hr Ha. eapply rtc_preserved; [|exact Ha|exact Hr]. intros. by eapply act_armed_step. Qed.

End Armed.

(** [notify_waiters] on the caller's notification turns its
    subscription into a wakeup. *)
Lemma act_armed_fire {S} `{Strategy S} R_ty E_ty i x (b : LState S) w' go rest :
  act_armed registered i x b -> lloop b = OpNotifyWaiters (laction_notify x) :: rest ->
  exec_op R_ty E_ty (OpNotifyWaiters (laction_notify x)) (lw b) = Done (w', go) ->
  act_armed woken_on i x (mkL w' (if go then rest else []) (lexited b || negb go) (ltasks b) (lhist b)).
Proof.
  intros Ha _ Hop. apply exec_op_context in Hop as [Hn _].
  destruct Ha as [Ha|[Ht Ha]]; [by left|right; split; [done|]]. cbn [lw].
  rewrite Hn. simpl. rewrite decide_True by done. by apply woken_notify_waiters.
Qed.

(** ** A [ready()] caller that missed the notification *)

(** Caller [i] awaits [ready] unwoken, with no stored permit, and the
    loop has no [ready.notify_waiters()] left in the arm it is running. *)
Definition ready_stuck {S} (i : nat) (a : LState S) : Prop :=
  ltasks a !! i = Some (LAwait NReady) /\ unwoken i (notify_of NReady (context (lw a))) /\
  OpNotifyWaiters NReady ∉ lloop a.

Lemma event_ops_fire_ready ev : OpNotifyWaiters NReady ∈ event_ops ev -> wakes_ready ev = true.
Proof.
  destruct ev; simpl; rewrite ?elem_of_cons, ?elem_of_nil; intros Hin; try done;
    intuition congruence.
Qed.

Lemma op_notify_ready op x : op <> OpNotifyWaiters NReady -> op_notify op NReady x = x.
Proof. destruct op as [| [] | | | | |]; simpl; intros; try done; by case_decide. Qed.

Section Stuck.
Context {S : Type} `{Strategy S} (R_ty E_ty : RTy).

Lemma ready_stuck_step i (a a' : LState S) :
  quiet_step R_ty E_ty event_ops a a' -> ready_stuck i a -> ready_stuck i a'.
Proof.
  intros [Hs Hq] (Hi & Hu & Hl). revert Hq Hi Hu Hl. unfold ready_stuck.
  destruct Hs as [w lp ex ts h j Hj|w lp ex ts h j Hj|w lp ex ts h j x Hj|w lp ex ts h j x r w' Hj Hsend
                 |w lp ex ts h j n n' Hj Hp|w ts h ev s' Hev|w op rest ex ts h w' go Hop];
    cbn [ltasks lw lloop lhist]; intros Hq Hi Hu Hl.
  all: try (assert (j <> i) by congruence; rewrite list_lookup_insert_ne by done).
  - split_and!; [done| |done]. apply (notify_frame_set unwoken); auto with notify.
  - split_and!; [done| |done]. destruct (is_ready w); [|done].
    apply (notify_frame_set unwoken); auto with notify.
  - split_and!; [done| |done]. apply (notify_frame_set unwoken); auto with notify.
  - apply send_action_context in Hsend.
    split_and!; [done| |done]. destruct (is_ok r); [by rewrite Hsend|].
    apply (notify_frame_set unwoken); [auto with notify|by rewrite Hsend].
  - destruct (decide (j = i)) as [->|Hne].
    + rewrite Hi in Hj. injection Hj as <-. destruct Hu as [Hw Hpm].
      by rewrite poll_unwoken in Hp.
    + rewrite list_lookup_insert_ne by done.
      split_and!; [done| |done]. apply (notify_frame_set_at unwoken); eauto with notify.
  - rewrite drop_app_length, Forall_singleton in Hq.
    split_and!; [done|by rewrite context_set_inner|].
    intros Hin. apply event_ops_fire_ready in Hin. congruence.
  - apply exec_op_context in Hop as [Hn _]. rewrite Hn, op_notify_ready by set_solver.
    split_and!; [done|done|]. destruct go; set_solver.
Qed.

(** Stuck for good: no run that takes no [Ready] or [InitFailed] event
    lets the caller return. *)
Lemma ready_stuck_forever i (a a' : LState S) :
  ready_stuck i a -> rtc (quiet_step R_ty E_ty event_ops) a a' -> ready_stuck i a'.
Proof. apply rtc_preserved. intros. by eapply ready_stuck_step. Qed.

End Stuck.

(** ** [ready()] with the spec's order of the [Ready] arm *)

(** What a [ready()] caller [k] awaiting the notification can count on:
    woken already, or subscribed while the flag is down or while the
    loop's next operation fires [ready]. *)
Definition ready_entry (k : nat) (c : ReceiverContext) (lp : list LoopOp) : Prop :=
  k ∈ Notify.woken (notify_of NReady c) \/
  (k ∈ Notify.waiting (notify_of NReady c) /\
   (ready_flag c = false \/ lp = [OpNotifyWaiters NReady])).

Definition ready_ok {S} (a : LState S) : Prop :=
  (lloop a = [] \/ exists ev k, lloop a = drop k (event_ops_spec ev)) /\
  forall k, ltasks a !! k = Some (LAwait NReady) -> ready_entry k (context (lw a)) (lloop a).

(** A change of the context that keeps [k]'s subscription to [ready] and
    the flag. *)
Definition keeps_ready (k : nat) (c c' : ReceiverContext) : Prop :=
  (k ∈ Notify.woken (notify_of NReady c) -> k ∈ Notify.woken (notify_of NReady c')) /\
  (k ∈ Notify.waiting (notify_of NReady c) -> k ∈ Notify.waiting (notify_of NReady c')) /\
  ready_flag c' = ready_flag c.

Definition keeps_sub (k : nat) (f : Notify.t -> Notify.t) : Prop :=
  forall x, (k ∈ Notify.woken x -> k ∈ Notify.woken (f x)) /\
            (k ∈ Notify.waiting x -> k ∈ Notify.waiting (f x)).

Lemma ready_entry_keep k c c' lp : keeps_ready k c c' -> ready_entry k c lp -> ready_entry k c' lp.
Proof. unfold keeps_ready, ready_entry. intros (Hw & Hs & ->). naive_solver. Qed.

Lemma keeps_ready_refl k c : keeps_ready k c c.
Proof. unfold keeps_ready. tauto. Qed.

Lemma keeps_ready_set {S} k m f (w : ReceiverWrapper S) :
  keeps_sub k f -> keeps_ready k (context w) (context (set_notify m f w)).
Proof.
  intros Hf. unfold keeps_ready. rewrite !notify_of_set_notify. unfold set_notify; simpl.
  rewrite ready_flag_map_notify. case_decide; [|tauto].
  destruct (Hf (notify_of NReady (context w))). tauto.
Qed.

Lemma keeps_ready_set_at {S} k m x (w : ReceiverWrapper S) :
  (k ∈ Notify.woken (notify_of m (context w)) -> k ∈ Notify.woken x) ->
  (k ∈ Notify.waiting (notify_of m (context w)) -> k ∈ Notify.waiting x) ->
  keeps_ready k (context w) (context (set_notify m (fun _ => x) w)).
Proof.
  intros H1 H2. unfold keeps_ready. rewrite !notify_of_set_notify. unfold set_notify; simpl.
  rewrite ready_flag_map_notify. case_decide; subst; tauto.
Qed.

Lemma keeps_sub_notified k j : keeps_sub k (Notify.notified j).
Proof. intros x. split; [done|apply waiting_notified]. Qed.

Lemma keeps_sub_drop k j : k <> j -> keeps_sub k (Notify.drop_notified j).
Proof. intros Hne x. split; [by apply woken_drop|by apply waiting_drop]. Qed.

#[export] Hint Resolve keeps_ready_refl keeps_ready_set keeps_sub_notified keeps_sub_drop : notify.

Lemma spec_store_ready ev k rest :
  drop k (event_ops_spec ev) = OpStoreReady true :: rest -> rest = [OpNotifyWaiters NReady].
Proof. destruct ev, k as [|[|[|k]]]; simpl; rewrite ?drop_nil; intros; simplify_eq; done. Qed.

Section SpecOrder.
Context {S : Type} `{Strategy S} (R_ty E_ty : RTy).

(** A caller's step keeps every other caller's subscription and the loop. *)
Lemma ready_ok_tasks (a : LState S) lp ex ts' h (w' : ReceiverWrapper S) j t :
  ready_ok a -> lloop a = lp ->
  ts' = <[j := t]> (ltasks a) -> t <> LAwait NReady ->
  (forall k, k <> j -> keeps_ready k (context (lw a)) (context w')) ->
  ready_ok (mkL w' lp ex ts' h).
Proof.
  intros [Hl Hk] <- -> Ht Hc. split; [done|]. cbn [ltasks lw lloop].
  intros k Hi. apply list_lookup_insert_Some in Hi as [(_ & Heq & _)|(Hne & Hi)]; [congruence|].
  eapply ready_entry_keep; [apply Hc; congruence|by apply Hk].
Qed.

Lemma ready_entry_other k c c' op rest lp' :
  notify_of NReady c' = notify_of NReady c -> ready_flag c' = ready_flag c ->
  op <> OpNotifyWaiters NReady -> ready_entry k c (op :: rest) -> ready_entry k c' lp'.
Proof.
  unfold ready_entry. intros -> -> Hne [Hw|[Hw [Hf|Hf]]]; [by left|by right; split; [|left]|].
  injection Hf as -> _. done.
Qed.

Ltac ready_task :=
  match goal with
  | Hok : ready_ok _ |- _ =>
      eapply ready_ok_tasks;
        [exact Hok|done|done|done|intros ? ?; cbn [lw]; apply keeps_ready_set;
         first [apply keeps_sub_notified|apply keeps_sub_drop; done]]
  end.

Lemma ready_ok_step (a a' : LState S) :
  lstep R_ty E_ty event_ops_spec a a' -> reg_inv a -> ready_ok a -> ready_ok a'.
Proof.
  intros Hs Hreg Hok.
  destruct Hs as [w lp ex ts h j Hj|w lp ex ts h j Hj|w lp ex ts h j x Hj|w lp ex ts h j x r w' Hj Hsend
                 |w lp ex ts h j n n' Hj Hp|w ts h ev s' Hev|w op rest ex ts h w' go Hop].
  - ready_task.
  - destruct (is_ready w) eqn:Hr.
    + ready_task.
    + destruct Hok as [Hl Hk]. split; [done|]. cbn [ltasks lw lloop] in *.
      intros k Hi. apply list_lookup_insert_Some in Hi as [(<- & _ & _)|(Hne & Hi)]; [|by apply Hk].
      destruct (Hreg _ _ Hj) as [Hw|Hw]; [right; split; [done|by left]|by left].
  - ready_task.
  - pose proof (send_action_context _ _ _ _ Hsend) as Hc.
    destruct (is_ok r).
    + destruct Hok as [Hl Hk]. split; [done|]. cbn [ltasks lw lloop] in *. rewrite Hc.
      intros k Hi. apply list_lookup_insert_Some in Hi as [(<- & Heq & _)|(Hne & Hi)]; [|by apply Hk].
      destruct x; discriminate Heq.
    + eapply ready_ok_tasks; [exact Hok|done|done|done|].
      intros k Hne. cbn [lw]. rewrite <-Hc. apply keeps_ready_set, keeps_sub_drop. done.
  - eapply ready_ok_tasks; [exact Hok|done|done|done|].
    intros k Hne. cbn [lw]. apply keeps_ready_set_at; apply waiting_poll with (j := j) (n := notify_of n (context w)); congruence.
  - destruct Hok as [Hl Hk]. split; [right; by exists ev, 0|]. cbn [ltasks lw lloop] in *.
    intros k Hi. rewrite context_set_inner.
    destruct (Hk k Hi) as [Hw|[Hw [Hf|Hf]]]; [by left|by right; split; [|left]|done].
  - destruct Hok as [[Hl|(ev & m & Hl)] Hk]; [done|]. cbn [ltasks lw lloop] in *.
    pose proof Hop as Hgo. apply exec_op_context in Hop as [Hn Hfl]. split.
    { destruct go; [right; exists ev, (m + 1)%nat; by rewrite <-drop_drop, <-Hl|by left]. }
    intros k Hi. specialize (Hk k Hi). cbn [lw lloop]. pose proof (Hn NReady) as Hr.
    destruct op as [[]|[]| | | | |];
      try (refine (ready_entry_other _ _ _ _ _ _ _ _ _ Hk);
             [rewrite Hr; apply op_notify_ready; congruence|rewrite Hfl; reflexivity|congruence]);
      unfold ready_entry in *; rewrite Hr, ?Hfl; simpl.
    + destruct Hk as [|[? _]]; [by left|right; split; [done|right]].
      simpl in Hgo. injection Hgo as _ <-. symmetry in Hl. by eapply spec_store_ready.
    + destruct Hk as [|[? _]]; [by left|right; split; [done|by left]].
    + left. apply woken_notify_waiters.
      destruct Hk as [|[]]; [right|left]; done.
Qed.

Lemma ready_ok_reach (a0 a : LState S) :
  lifecycle_start a0 -> rtc (lstep R_ty E_ty event_ops_spec) a0 a -> reg_inv a /\ ready_ok a.
Proof.
  intros H0. apply (rtc_preserved _ (fun b => reg_inv b /\ ready_ok b)).
  - intros b b' Hs [Hr Ho]. split; [by eapply reg_inv_step|by eapply ready_ok_step].
  - split; [by apply reg_inv_start|]. destruct H0 as [Hl Hts]. split; [by left|].
    intros k Hk. apply (Forall_lookup_1 _ _ _ _ Hts) in Hk as [?|[? ?]]; done.
Qed.

End SpecOrder.

(** ** The lifecycle theorems *)

Section LifecycleTheorems.
Context {S : Type} `{Strategy S} (R_ty E_ty : RTy).

(** C12: [close], [sync] and [flush] subscribe to their notification
    ([notified()], lines 923, 934, 945) before they send their [Action]:
    no notification fired after the caller reached [send_action] is lost.
    In every interleaving with the event loop (whatever the order of the
    loop's arms), once caller [i] is at its [send_action], any later
    [notify_waiters] of the loop on its notification leaves the caller, in
    every state after it, returned or with a [Notified] future that
    completes when polled. *)
Theorem lifecycle_waiter_woken arm (a0 a1 b a : LState S) i x rest w' go :
  lifecycle_start a0 -> rtc (lstep R_ty E_ty arm) a0 a1 ->
  ltasks a1 !! i = Some (LActSend x) -> rtc (lstep R_ty E_ty arm) a1 b ->
  lloop b = OpNotifyWaiters (laction_notify x) :: rest ->
  exec_op R_ty E_ty (OpNotifyWaiters (laction_notify x)) (lw b) = Done (w', go) ->
  rtc (lstep R_ty E_ty arm) (mkL w' (if go then rest else []) (lexited b || negb go) (ltasks b) (lhist b)) a ->
  ltasks a !! i = Some LReturned \/ is_Some (Notify.poll i (notify_of (laction_notify x) (context (lw a)))).
Proof.
  intros H0 Hr1 Hi Hrb Hl Hop Hra.
  assert (Ha1 : act_armed registered i x a1).
  { right. split; [by left|]. exact (reg_inv_reach R_ty E_ty arm a0 a1 H0 Hr1 i _ Hi). }
  pose proof (act_armed_rtc R_ty E_ty arm registered registered_notified registered_drop
                registered_poll registered_op i x a1 b Hrb Ha1) as Hb.
  pose proof (act_armed_fire R_ty E_ty i x b w' go rest Hb Hl Hop) as Hb'.
  pose proof (act_armed_rtc R_ty E_ty arm woken_on (fun i j n (H : woken_on i n) => H) woken_drop
                woken_on_poll woken_on_op i x _ a Hra Hb') as Ha1'.
  destruct Ha1' as [Ha|[_ Ha]]; [by left|right; by apply poll_woken].
Qed.

(** C11: with the spec's order of the [Ready] arm ([ready_flag] stored,
    then [ready] fired) no [ready()] caller is left behind: in every state
    of every interleaving, a caller awaiting [ready] while the receiver is
    ready and the loop is between events has been woken, and its future
    completes. *)
Theorem ready_spec_order_no_lost_wakeup (a0 a : LState S) i :
  lifecycle_start a0 -> rtc (lstep R_ty E_ty event_ops_spec) a0 a ->
  ltasks a !! i = Some (LAwait NReady) -> is_ready (lw a) = true -> lloop a = [] ->
  is_Some (Notify.poll i (notify_of NReady (context (lw a)))).
Proof.
  intros H0 Hr Hi Hready Hl. apply ready_ok_reach in Hr as [_ [_ Hk]]; [|done].
  destruct (Hk i Hi) as [Hw|[_ [Hf|Hf]]].
  - by apply poll_woken.
  - unfold is_ready in Hready. congruence.
  - congruence.
Qed.

End LifecycleTheorems.

(** Running the callers and the loop on concrete inputs. *)
Ltac lrun c := eapply rtc_l; [eapply c; reflexivity|].
Ltac lrun_at c k := eapply rtc_l; [eapply c with (i := k); reflexivity|].

Lemma buffer_event_other s (ev : Event Val Val) :
  (forall mid r, ev <> Response mid r) -> strat_event s ev s.
Proof. apply buffer_other. Qed.

Lemma lifecycle_waiter_woken_witness :
  exists a1 b w' go,
    rtc (lstep resp_ty err_ty event_ops) (lifecycle_init [LAct LFlush]) a1 /\
    ltasks a1 !! 0 = Some (LActSend LFlush) /\
    rtc (lstep resp_ty err_ty event_ops) a1 b /\
    lloop b = [OpNotifyWaiters NFlushed] /\
    exec_op resp_ty err_ty (OpNotifyWaiters NFlushed) (lw b) = Done (w', go) /\
    (ltasks b !! 0 = Some LReturned \/ is_Some (Notify.poll 0 (notify_of NFlushed (context w')))).
Proof.
  unfold lifecycle_init. do 4 eexists. split_and!.
  - lrun_at l_act_subscribe 0. apply rtc_refl.
  - reflexivity.
  - lrun_at l_act_send 0.
    eapply rtc_l; [eapply l_poll with (ev := Flushed); apply buffer_event_other; by intros ? ?|].
    apply rtc_refl.
  - reflexivity.
  - reflexivity.
  - lazymatch goal with
    | |- ltasks ?b !! 0 = _ \/ is_Some (Notify.poll 0 (notify_of _ (context ?w))) =>
        eapply (lifecycle_waiter_woken resp_ty err_ty event_ops
                  (mkL (receiver_new 1 4 (mkBuffer [] 1 false [])) [] false [LAct LFlush] [])
                  _ b (mkL w [] false (ltasks b) (lhist b)) 0 LFlush [] w true)
    end;
      [split; [done|apply Forall_singleton; right; eauto]
      |lrun_at l_act_subscribe 0; apply rtc_refl
      |reflexivity
      |lrun_at l_act_send 0;
       eapply rtc_l; [eapply l_poll with (ev := Flushed); apply buffer_event_other; by intros ? ?|];
       apply rtc_refl
      |reflexivity|reflexivity|apply rtc_refl].
Defined.

(** C10: the [Ready] arm fires [ready] before it stores [ready_flag]
    (receiver.rs:211-212); the spec (4.3) stores then fires.  A [ready()]
    caller that subscribes between the two and tests the flag before the
    store awaits a notification that has already been fired: on a fresh
    receiver there is a run after which the receiver is ready, the loop is
    between events, and the caller waits, not woken; no later run that
    takes no other [Ready] or [InitFailed] lets it return. *)
Theorem ready_lost_wakeup :
  exists a, rtc (lstep resp_ty err_ty event_ops) (lifecycle_init [LReady]) a /\
    is_ready (lw a) = true /\ lloop a = [] /\ ltasks a = [LAwait NReady] /\
    Notify.poll 0 (notify_of NReady (context (lw a))) = None /\
    forall a', rtc (quiet_step resp_ty err_ty event_ops) a a' ->
               ltasks a' !! 0 = Some (LAwait NReady).
Proof.
  unfold lifecycle_init. eexists. split_and!.
  - eapply rtc_l; [eapply l_poll with (ev := Ready); apply buffer_event_other; by intros ? ?|].
    lrun l_exec. lrun_at l_ready_subscribe 0. lrun_at l_ready_check 0. lrun l_exec.
    apply rtc_refl.
  - reflexivity.
  - reflexivity.
  - reflexivity.
  - reflexivity.
  - intros a' Hr. eapply ready_stuck_forever in Hr; [apply Hr|].
    split_and!; [reflexivity|split; [set_solver|reflexivity]|set_solver].
Qed.

(** C13: after [InitFailed] the loop fires [ready] and leaves [ready_flag]
    down (receiver.rs:214-219, as the spec's table has it); a [ready()]
    caller that comes after the event waits for good: the spec (scenario
    6) expects [ready()] to resolve, with the receiver not ready. *)
Theorem ready_after_init_failed_waits :
  exists a, rtc (lstep resp_ty err_ty event_ops) (lifecycle_init [LReady]) a /\
    lhist a = [InitFailed (Other (VStr "init"))] /\ is_ready (lw a) = false /\
    ltasks a = [LAwait NReady] /\
    forall a', rtc (quiet_step resp_ty err_ty event_ops) a a' ->
               ltasks a' !! 0 = Some (LAwait NReady).
Proof.
  unfold lifecycle_init. eexists. split_and!.
  - eapply rtc_l; [eapply l_poll with (ev := InitFailed (Other (VStr "init")));
                   apply buffer_event_other; by intros ? ?|].
    lrun l_exec. lrun l_exec. lrun_at l_ready_subscribe 0. lrun_at l_ready_check 0.
    apply rtc_refl.
  - reflexivity.
  - reflexivity.
  - reflexivity.
  - intros a' Hr. eapply ready_stuck_forever in Hr; [apply Hr|].
    split_and!; [reflexivity|split; [set_solver|reflexivity]|set_solver].
Qed.

Lemma ready_spec_order_no_lost_wakeup_witness :
  exists a, rtc (lstep resp_ty err_ty event_ops_spec) (lifecycle_init [LReady]) a /\
    ltasks a !! 0 = Some (LAwait NReady) /\ is_ready (lw a) = true /\ lloop a = [] /\
    is_Some (Notify.poll 0 (notify_of NReady (context (lw a)))).
Proof.
  unfold lifecycle_init. eexists. split_and!.
  - lrun_at l_ready_subscribe 0. lrun_at l_ready_check 0.
    eapply rtc_l; [eapply l_poll with (ev := Ready); apply buffer_event_other; by intros ? ?|].
    lrun l_exec. lrun l_exec. apply rtc_refl.
  - reflexivity.
  - reflexivity.
  - reflexivity.
  - eapply (ready_spec_order_no_lost_wakeup resp_ty err_ty
              (mkL (receiver_new 1 4 (mkBuffer [] 1 false [])) [] false [LReady] []));
      [split; [done|apply Forall_singleton; by left]
      |lrun_at l_ready_subscribe 0; lrun_at l_ready_check 0;
       eapply rtc_l; [eapply l_poll with (ev := Ready); apply buffer_event_other; by intros ? ?|];
       lrun l_exec; lrun l_exec; apply rtc_refl
      |reflexivity|reflexivity|reflexivity].
Defined.
