(* ===== verification/Derive.v ===== *)
(** * The derive macros: [#[derive(Message)]] and [#[derive(Error)]]

    [src/crates/derive/src/lib.rs] reads a type's attributes
    ([#[message(clone, shared)]], [#[type_tag("..")]],
    [#[namespace("..")]]) and its generic parameters, and emits the
    [TypeTagged] implementation and the capability shims.  The type tag is
    emitted as a string literal for a type without type parameters, and
    otherwise as [format!(type_name, <T as TypeTagged>::type_tag_(), ..)]
    with a format string [name<{},{}>].

    The model follows the macro: [fold_attrs] is the loop over the
    attributes, [tag_params] the loop over the generic parameters,
    [type_tag_part] its result as a [TagImpl]; [format_str] is the
    [format!] of the emitted code, and [tag_value] the tag a type gets at
    an instantiation of its parameters.  The theorems: the tag of a
    derived type is its name followed by its type arguments' tags;
    [type_tag_part] panics on a const parameter; and, for names without
    [<], [,] and [>], the tags of type applications decode back
    ([parse_tree]), so distinct types get distinct tags. *)

From Stdlib Require Import Ascii.
From S2P Require Import Prelude Envelope.

Local Open Scope string_scope.
Local Open Scope mb_scope.

(** [syn::GenericParam]. *)
Inductive GenericParam : Type :=
| GLifetime (l : string)
| GType (ident : string)
| GConst (ident : string).

(** An attribute with the tokens the macro parses: the identifiers of
    [message(..)], the string literals of [type_tag(..)] and
    [namespace(..)]. *)
Inductive Attr : Type :=
| AttrMessage (idents : list string)
| AttrTypeTag (lits : list string)
| AttrNamespace (lits : list string)
| AttrOther (path : string).

(** [syn::DeriveInput]: the type's name, attributes and generics. *)
Record DeriveInput : Type := mkDeriveInput {
  ident : string;
  attrs : list Attr;
  generics : list GenericParam
}.

(** [struct Tags]. *)
Record Tags : Type := mkTags { has_clone : bool; has_shared : bool }.

Definition tags_default : Tags := mkTags false false.

(** [Tags::add]. *)
Definition tags_add (t other : Tags) : Tags :=
  mkTags (has_clone t || has_clone other) (has_shared t || has_shared other).

(** [impl Parse for Tags]: ["shared"] and ["clone"] set their flag, any
    other identifier is ignored. *)
Definition tags_step (t : Tags) (v : string) : Tags :=
  if String.eqb v "shared" then mkTags (has_clone t) true
  else if String.eqb v "clone" then mkTags true (has_shared t)
  else t.

Definition parse_tags (idents : list string) : Tags := fold_left tags_step idents tags_default.

(** [impl Parse for TypeTag]: the first literal, [inner.unwrap()]. *)
Definition parse_type_tag (lits : list string) : outcome string :=
  match lits with
  | l :: _ => Done l
  | [] => Panic "called `Option::unwrap()` on a `None` value"
  end.

(** What the attribute loop collects: [tags], [type_tag], [namespace]. *)
Record AttrState : Type := mkAttrState {
  st_tags : Tags;
  st_type_tag : option string;
  st_namespace : option string
}.

Definition attr_state_default : AttrState := mkAttrState tags_default None None.

(** One iteration of the attribute loop of [derive_message]; with
    [message = false] the loop of [derive_error], which has no [message]
    arm. *)
Definition attr_step (message : bool) (st : AttrState) (a : Attr) : outcome AttrState :=
  match a with
  | AttrMessage ids =>
      if message then Done (mkAttrState (tags_add (st_tags st) (parse_tags ids))
                                        (st_type_tag st) (st_namespace st))
      else Done st
  | AttrTypeTag lits =>
      tag <-! parse_type_tag lits ;; Done (mkAttrState (st_tags st) (Some tag) (st_namespace st))
  | AttrNamespace lits =>
      ns <-! parse_type_tag lits ;; Done (mkAttrState (st_tags st) (st_type_tag st) (Some ns))
  | AttrOther _ => Done st
  end.

Fixpoint fold_attrs (message : bool) (st : AttrState) (l : list Attr) : outcome AttrState :=
  match l with
  | [] => Done st
  | a :: l' => st' <-! attr_step message st a ;; fold_attrs message st' l'
  end.

(** The [name] of [type_tag_part]: the [type_tag] attribute, else
    [namespace::Name], else [Name]. *)
Definition tag_base_name (ident : string) (type_tag namespace : option string) : string :=
  match type_tag with
  | Some tag => tag
  | None => match namespace with Some ns => ns +:+ "::" +:+ ident | None => ident end
  end.

(** The loop over the generic parameters of [type_tag_part]: the format
    string so far, the type parameters whose tags fill it, [need_close]. *)
Record TagAcc : Type := mkTagAcc {
  type_name : string;
  type_values : list string;
  need_close : bool
}.

Fixpoint tag_params (ps : list GenericParam) (acc : TagAcc) : outcome TagAcc :=
  match ps with
  | [] => Done acc
  | GLifetime _ :: ps' => tag_params ps' acc
  | GType id :: ps' =>
      let sep := if need_close acc then "," else "<" in
      tag_params ps' (mkTagAcc (type_name acc +:+ sep +:+ "{}") (type_values acc ++ [id]) true)
  | GConst _ :: _ => Panic "not implemented"
  end.

(** The emitted [type_tag_()]: a literal, or [format!] of the format string
    with the tags of the listed type parameters. *)
Inductive TagImpl : Type :=
| TagLiteral (s : string)
| TagFormat (fmt : string) (args : list string).

Definition type_tag_part (d : DeriveInput) (type_tag namespace : option string) : outcome TagImpl :=
  acc <-! tag_params (generics d)
                     (mkTagAcc (tag_base_name (ident d) type_tag namespace) [] false) ;;
  let tn := if need_close acc then type_name acc +:+ ">" else type_name acc in
  Done (match type_values acc with [] => TagLiteral tn | _ => TagFormat tn (type_values acc) end).

(** What [derive_message] emits: the tag and the two capabilities. *)
Record MessageImpl : Type := mkMessageImpl {
  mi_tag : TagImpl;
  mi_shared : bool;
  mi_clone : bool
}.

Definition derive_message (d : DeriveInput) : outcome MessageImpl :=
  st <-! fold_attrs true attr_state_default (attrs d) ;;
  tp <-! type_tag_part d (st_type_tag st) (st_namespace st) ;;
  Done (mkMessageImpl tp (has_shared (st_tags st)) (has_clone (st_tags st))).

Definition derive_error (d : DeriveInput) : outcome TagImpl :=
  st <-! fold_attrs false attr_state_default (attrs d) ;;
  type_tag_part d (st_type_tag st) (st_namespace st).

(** [format!(fmt, args..)] for the format strings the macro builds:
    [{}] takes the next argument, [{{] and [}}] are escaped braces; any
    other brace, a missing argument or an argument left over is a
    compile-time error of the emitted code ([None]).  (Rust accepts
    other [{..}] forms, such as [{0}] or [{:?}]; the model rejects them.) *)
Fixpoint format_str (s : string) (args : list string) : option string :=
  match s with
  | EmptyString => match args with [] => Some EmptyString | _ => None end
  | String c r =>
      if Ascii.eqb c "{" then
        match r with
        | String c' r' =>
            if Ascii.eqb c' "{" then String "{" <$> format_str r' args
            else if Ascii.eqb c' "}" then
              match args with a :: args' => String.append a <$> format_str r' args' | [] => None end
            else None
        | EmptyString => None
        end
      else if Ascii.eqb c "}" then
        match r with
        | String c' r' => if Ascii.eqb c' "}" then String "}" <$> format_str r' args else None
        | EmptyString => None
        end
      else String c <$> format_str r args
  end%char.

(** The tag [T::type_tag_()] returns, [env] giving the tags of the type
    arguments of the instantiation; [None] when the emitted [format!] does
    not compile. *)
Definition tag_value (ti : TagImpl) (env : string -> string) : option string :=
  match ti with
  | TagLiteral s => Some s
  | TagFormat f args => format_str f (map env args)
  end.

(** ** The tags of type applications

    A type application [Name<A, B>] of types derived with no [type_tag]
    or [namespace] attribute; its tag is [Name] followed by its
    arguments' tags in angle brackets. *)
Inductive TyTree : Type := TNode (name : string) (args : list TyTree).

(** [<A,B>] for the tags [A], [B]: [args_suffix]; [tail_of] is what
    follows the first argument. *)
Definition tail_of (tags : list string) : string :=
  fold_right (fun b s => "," +:+ b +:+ s) ">" tags.

Definition args_suffix (tags : list string) : string :=
  match tags with [] => "" | a :: l => "<" +:+ a +:+ tail_of l end.

Fixpoint tag_of (t : TyTree) : string :=
  match t with TNode n args => n +:+ args_suffix (map tag_of args) end.

(** The characters a tag uses as delimiters, and the names free of them. *)
Definition is_delim (c : Ascii.ascii) : bool :=
  (Ascii.eqb c "<" || Ascii.eqb c "," || Ascii.eqb c ">")%char.

Definition is_brace (c : Ascii.ascii) : bool := (Ascii.eqb c "{" || Ascii.eqb c "}")%char.

Fixpoint brace_free (s : string) : bool :=
  match s with EmptyString => true | String c r => negb (is_brace c) && brace_free r end.

Fixpoint delim_free (s : string) : bool :=
  match s with EmptyString => true | String c r => negb (is_delim c) && delim_free r end.

Fixpoint names_ok (t : TyTree) : bool :=
  match t with
  | TNode n args => delim_free n && forallb names_ok args
  end.

(** A decoder for tags: the name up to the first delimiter, then the
    arguments between [<] and [>], separated by [,]. *)
Fixpoint parse_name (s : string) : string * string :=
  match s with
  | EmptyString => ("", "")
  | String c r =>
      if is_delim c then ("", s) else let '(n, r') := parse_name r in (String c n, r')
  end.

Fixpoint parse_tree (fuel : nat) (s : string) : option (TyTree * string) :=
  match fuel with
  | O => None
  | S f =>
      let '(n, r) := parse_name s in
      match r with
      | String "<" r' => '(args, r'') ← parse_args f r'; Some (TNode n args, r'')
      | _ => Some (TNode n [], r)
      end
  end%char
with parse_args (fuel : nat) (s : string) : option (list TyTree * string) :=
  match fuel with
  | O => None
  | S f =>
      '(t, r) ← parse_tree f s;
      match r with
      | String "," r' => '(ts, r'') ← parse_args f r'; Some (t :: ts, r'')
      | String ">" r' => Some ([t], r')
      | _ => None
      end
  end%char.

Definition parse_tag (s : string) : option TyTree :=
  match parse_tree (String.length s + 1) s with
  | Some (t, EmptyString) => Some t
  | _ => None
  end.

(** The identifiers of the type parameters, in order, and the holes
    [tag_params] writes for them. *)
Fixpoint tparams (ps : list GenericParam) : list string :=
  match ps with
  | [] => []
  | GType id :: ps' => id :: tparams ps'
  | _ :: ps' => tparams ps'
  end.

Definition no_const (ps : list GenericParam) : bool :=
  forallb (fun p => match p with GConst _ => false | _ => true end) ps.

Fixpoint holes (nc : bool) (ids : list string) : string :=
  match ids with
  | [] => ""
  | _ :: ids' => (if nc then "," else "<") +:+ "{}" +:+ holes true ids'
  end.

(** Attributes that leave the name alone: no [type_tag], no [namespace]. *)
Definition plain_attr (a : Attr) : bool :=
  match a with AttrTypeTag _ | AttrNamespace _ => false | _ => true end.

(** ** [format!] *)

Lemma format_brace_free s r args :
  brace_free s = true -> format_str (s +:+ r) args = String.append s <$> format_str r args.
Proof.
  induction s as [|c s IH]; intros Hb.
  - rewrite append_Empty. by destruct (format_str r args).
  - cbn [brace_free] in Hb. apply andb_prop in Hb as [Hc Hb]. unfold is_brace in Hc.
    rewrite append_String. cbn [format_str].
    destruct (Ascii.eqb c "{") eqn:H1, (Ascii.eqb c "}") eqn:H2; try (simpl in Hc; discriminate).
    rewrite IH by done. by destruct (format_str r args).
Qed.

(** The holes after the first, with the closing [>], take the remaining
    tags one each. *)
Lemma format_holes_tail ids tags :
  length ids = length tags -> format_str (holes true ids +:+ ">") tags = Some (tail_of tags).
Proof.
  revert tags. induction ids as [|i ids IH]; intros [|a tags] Hl; simpl in *; try done.
  injection Hl as Hl. repeat rewrite <-append_assoc. simpl. rewrite IH by done. reflexivity.
Qed.

Lemma format_holes ids tags :
  ids <> [] -> length ids = length tags ->
  format_str (holes false ids +:+ ">") tags = Some (args_suffix tags).
Proof.
  destruct ids as [|i ids], tags as [|a tags]; simpl; intros; try done.
  repeat rewrite <-append_assoc. simpl. rewrite append_Empty, format_holes_tail by lia.
  reflexivity.
Qed.

(** ** What the macro emits *)

Lemma tag_params_spec ps acc :
  no_const ps = true ->
  tag_params ps acc =
    Done (mkTagAcc (type_name acc +:+ holes (need_close acc) (tparams ps))
                   (type_values acc ++ tparams ps)
                   (need_close acc || bool_decide (tparams ps <> []))).
Proof.
  revert acc. induction ps as [|[l|id|id] ps IH]; intros [tn vs nc] Hnc; simpl in *.
  - rewrite append_Empty_r, app_nil_r, ?bool_decide_false by done. by rewrite orb_false_r.
  - by apply IH.
  - rewrite IH by done. simpl. rewrite <-app_assoc, ?bool_decide_true by done.
    rewrite ?orb_true_r, !append_assoc. reflexivity.
  - discriminate.
Qed.

Lemma type_tag_part_spec d type_tag namespace :
  no_const (generics d) = true ->
  type_tag_part d type_tag namespace =
    Done (match tparams (generics d) with
          | [] => TagLiteral (tag_base_name (ident d) type_tag namespace)
          | ids => TagFormat (tag_base_name (ident d) type_tag namespace +:+ holes false ids +:+ ">") ids
          end).
Proof.
  intros Hnc. unfold type_tag_part. rewrite tag_params_spec by done. simpl.
  destruct (tparams (generics d)) as [|i ids]; simpl.
  - by rewrite append_Empty_r.
  - do 2 f_equal. symmetry. apply append_assoc.
Qed.

(** The tag a derived type has at an instantiation: its name, then its
    type arguments' tags. *)
Lemma type_tag_part_value d type_tag namespace ti env :
  no_const (generics d) = true -> brace_free (tag_base_name (ident d) type_tag namespace) = true ->
  type_tag_part d type_tag namespace = Done ti ->
  tag_value ti env =
    Some (tag_base_name (ident d) type_tag namespace +:+ args_suffix (map env (tparams (generics d)))).
Proof.
  intros Hnc Hb. rewrite type_tag_part_spec by done. intros [= <-].
  destruct (tparams (generics d)) as [|i ids] eqn:Hids; cbn -[holes format_str].
  - by rewrite append_Empty_r.
  - rewrite format_brace_free, (format_holes (i :: ids)) by first [done|simpl; by rewrite length_map].
    reflexivity.
Qed.

Lemma fold_attrs_plain message st l :
  forallb plain_attr l = true ->
  exists tg, fold_attrs message st l = Done (mkAttrState tg (st_type_tag st) (st_namespace st)).
Proof.
  revert st. induction l as [|a l IH]; intros [tg tt ns] Hl; simpl in *; [eauto|].
  apply andb_prop in Hl as [Ha Hl].
  destruct a; simpl in Ha; try discriminate; [destruct message|]; simpl; apply IH; done.
Qed.

(** ** Decoding tags *)

Definition starts_delim (s : string) : bool :=
  match s with EmptyString => true | String c _ => is_delim c end.

(** What may follow a tag inside a bigger one: nothing, [,] or [>]. *)
Definition closes (s : string) : Prop :=
  s = EmptyString \/ exists r, s = String "," r \/ s = String ">" r.

Lemma closes_starts_delim s : closes s -> starts_delim s = true.
Proof. by intros [->|[r [->| ->]]]. Qed.

Lemma parse_name_app n rest :
  delim_free n = true -> starts_delim rest = true -> parse_name (n +:+ rest) = (n, rest).
Proof.
  induction n as [|c n IH]; intros Hn Hr.
  - rewrite append_Empty. destruct rest as [|c r]; simpl in *; [done|]. by rewrite Hr.
  - cbn [delim_free] in Hn. apply andb_prop in Hn as [Hc Hn]. apply negb_true_iff in Hc.
    rewrite append_String. simpl. rewrite Hc, IH by done. done.
Qed.

Lemma closes_tail l rest : closes (tail_of l +:+ rest).
Proof. right. destruct l; simpl; eauto. Qed.

Lemma length_tail_pos l : (1 <= String.length (tail_of l))%nat.
Proof. destruct l; simpl; lia. Qed.

Lemma parse_roundtrip_fuel f :
  (forall t rest, names_ok t = true -> closes rest -> (String.length (tag_of t) < f)%nat ->
     parse_tree f (tag_of t +:+ rest) = Some (t, rest)) /\
  (forall a l rest, names_ok a = true -> forallb names_ok l = true -> closes rest ->
     (String.length (tag_of a +:+ tail_of (map tag_of l)) < f)%nat ->
     parse_args f (tag_of a +:+ tail_of (map tag_of l) +:+ rest) = Some (a :: l, rest)).
Proof.
  induction f as [|f [IHt IHa]]; [split; intros; lia|]. split.
  - intros [n args] rest Hok Hc Hlen. cbn [names_ok] in Hok. apply andb_prop in Hok as [Hn Hargs].
    cbn [tag_of] in *. destruct args as [|a l]; cbn [map args_suffix] in *.
    + rewrite append_Empty_r. cbn [parse_tree].
      rewrite parse_name_app by auto using closes_starts_delim.
      by destruct Hc as [->|[r [->| ->]]].
    + cbn [forallb] in Hargs. apply andb_prop in Hargs as [Ha Hl].
      rewrite !length_append in Hlen. simpl in Hlen.
      rewrite <-append_assoc, !append_String, append_Empty. cbn [parse_tree].
      rewrite parse_name_app by done.
      rewrite <-append_assoc, IHa by (rewrite ?length_append; done || lia). done.
  - intros a l rest Ha Hl Hc Hlen. cbn [parse_args].
    pose proof (length_tail_pos (map tag_of l)). rewrite length_append in Hlen.
    rewrite IHt by (auto using closes_tail || lia). simpl.
    destruct l as [|b l]; cbn [map tail_of fold_right] in *; [done|].
    cbn [forallb] in Hl. apply andb_prop in Hl as [Hb Hl].
    repeat rewrite <-append_assoc. rewrite append_String, append_Empty.
    rewrite IHa by (unfold tail_of in *; rewrite ?length_append in *; simpl in *; (done || lia)).
    done.
Qed.

Lemma parse_tag_tag_of_aux t : names_ok t = true -> parse_tag (tag_of t) = Some t.
Proof.
  intros Hok. unfold parse_tag.
  rewrite <-(append_Empty_r (tag_of t)) at 2.
  rewrite (proj1 (parse_roundtrip_fuel _)); [done|done|by left|lia].
Qed.

Lemma parse_name_spec s n r :
  parse_name s = (n, r) -> s = n +:+ r /\ delim_free n = true /\ starts_delim r = true.
Proof.
  revert n r. induction s as [|c s IH]; intros n r; simpl.
  - by intros [= <- <-].
  - destruct (is_delim c) eqn:Hc; [by intros [= <- <-]; rewrite ?Hc|].
    destruct (parse_name s) as [n' r'] eqn:Hs. intros [= <- <-].
    destruct (IH _ _ eq_refl) as (-> & Hn & Hr). rewrite append_String. simpl.
    by rewrite Hc, Hn, Hr.
Qed.

(** Every string the decoder accepts is the tag of the tree it returns. *)
Lemma parse_sound_fuel f :
  (forall s t r, parse_tree f s = Some (t, r) -> names_ok t = true /\ s = tag_of t +:+ r) /\
  (forall s ts r, parse_args f s = Some (ts, r) ->
     exists a l, ts = a :: l /\ names_ok a = true /\ forallb names_ok l = true /\
                 s = tag_of a +:+ tail_of (map tag_of l) +:+ r).
Proof.
  induction f as [|f [IHt IHa]]; [split; done|]. split.
  - intros s t r. cbn [parse_tree]. destruct (parse_name s) as [n r0] eqn:Hn.
    apply parse_name_spec in Hn as (-> & Hn & _).
    destruct r0 as [|c r0]; [intros [= <- <-]; simpl; by rewrite Hn, !append_Empty_r|].
    destruct (Ascii.eqb c "<") eqn:Hc.
    + apply Ascii.eqb_eq in Hc as ->.
      destruct (parse_args f r0) as [[args r1]|] eqn:Ha; simpl; [|done]. intros [= <- <-].
      destruct (IHa _ _ _ Ha) as (a & l & -> & Hao & Hlo & ->). simpl. rewrite Hn, Hao, Hlo.
      split; [done|]. repeat rewrite <-append_assoc. by rewrite !append_String, append_Empty.
    + intros Hp. assert (t = TNode n [] /\ r = String c r0) as [-> ->].
      { revert Hp. apply Ascii.eqb_neq in Hc.
        destruct c as [b0 b1 b2 b3 b4 b5 b6 b7]; destruct b0, b1, b2, b3, b4, b5, b6, b7; try (intros [= <- <-]; done); by destruct Hc. }
      simpl. by rewrite Hn, append_Empty_r.
  - intros s ts r. cbn [parse_args]. destruct (parse_tree f s) as [[t r0]|] eqn:Ht; simpl; [|done].
    destruct (IHt _ _ _ Ht) as [Hto ->].
    destruct r0 as [|c r0]; [done|].
    destruct (Ascii.eqb c ",") eqn:Hc1; [apply Ascii.eqb_eq in Hc1 as ->|].
    { destruct (parse_args f r0) as [[ts' r1]|] eqn:Ha; simpl; [|done]. intros [= <- <-].
      destruct (IHa _ _ _ Ha) as (b & l & -> & Hbo & Hlo & ->).
      exists t, (b :: l). simpl. rewrite Hbo, Hlo. split_and!; try done.
      unfold tail_of. simpl. repeat rewrite <-append_assoc. by rewrite append_String, append_Empty. }
    destruct (Ascii.eqb c ">") eqn:Hc2; [apply Ascii.eqb_eq in Hc2 as ->|].
    { intros [= <- <-]. exists t, []. split_and!; try done. }
    apply Ascii.eqb_neq in Hc1, Hc2.
    destruct c as [b0 b1 b2 b3 b4 b5 b6 b7]; destruct b0, b1, b2, b3, b4, b5, b6, b7; try done; congruence.
Qed.

(** ** What the macro emits, on every input *)

Lemma tag_params_done ps acc acc' : tag_params ps acc = Done acc' -> no_const ps = true.
Proof.
  revert acc. induction ps as [|[l|id|id] ps IH]; intros acc; simpl; eauto; discriminate.
Qed.

Lemma derive_message_no_const d mi : derive_message d = Done mi -> no_const (generics d) = true.
Proof.
  unfold derive_message, type_tag_part.
  destruct (fold_attrs _ _ _) as [st|]; simpl; [|discriminate].
  destruct (tag_params _ _) as [acc|] eqn:Ht; simpl; [|discriminate].
  intros _. by eapply tag_params_done.
Qed.

Lemma derive_message_tag_value d mi env ts :
  derive_message d = Done mi ->
  forallb plain_attr (attrs d) = true -> brace_free (ident d) = true ->
  map env (tparams (generics d)) = map tag_of ts ->
  tag_value (mi_tag mi) env = Some (tag_of (TNode (ident d) ts)).
Proof.
  intros Hd Hp Hb Henv. pose proof (derive_message_no_const _ _ Hd) as Hnc.
  destruct (fold_attrs_plain true attr_state_default _ Hp) as [tg Hf].
  unfold derive_message in Hd. rewrite Hf in Hd. simpl in Hd.
  destruct (type_tag_part d None None) as [ti|] eqn:Ht; simpl in Hd; [|discriminate].
  injection Hd as <-. simpl. rewrite (type_tag_part_value d None None ti env) by done.
  by rewrite Henv.
Qed.

Lemma tags_step_flags ids t :
  (has_clone (fold_left tags_step ids t) = true <-> has_clone t = true \/ "clone" ∈ ids) /\
  (has_shared (fold_left tags_step ids t) = true <-> has_shared t = true \/ "shared" ∈ ids).
Proof.
  revert t. induction ids as [|v ids IH]; intros t; simpl.
  - rewrite !elem_of_nil. tauto.
  - rewrite !elem_of_cons. destruct (IH (tags_step t v)) as [Hc Hs]. rewrite Hc, Hs.
    unfold tags_step. assert ("clone" <> "shared") by done.
    destruct (String.eqb_spec v "shared"), (String.eqb_spec v "clone"); subst; simpl; naive_solver.
Qed.

Lemma fold_attrs_flags l st st' :
  fold_attrs true st l = Done st' ->
  (has_clone (st_tags st') = true <->
     has_clone (st_tags st) = true \/ exists ids, AttrMessage ids ∈ l /\ "clone" ∈ ids) /\
  (has_shared (st_tags st') = true <->
     has_shared (st_tags st) = true \/ exists ids, AttrMessage ids ∈ l /\ "shared" ∈ ids).
Proof.
  revert st. induction l as [|a l IH]; intros st; simpl.
  - intros [= <-]. setoid_rewrite elem_of_nil. naive_solver.
  - destruct (attr_step true st a) as [st1|] eqn:Ha; simpl; [|discriminate]. intros Hf.
    destruct (IH _ Hf) as [Hc Hs]. rewrite Hc, Hs. setoid_rewrite elem_of_cons.
    destruct a as [ids|lits|lits|p]; simpl in Ha.
    + injection Ha as <-. simpl. unfold parse_tags.
      destruct (tags_step_flags ids tags_default) as [Hc' Hs']. simpl in *.
      rewrite !orb_true_iff, Hc', Hs'. naive_solver.
    + destruct lits; simpl in Ha; simplify_eq; simpl; naive_solver.
    + destruct lits; simpl in Ha; simplify_eq; simpl; naive_solver.
    + simplify_eq. naive_solver.
Qed.

Lemma tag_of_inj t1 t2 :
  names_ok t1 = true -> names_ok t2 = true -> tag_of t1 = tag_of t2 -> t1 = t2.
Proof. intros H1 H2 He. apply parse_tag_tag_of_aux in H1, H2. congruence. Qed.

(** ** The theorems *)

(** C15: refinement of the emitted [type_tag_()]: for a type with no
    [type_tag] or [namespace] attribute, no const parameter and no brace
    in its name, the macro succeeds and, at any instantiation of its type
    parameters, the tag is the abstract tag [tag_of] of the type
    application: the name, then the arguments' tags in [<..>] separated
    by [,] (lifetimes skipped). *)
Theorem derive_message_tag d env ts :
  forallb plain_attr (attrs d) = true -> no_const (generics d) = true ->
  brace_free (ident d) = true -> map env (tparams (generics d)) = map tag_of ts ->
  exists mi, derive_message d = Done mi /\
             tag_value (mi_tag mi) env = Some (tag_of (TNode (ident d) ts)).
Proof.
  intros Hp Hnc Hb Henv. destruct (fold_attrs_plain true attr_state_default _ Hp) as [tg Hf].
  assert (exists mi, derive_message d = Done mi) as [mi Hd].
  { unfold derive_message. rewrite Hf. simpl. rewrite type_tag_part_spec by done. by eexists. }
  exists mi. split; [done|]. by eapply derive_message_tag_value.
Qed.

(** Tags decode: [parse_tag] accepts exactly the tags of type
    applications whose names have no [<], [,] or [>], and gives the
    application back. *)
Theorem parse_tag_correct s t : parse_tag s = Some t <-> names_ok t = true /\ tag_of t = s.
Proof.
  split.
  - unfold parse_tag. destruct (parse_tree _ s) as [[t' [|c r]]|] eqn:Hp; intros; simplify_eq.
    apply (proj1 (parse_sound_fuel _)) in Hp as [Hok ->]. by rewrite append_Empty_r.
  - intros [Hok <-]. by apply parse_tag_tag_of_aux.
Qed.

(** C16: distinct types get distinct tags: two derived types without
    [type_tag]/[namespace] attributes, whose names and arguments' names
    are free of braces and delimiters, have equal tags only when they are
    the same type application. *)
Theorem derived_tags_injective d1 d2 env1 env2 ts1 ts2 mi1 mi2 :
  derive_message d1 = Done mi1 -> derive_message d2 = Done mi2 ->
  forallb plain_attr (attrs d1) = true -> forallb plain_attr (attrs d2) = true ->
  brace_free (ident d1) = true -> brace_free (ident d2) = true ->
  names_ok (TNode (ident d1) ts1) = true -> names_ok (TNode (ident d2) ts2) = true ->
  map env1 (tparams (generics d1)) = map tag_of ts1 ->
  map env2 (tparams (generics d2)) = map tag_of ts2 ->
  tag_value (mi_tag mi1) env1 = tag_value (mi_tag mi2) env2 ->
  ident d1 = ident d2 /\ ts1 = ts2.
Proof.
  intros Hd1 Hd2 Hp1 Hp2 Hb1 Hb2 Hn1 Hn2 He1 He2 Heq.
  rewrite (derive_message_tag_value d1 mi1 env1 ts1), (derive_message_tag_value d2 mi2 env2 ts2)
    in Heq by done.
  injection Heq as Heq.
  apply (tag_of_inj (TNode (ident d1) ts1) (TNode (ident d2) ts2)) in Heq; [|done|done].
  by injection Heq.
Qed.

(** C17: a const generic parameter makes the macro panic
    ([unimplemented!()] in [type_tag_part]). *)
Theorem derive_const_generic_panics d id :
  GConst id ∈ generics d -> exists m, derive_message d = Panic m.
Proof.
  intros Hin. destruct (derive_message d) as [mi|m] eqn:Hd; [|eauto].
  apply derive_message_no_const in Hd. unfold no_const in Hd.
  rewrite forallb_forall in Hd. apply list_elem_of_In in Hin. by specialize (Hd _ Hin).
Qed.

(** The capabilities: a derived message is [clone] ([shared]) exactly
    when one of its [#[message(..)]] attributes lists [clone]
    ([shared]); other identifiers are ignored. *)
Theorem derive_message_capabilities d mi :
  derive_message d = Done mi ->
  (mi_clone mi = true <-> exists ids, AttrMessage ids ∈ attrs d /\ "clone" ∈ ids) /\
  (mi_shared mi = true <-> exists ids, AttrMessage ids ∈ attrs d /\ "shared" ∈ ids).
Proof.
  unfold derive_message. destruct (fold_attrs _ _ _) as [st|] eqn:Hf; simpl; [|discriminate].
  destruct (type_tag_part _ _ _); simpl; [|discriminate]. intros [= <-]. simpl.
  apply fold_attrs_flags in Hf as [Hc Hs]. rewrite Hc, Hs. simpl. naive_solver.
Qed.

(** ** Runs on concrete inputs *)

(** [#[derive(Message)] #[message(clone)] struct Msg<'a, F>]. *)
Definition msg_input : DeriveInput :=
  mkDeriveInput "Msg" [AttrMessage ["clone"]] [GLifetime "a"; GType "F"].

Definition msg_impl : MessageImpl := mkMessageImpl (TagFormat "Msg<{}>" ["F"]) false true.

Lemma derive_message_tag_witness :
  exists mi, derive_message msg_input = Done mi /\
             tag_value (mi_tag mi) (fun _ => "u8") = Some (tag_of (TNode "Msg" [TNode "u8" []])).
Proof. apply (derive_message_tag msg_input (fun _ => "u8") [TNode "u8" []]); reflexivity. Defined.

Lemma derived_tags_injective_witness :
  ident msg_input = ident msg_input /\ [TNode "u8" []] = [TNode "u8" []].
Proof.
  apply (derived_tags_injective msg_input msg_input (fun _ => "u8") (fun _ => "u8")
           [TNode "u8" []] [TNode "u8" []] msg_impl msg_impl); reflexivity.
Defined.

Lemma derive_const_generic_panics_witness :
  exists m, derive_message (mkDeriveInput "Arr" [] [GType "T"; GConst "N"]) = Panic m.
Proof. apply (derive_const_generic_panics _ "N"). simpl. set_solver. Defined.

Lemma derive_message_capabilities_witness :
  (mi_clone msg_impl = true <-> exists ids, AttrMessage ids ∈ attrs msg_input /\ "clone" ∈ ids) /\
  (mi_shared msg_impl = true <-> exists ids, AttrMessage ids ∈ attrs msg_input /\ "shared" ∈ ids).
Proof. apply derive_message_capabilities. reflexivity. Defined.
