(* ===== verification/Relay.v ===== *)
(** * The test relay of [src/tests/test_relay.rs]

    [TestRelay] is a relay adapter: it advertises the (message, response,
    error) triples it handles through [iter_types], answers [accept], turns
    each [Action] into the matching event and each message into a
    [Response] carrying its correlation id, and hands the events to the
    bus through [poll_events], in order, from an unbounded channel.

    Its tags are those the derive macro gives [Msg<F>] (the struct of the
    test, with no attribute) and [Error] (through [derive_error]); the tags
    of the primitive types come from the [messagebus] crate, which is not
    under [src/], and are taken to be the types' names ([prim_tag]).  The
    theorems check the relay against the relay adapter contract of the
    spec (6): advertised triples are accepted, actions are answered with
    the events of their semantics, every message is answered with a
    [Response] for its id; and [accept] is not the "true iff handled" the
    spec's table (4.1) asks for. *)

From S2P Require Import Prelude Envelope Errors Protocol Derive.

Local Open Scope string_scope.
Local Open Scope mb_scope.

(** [TypeTagged] of the primitive types. *)
Definition prim_tag (p : string) : string := p.

(** The test's [#[derive(Message)] struct Msg<F>(pub F)] and
    [#[derive(MbError)] enum Error]. *)
Definition test_msg_input : DeriveInput := mkDeriveInput "Msg" [] [GType "F"].
Definition test_error_input : DeriveInput := mkDeriveInput "Error" [] [].

(** [Msg::<P>::type_tag_()] and [Error::type_tag_()]. *)
Definition msg_tag (p : string) : string := tag_of (TNode "Msg" [TNode (prim_tag p) []]).
Definition error_tag : string := "Error".

Definition Triple : Type := string * string * string.

(** The relay: its channel's queue and whether a sender is alive. *)
Record TestRelay : Type := mkRelay {
  queue : list (Event BoxedMessage Val);
  tx_alive : bool
}.

(** [self.stx.send(ev).unwrap()] on the unbounded channel: the relay
    holds the receiving half, so the send never fails. *)
Definition push (ev : Event BoxedMessage Val) (r : TestRelay) : TestRelay :=
  mkRelay (queue r ++ [ev]) (tx_alive r).

(** [TypeTagAccept::accept] (lines 52-78): the two early returns, then
    [true]. *)
Definition relay_accept (msg : string) (resp err : option string) : bool :=
  if bool_decide (msg = msg_tag "i16") &&
     match resp with Some r => bool_decide (r <> msg_tag "u8") | None => false end
  then false
  else if bool_decide (msg = msg_tag "i32") &&
          match resp with
          | Some r => bool_decide (r <> msg_tag "i64") && bool_decide (r <> msg_tag "()")
          | None => false
          end
  then false
  else true.

(** The triples [iter_types] passes to the callback, in order. *)
Definition relay_types : list Triple :=
  [(msg_tag "i16", msg_tag "u8", error_tag);
   (msg_tag "i32", msg_tag "()", error_tag);
   (msg_tag "i32", msg_tag "i64", error_tag)].

(** [iter_types] (lines 80-109): the callback's calls, up to the first
    that returns [false]. *)
Fixpoint iter_until (cb : Triple -> bool) (l : list Triple) : list Triple :=
  match l with
  | [] => []
  | x :: l' => x :: (if cb x then iter_until cb l' else [])
  end.

Definition relay_iter_types (cb : Triple -> bool) : list Triple := iter_until cb relay_types.

(** [SendUntypedReceiver::send] (lines 112-132). *)
Definition relay_send (a : Action) (r : TestRelay)
  : outcome (result unit (SendError Action) * TestRelay) :=
  ev <-! match a with
         | Init => Done Ready
         | Close => Done Exited
         | Flush => Done Flushed
         | Sync => Done (Synchronized (Ok tt))
         | StatsAction => Panic "not implemented"
         end ;;
  Done (Ok tt, push ev r).

(** The types of the responses: [Msg<u8>] and [()]. *)
Definition unit_ty : RTy := mkRTy 4 "()" false false.

(** [SendUntypedReceiver::send_msg] (lines 134-152). *)
Definition relay_send_msg (mid : Z) (msg : BoxedMessage) (r : TestRelay)
  : result unit (SendError BoxedMessage) * TestRelay :=
  let resp := if bool_decide (type_tag msg = msg_tag "i16")
              then into_boxed resp_ty (VInt 9) else into_boxed unit_ty VUnit in
  (Ok tt, push (Response mid (Ok resp)) r).

(** [ReciveUnypedReceiver::poll_events] (lines 155-167): [None] is
    [Poll::Pending]. *)
Definition relay_poll (r : TestRelay) : option (Event BoxedMessage Val) * TestRelay :=
  match queue r with
  | ev :: q => (Some ev, mkRelay q (tx_alive r))
  | [] => if tx_alive r then (None, r) else (Some Exited, r)
  end.

(** [poll_events] called [n] times: the events returned. *)
Fixpoint poll_n (n : nat) (r : TestRelay) : list (option (Event BoxedMessage Val)) * TestRelay :=
  match n with
  | O => ([], r)
  | S k => let '(e, r') := relay_poll r in let '(es, r'') := poll_n k r' in (e :: es, r'')
  end.

(** The event each action is answered with (spec 6). *)
Definition action_event (a : Action) : option (Event BoxedMessage Val) :=
  match a with
  | Init => Some Ready
  | Close => Some Exited
  | Flush => Some Flushed
  | Sync => Some (Synchronized (Ok tt))
  | StatsAction => None
  end.

(** ** Lemmas *)

(** The relay's tags are those the derive macro gives the test's types. *)
Lemma msg_tag_derived p mi :
  derive_message test_msg_input = Done mi ->
  tag_value (mi_tag mi) (fun _ => prim_tag p) = Some (msg_tag p).
Proof.
  intros Hd. unfold msg_tag. apply (derive_message_tag_value _ _ _ _ Hd); [done|done|].
  simpl. by rewrite append_Empty_r.
Qed.

Lemma error_tag_derived : derive_error test_error_input = Done (TagLiteral error_tag).
Proof. reflexivity. Qed.

Lemma iter_until_sub cb l x : x ∈ iter_until cb l -> x ∈ l.
Proof.
  induction l as [|y l IH]; simpl; [done|]. rewrite !elem_of_cons.
  destruct (cb y); [naive_solver|]. rewrite elem_of_nil. naive_solver.
Qed.

Lemma poll_n_app q l tx n :
  poll_n (length q + n) (mkRelay (q ++ l) tx) =
    ((map Some q ++ (poll_n n (mkRelay l tx)).1)%list, (poll_n n (mkRelay l tx)).2).
Proof.
  induction q as [|ev q IH]; simpl; [by destruct (poll_n n _)|].
  rewrite IH. by destruct (poll_n n _).
Qed.

(** ** The relay against the relay adapter contract *)

(** C30: every triple [iter_types] advertises, whatever the callback, is
    accepted with its response and error tags. *)
Theorem relay_accepts_advertised cb :
  Forall (fun t : Triple => let '(m, r, e) := t in relay_accept m (Some r) (Some e) = true)
         (relay_iter_types cb).
Proof.
  apply Forall_forall. intros [[m r] e] Hin. apply iter_until_sub in Hin.
  repeat (apply elem_of_cons in Hin as [Hin|Hin]; [injection Hin as -> -> ->; reflexivity|]).
  by apply elem_of_nil in Hin.
Qed.

(** C31: [send(Action)] answers [Init], [Close], [Flush] and [Sync] with
    [Ready], [Exited], [Flushed] and [Synchronized(Ok)] queued after the
    events already there, and returns [Ok]; [Action::Stats] panics
    ([unimplemented!()]), where the contract asks for an answer. *)
Theorem relay_send_actions a r :
  match action_event a with
  | Some ev => relay_send a r = Done (Ok tt, push ev r)
  | None => exists m, relay_send a r = Panic m
  end.
Proof. destruct a; simpl; eauto. Qed.

(** C32: every message is answered: [send_msg(mid, ..)] returns [Ok] and,
    once the events queued before it are polled, the next [poll_events]
    returns a [Response] for [mid]. *)
Theorem relay_send_msg_answers mid msg r res r' :
  relay_send_msg mid msg r = (res, r') ->
  res = Ok tt /\
  exists b, (poll_n (length (queue r) + 1) r').1 = (map Some (queue r) ++ [Some (Response mid (Ok b))])%list.
Proof.
  unfold relay_send_msg. intros [= <- <-]. split; [done|]. eexists. unfold push.
  destruct r as [q tx]. simpl. rewrite poll_n_app. reflexivity.
Qed.

(** Scenario 4 of the spec: a [Msg(12i16)] sent to the relay is
    answered with a response that downcasts to [Msg(9u8)], any other
    message with [()]. *)
Theorem relay_request_scenario mid r :
  (relay_send_msg mid (into_boxed msg_ty (VInt 12)) r).2 =
    push (Response mid (Ok (into_boxed resp_ty (VInt 9)))) r /\
  downcast resp_ty (into_boxed resp_ty (VInt 9)) = Ok (VInt 9) /\
  (relay_send_msg mid (into_boxed (mkRTy 5 (msg_tag "i32") true false) (VInt 32)) r).2 =
    push (Response mid (Ok (into_boxed unit_ty VUnit))) r.
Proof. split_and!; reflexivity. Qed.

(** ** Runs on concrete inputs *)

Definition relay_ex : TestRelay := mkRelay [Ready] true.

Lemma relay_send_msg_answers_witness :
  @Ok unit (SendError BoxedMessage) tt = Ok tt /\
  exists b, (poll_n (length (queue relay_ex) + 1)
                    (relay_send_msg 7 (into_boxed msg_ty (VInt 12)) relay_ex).2).1 =
            (map Some (queue relay_ex) ++ [Some (Response 7 (Ok b))])%list.
Proof. apply (relay_send_msg_answers 7 (into_boxed msg_ty (VInt 12)) relay_ex). reflexivity. Defined.
