(* ===== verification/Interface.v ===== *)
(** * The erased interface of a receiver

    [src/src/receiver.rs] reaches every receiver through trait objects:
    [TypeTagAccept] (lines 91-94: [accept], [iter_types]) and its
    subtrait [ReceiverTrait] (lines 96-130), which the [Receiver] handle
    holds as [Arc<dyn ReceiverTrait>] (lines 647-650) and to which its
    methods delegate ([name], [accept], [need_flush], [try_reserve],
    [start_polling], [iter_types]: lines 707-720, 733-736, 800-805,
    955-958).

    Here the two traits are classes over the implementing type, the
    handle is a dependent record (the type, its instances, the value),
    and [ReceiverWrapper] is an instance, its methods those of
    [Wrapper.v]; the test relay of [Relay.v] is an instance of
    [TypeTagAccept], as in [src/tests/test_relay.rs].  The views
    [typed()] and [wrapper()], whose types depend on [M], [R] and [E],
    stay with the wrapper ([AnyReceiver.v], [Receiver.v]); the three
    listener traits behind [wrapper()] ([WrapperReturnTypeOnly<R>],
    [WrapperErrorTypeOnly<E>], [WrapperReturnTypeAndError<R, E>], lines
    66-89) and [PermitDrop] (lines 136-138), the trait object a [Permit]
    holds, are classes too, with the wrapper and the context as their
    instances.

    [TypeTagAcceptLaws] is the contract the spec's table (4.4) gives
    [accept] and [iter_types]: [accept] holds exactly for the advertised
    triples (response and error optional), and [iter_types] stops at the
    first [false] of its callback.  The facade's theorems are proved for
    any lawful implementation; [ReceiverWrapper] is lawful, the test
    relay is not. *)

From S2P Require Import Prelude Envelope Errors Runtime Protocol Context Wrapper AnyReceiver Receiver Relay.

Local Open Scope mb_scope.

(** [pub trait TypeTagAccept]: [iter_types(cb)] is the list of the
    triples handed to [cb], in order. *)
Class TypeTagAccept (T : Type) := {
  tta_accept : T -> string -> option string -> option string -> bool;
  tta_iter_types : T -> (Triple -> bool) -> list Triple
}.

(** [pub trait ReceiverTrait: TypeTagAccept]. [start_polling] is the
    event-poll loop it returns, run over the events the strategy yields. *)
Class ReceiverTrait (T : Type) `{TypeTagAccept T} := {
  rt_name : T -> string;
  rt_send_boxed : Z -> BoxedMessage -> T -> result unit (Error BoxedMessage VoidError) * T;
  rt_add_response_listener : Z -> T -> result Z ErasedError * T;
  rt_stats : T -> outcome (result Stats (Error Action VoidError));
  rt_send_action : Action -> T -> result unit (Error Action VoidError) * T;
  rt_close_notify : T -> Notify.t;
  rt_sync_notify : T -> Notify.t;
  rt_flush_notify : T -> Notify.t;
  rt_ready_notify : T -> Notify.t;
  rt_is_init_sent : T -> bool;
  rt_is_ready : T -> bool;
  rt_need_flush : T -> bool;
  rt_try_reserve : T -> option (option Permit * T);
  rt_reserve_notify : T -> Notify.t;
  rt_start_polling : T -> list (Event Val Val) -> outcome (T * LoopStatus)
}.

(** The contract of [accept] and [iter_types] (spec 4.4). *)
Class TypeTagAcceptLaws (T : Type) `{TypeTagAccept T} := {
  accept_advertised t m r e :
    (m, r, e) ∈ tta_iter_types t (fun _ => true) -> tta_accept t m (Some r) (Some e) = true;
  accept_only_advertised t m r e :
    tta_accept t m r e = true ->
    exists r' e', (m, r', e') ∈ tta_iter_types t (fun _ => true) /\
                  (r = None \/ r = Some r') /\ (e = None \/ e = Some e');
  iter_types_stops t cb :
    tta_iter_types t cb = iter_until cb (tta_iter_types t (fun _ => true))
}.

(** ** [ReceiverWrapper] implements both traits (lines 309-451) *)

Section WrapperInstance.
Context {S : Type} `{Strategy S}.
Context (M_ty R_ty E_ty : RTy).
(** [std::any::type_name::<Self>()]: a constant of the instantiation. *)
Context (type_name_self : string).

#[local] Instance wrapper_type_tag_accept : TypeTagAccept (ReceiverWrapper S) := {|
  tta_accept _ := accept M_ty R_ty E_ty;
  tta_iter_types _ _ := iter_types M_ty R_ty E_ty
|}.

#[local] Instance wrapper_receiver_trait : ReceiverTrait (ReceiverWrapper S) := {|
  rt_name _ := type_name_self;
  rt_send_boxed := send_boxed M_ty;
  rt_add_response_listener := add_response_listener_boxed;
  rt_stats := stats;
  rt_send_action := send_action;
  rt_close_notify w := closed (context w);
  rt_sync_notify w := synchronized (context w);
  rt_flush_notify w := flushed (context w);
  rt_ready_notify w := ready (context w);
  rt_is_init_sent := is_init_sent;
  rt_is_ready := is_ready;
  rt_need_flush := wrapper_need_flush;
  rt_try_reserve := wrapper_try_reserve;
  rt_reserve_notify w := Context.response (context w);
  rt_start_polling w evs := poll_loop R_ty E_ty evs w
|}.

End WrapperInstance.

(** [impl TypeTagAccept for TestRelay] (test_relay.rs:52-110). *)
#[export] Instance relay_type_tag_accept : TypeTagAccept TestRelay := {|
  tta_accept _ := relay_accept;
  tta_iter_types _ := relay_iter_types
|}.

(** ** The listener traits and [PermitDrop]

    Their type parameters [R] and [E] are the [RTy] the instance is for. *)

(** [pub trait WrapperReturnTypeOnly<R>]. *)
Class WrapperReturnTypeOnly (R : RTy) (T : Type) := {
  wro_add_response_listener : Z -> T -> result Z ErasedError * T
}.

(** [pub trait WrapperErrorTypeOnly<E>]. *)
Class WrapperErrorTypeOnly (E : RTy) (T : Type) := {
  weo_add_response_listener : Z -> T -> result Z ErasedError * T
}.

(** [pub trait WrapperReturnTypeAndError<R, E>]. *)
Class WrapperReturnTypeAndError (R E : RTy) (T : Type) := {
  wre_start_polling_events : T -> list (Event Val Val) -> outcome (T * LoopStatus);
  wre_add_response_listener : Z -> T -> result Z ErasedError * T;
  wre_response : Z -> result Val (Error unit Val) -> T -> outcome (result unit ErasedError * T)
}.

(** [pub trait PermitDrop]: [permit_drop(&self)] on the shared state. *)
Class PermitDrop (T : Type) := {
  pd_permit_drop : T -> T
}.

(** [impl WrapperReturnTypeAndError<R, E> for ReceiverWrapper] (lines 191-271). *)
#[export] Instance wrapper_return_type_and_error {S} `{Strategy S} (R_ty E_ty : RTy)
  : WrapperReturnTypeAndError R_ty E_ty (ReceiverWrapper S) := {|
  wre_start_polling_events w evs := poll_loop R_ty E_ty evs w;
  wre_add_response_listener := add_response_listener_re;
  wre_response := response R_ty E_ty
|}.

(** [impl WrapperReturnTypeOnly<R> for ReceiverWrapper] (lines 273-289). *)
#[export] Instance wrapper_return_type_only {S} `{Strategy S} (R_ty : RTy)
  : WrapperReturnTypeOnly R_ty (ReceiverWrapper S) := {|
  wro_add_response_listener := add_response_listener_r
|}.

(** [impl WrapperErrorTypeOnly<E> for ReceiverWrapper] (lines 291-307). *)
#[export] Instance wrapper_error_type_only {S} `{Strategy S} (E_ty : RTy)
  : WrapperErrorTypeOnly E_ty (ReceiverWrapper S) := {|
  weo_add_response_listener := add_response_listener_e
|}.

(** [impl PermitDrop for ReceiverContext] (lines 634-638). *)
#[export] Instance context_permit_drop : PermitDrop ReceiverContext := {|
  pd_permit_drop := permit_drop
|}.

(** ** The handle: [Receiver { inner: Arc<dyn ReceiverTrait> }] *)

Record DynReceiver : Type := mkDynReceiver {
  dr_ty : Type;
  dr_tta : TypeTagAccept dr_ty;
  dr_trait : @ReceiverTrait dr_ty dr_tta;
  dr_inner : dr_ty
}.
Arguments mkDynReceiver _ {_ _} _.

(** The handle after its receiver's state has changed. *)
Definition dr_with (r : DynReceiver) (x : dr_ty r) : DynReceiver :=
  @mkDynReceiver (dr_ty r) (dr_tta r) (dr_trait r) x.

Section Facade.
Variable r : DynReceiver.
Local Existing Instances dr_tta dr_trait.

(** [Receiver::name]. *)
Definition receiver_name : string := rt_name (dr_inner r).

(** [Receiver::accept]. *)
Definition receiver_accept (msg : string) (resp err : option string) : bool :=
  tta_accept (dr_inner r) msg resp err.

(** [Receiver::need_flush]. *)
Definition receiver_need_flush : bool := rt_need_flush (dr_inner r).

(** [Receiver::try_reserve]. *)
Definition receiver_try_reserve : option (option Permit * DynReceiver) :=
  (fun pr => (pr.1, dr_with r pr.2)) <$> rt_try_reserve (dr_inner r).

(** [Receiver::start_polling]: [self.inner.clone().start_polling()]. *)
Definition receiver_start_polling (evs : list (Event Val Val)) : outcome (DynReceiver * LoopStatus) :=
  x <-! rt_start_polling (dr_inner r) evs ;; Done (dr_with r x.1, x.2).

(** [Receiver::iter_types]. *)
Definition receiver_iter_types (cb : Triple -> bool) : list Triple :=
  tta_iter_types (dr_inner r) cb.

End Facade.

(** [Receiver::new] (lines 669-696): the wrapper behind the handle. *)
Definition dyn_receiver_new {S} `{Strategy S} (M_ty R_ty E_ty : RTy) (type_name_self : string)
    (limit : Z) (slab_cap : nat) (s : S) : DynReceiver :=
  @mkDynReceiver (ReceiverWrapper S) (wrapper_type_tag_accept M_ty R_ty E_ty)
    (wrapper_receiver_trait M_ty R_ty E_ty type_name_self) (receiver_new limit slab_cap s).

(** ** The contract, for any implementation and for the two instances *)

(** [Receiver::accept] with both tags given holds exactly for the triples
    [Receiver::iter_types] advertises, for every lawful receiver. *)
Lemma dyn_accept_iff (r : DynReceiver) :
  @TypeTagAcceptLaws (dr_ty r) (dr_tta r) ->
  forall m rs e, receiver_accept r m (Some rs) (Some e) = true <->
                 (m, rs, e) ∈ receiver_iter_types r (fun _ => true).
Proof.
  intros HL m rs e. unfold receiver_accept, receiver_iter_types. split.
  - intros Hacc. destruct (accept_only_advertised _ _ _ _ Hacc) as (r' & e' & Hin & [|[= <-]] & [|[= <-]]);
      done.
  - apply accept_advertised.
Qed.

(** [Receiver::iter_types] stops at the first triple its callback
    refuses. *)
Lemma dyn_iter_types_stops (r : DynReceiver) cb :
  @TypeTagAcceptLaws (dr_ty r) (dr_tta r) ->
  receiver_iter_types r cb = iter_until cb (receiver_iter_types r (fun _ => true)).
Proof. intros HL. apply iter_types_stops. Qed.

Section WrapperLaws.
Context {S : Type} `{Strategy S}.
Context (M_ty R_ty E_ty : RTy).

(** [ReceiverWrapper] meets the contract: one triple, [(M, R, E)]; the
    callback is called once, whatever it returns. *)
Lemma wrapper_type_tag_accept_laws :
  @TypeTagAcceptLaws (ReceiverWrapper S) (wrapper_type_tag_accept M_ty R_ty E_ty).
Proof.
  split; cbn [tta_accept tta_iter_types wrapper_type_tag_accept].
  - intros _ m r e Hin. unfold iter_types in Hin. apply list_elem_of_singleton in Hin.
    injection Hin as -> -> ->. apply (proj2 (accept_spec M_ty R_ty E_ty _ _ _)). naive_solver.
  - intros _ m r e (-> & Hr & He)%accept_spec. exists (ty_tag R_ty), (ty_tag E_ty).
    unfold iter_types. rewrite list_elem_of_singleton. naive_solver.
  - intros _ cb. simpl. by destruct (cb _).
Qed.

End WrapperLaws.

(** The test relay does not: it accepts [Msg<u8>], which it advertises
    in no triple. *)
Lemma relay_type_tag_accept_unlawful : ~ TypeTagAcceptLaws TestRelay.
Proof.
  intros HL.
  destruct (@accept_only_advertised _ relay_type_tag_accept HL (mkRelay [] true) (msg_tag "u8") None None)
    as (r' & e' & Hin & _); [vm_compute; reflexivity|].
  apply list_elem_of_In in Hin. vm_compute in Hin. intuition congruence.
Qed.

(** ** [start_polling] is not idempotent

    The spec (4.4) says repeated calls of [start_polling] return no-op
    futures; [ReceiverWrapper::start_polling] (lines 446-450) builds a new
    event loop at every call, and nothing records that one runs. *)

(** [ReceiverTrait::is_ready] through the handle. *)
Definition dr_is_ready (r : DynReceiver) : bool :=
  @rt_is_ready (dr_ty r) (dr_tta r) (dr_trait r) (dr_inner r).

Definition dyn_ex : DynReceiver :=
  dyn_receiver_new msg_ty resp_ty err_ty "ReceiverWrapper" 1 4 (mkBuffer [] 1 false []).

(** The future of a second [start_polling] runs the loop again: fed a
    [Ready], it makes the receiver ready. *)
Lemma start_polling_not_idempotent :
  exists r1 r2,
    receiver_start_polling dyn_ex [Pause] = Done (r1, LoopPending) /\
    receiver_start_polling r1 [Ready] = Done (r2, LoopPending) /\
    dr_is_ready r1 = false /\ dr_is_ready r2 = true.
Proof. eexists _, _. split_and!; reflexivity. Qed.
