(* ===== verification/Admission.v ===== *)
(** * Admission control under interleaving

    Producer tasks and the event-poll loop of one receiver, run
    concurrently against its context.  A producer does what [Bus::send]
    does with [Receiver::reserve] and [Receiver::send] (lines 723-762):
    it runs the [try_reserve] loop one atomic access at a time
    ([reserve_step]); when that returns [None] it creates the
    [reserve_notify().notified()] future and awaits it, then retries; with
    a permit it sends (the permit is fused) or is cancelled before sending
    (the permit is dropped and refunds).  A [force_send] task sends
    without a permit.  The event-poll loop takes the strategy's events and
    runs the atomic operations of [event_ops] one at a time ([exec_op]),
    so a [Response] decrements [processing], then wakes one
    [reserve_notify] waiter, then answers the requester.

    [astep] is the interleaving; [reachable] its reflexive-transitive
    closure from a fresh receiver.  The theorems: the accounting
    invariant ([processing] equals the units held by permits, the
    strategy's pending messages, the refused sends and the [Response] the
    loop is handling) and [processing <= limit] in every reachable state
    without [force_send]; a refused send leaks its unit forever; a
    [force_send] answered by the strategy wraps [processing] around to
    [u64::MAX]. *)

From S2P Require Import Prelude Envelope Errors Runtime Protocol Context Wrapper AnyReceiver Receiver.

Local Open Scope mb_scope.

(** The program points of a producer task. *)
Inductive Task : Type :=
| TReserve (st : ReserveState)     (** inside [try_reserve] *)
| TRegister                        (** [try_reserve] gave [None]: about to call [notified()] *)
| TWait                            (** awaiting the [Notified] future *)
| THold                            (** holds an unfused permit, about to [send] *)
| TSent (permitted ok : bool)      (** [send] (with a permit) or [force_send] returned *)
| TCancelled                       (** dropped before sending: the permit was dropped *)
| TForce.                          (** about to [force_send] *)

Record AState (S : Type) : Type := mkA {
  aw : ReceiverWrapper S;
  aloop : list LoopOp;   (** the operations left of the event being handled *)
  aexited : bool;        (** the poll loop broke out *)
  atasks : list Task     (** the producer tasks; a task's index is its id *)
}.
Arguments mkA {S}.
Arguments aw {S}.
Arguments aloop {S}.
Arguments aexited {S}.
Arguments atasks {S}.

(** Where a task goes after an access of [try_reserve]. *)
Definition after_reserve (st : ReserveState) : Task :=
  match st with
  | RDone (Some _) => THold
  | RDone None => TRegister
  | st => TReserve st
  end.

Section Admission.
Context {S : Type} `{Strategy S}.
Context (M_ty R_ty E_ty : RTy).

Inductive astep : AState S -> AState S -> Prop :=
| step_reserve w lp ex ts i st st' c' :
    ts !! i = Some (TReserve st) ->
    reserve_step (context w) st = (st', c') ->
    astep (mkA w lp ex ts) (mkA (set_context c' w) lp ex (<[i := after_reserve st']> ts))
| step_register w lp ex ts i :
    ts !! i = Some TRegister ->
    astep (mkA w lp ex ts)
          (mkA (set_context (map_response (Notify.notified i) (context w)) w) lp ex
               (<[i := TWait]> ts))
| step_wake w lp ex ts i n' :
    ts !! i = Some TWait ->
    Notify.poll i (notify_of NResponse (context w)) = Some n' ->
    astep (mkA w lp ex ts)
          (mkA (set_context (map_response (fun _ => n') (context w)) w) lp ex
               (<[i := TReserve RLoad]> ts))
| step_send w lp ex ts i mid v res w' :
    ts !! i = Some THold ->
    receiver_send M_ty M_ty mid v (mkPermit false) w = Done (res, w') ->
    astep (mkA w lp ex ts) (mkA w' lp ex (<[i := TSent true (is_ok res)]> ts))
| step_cancel w lp ex ts i :
    ts !! i = Some THold ->
    astep (mkA w lp ex ts)
          (mkA (set_context (drop_permit (mkPermit false) (context w)) w) lp ex
               (<[i := TCancelled]> ts))
| step_force w lp ex ts i mid v res w' :
    ts !! i = Some TForce ->
    force_send M_ty M_ty mid v w = Done (res, w') ->
    astep (mkA w lp ex ts) (mkA w' lp ex (<[i := TSent false (is_ok res)]> ts))
| step_poll w ts ev s' :
    strat_event (inner w) ev s' ->
    astep (mkA w [] false ts) (mkA (set_inner s' w) (event_ops ev) false ts)
| step_exec w op rest ex ts w' go :
    exec_op R_ty E_ty op w = Done (w', go) ->
    astep (mkA w (op :: rest) ex ts)
          (mkA w' (if go then rest else []) (ex || negb go) ts).

Inductive reachable (init : AState S) : AState S -> Prop :=
| reach_init : reachable init init
| reach_step a a' : reachable init a -> astep a a' -> reachable init a'.

(** ** Effects of the single operations *)

Definition is_fetch_sub (op : LoopOp) : bool :=
  match op with OpFetchSubProcessing => true | _ => false end.

(** The unit of [processing] a task accounts for: a held permit, or the
    fused permit of a refused send. *)
Definition task_units (t : Task) : nat :=
  match t with THold => 1 | TSent true false => 1 | _ => 0 end.

(** The unit the loop accounts for between taking a [Response] and its
    [fetch_sub]. *)
Definition loop_units (ops : list LoopOp) : nat :=
  sum_list (map (fun op => if is_fetch_sub op then 1 else 0) ops).

Lemma send_typed_effect M2 mid v (w w' : ReceiverWrapper S) res :
  send_typed M_ty M2 mid v w = Done (res, w') ->
  context w' = context w /\ exists r, strat_send (inner w) mid v = (inner w', r) /\ is_ok res = is_ok r.
Proof.
  unfold send_typed. simpl.
  destruct (cast_send_typed M2 _) as [s|] eqn:Hcast; simpl; [|discriminate].
  unfold cast_send_typed in Hcast. simpl in Hcast. case_decide; simplify_eq.
  destruct (strat_send (inner w) mid v) as [s' r] eqn:Hs; simpl. intros; simplify_eq.
  split; [done|]. exists r. split; [done|]. by destruct r.
Qed.

Lemma receiver_send_effect mid v p (w w' : ReceiverWrapper S) res :
  receiver_send M_ty M_ty mid v p w = Done (res, w') ->
  context w' = context w /\ exists r, strat_send (inner w) mid v = (inner w', r) /\ is_ok res = is_ok r.
Proof.
  unfold receiver_send. destruct (send_typed M_ty M_ty mid v w) as [[res0 w0]|] eqn:Hs; simpl;
    [|discriminate].
  intros; simplify_eq. apply send_typed_effect in Hs as [Hc Hr]. by rewrite <-Hc.
Qed.

Lemma exec_op_effect op (w w' : ReceiverWrapper S) go :
  exec_op R_ty E_ty op w = Done (w', go) ->
  inner w' = inner w /\ limit (context w') = limit (context w) /\
  processing (context w') =
    (if is_fetch_sub op then fetch_sub64 (processing (context w)) 1 else processing (context w)) /\
  (go = false -> op = OpBreak).
Proof.
  destruct op; simpl; intros Hop; simplify_eq; simpl;
    try (destruct n; simpl; split_and!; done); try (split_and!; done).
  destruct (response R_ty E_ty mid r w) as [[res w2]|] eqn:Hr; simpl in Hop; simplify_eq.
  apply response_effect in Hr as [Hc Hi]. rewrite Hc, Hi. split_and!; done.
Qed.

End Admission.

(** ** The accounting invariant *)

Section Invariant.
Context {S : Type} `{StrategyLaws S}.
Context (M_ty R_ty E_ty : RTy).

(** What a task's program point requires of the context: a loaded [count]
    below the limit; no [force_send] task. *)
Definition task_ok (c : ReceiverContext) (t : Task) : Prop :=
  match t with
  | TReserve (RDone _) => False
  | TReserve st => reserve_state_ok c st
  | TForce | TSent false _ => False
  | _ => True
  end.

(** The operations left in the loop are the tail of one event's arm. *)
Definition loop_wf (ops : list LoopOp) : Prop :=
  exists ev k, ops = drop k (event_ops ev).

(** The units of [processing] accounted for. *)
Definition accounted (a : AState S) : nat :=
  sum_list (map task_units (atasks a)) + length (strat_pending (inner (aw a))) +
  loop_units (aloop a).

Definition adm_inv (a : AState S) : Prop :=
  processing (context (aw a)) = Z.of_nat (accounted a) /\
  ctx_inv (context (aw a)) /\
  Forall (task_ok (context (aw a))) (atasks a) /\
  loop_wf (aloop a).

Lemma task_ok_limit c c' t : limit c' = limit c -> task_ok c t -> task_ok c' t.
Proof. intros Hl. destruct t as [[]| | | | [] | |]; simpl; rewrite ?Hl; done. Qed.

Lemma Forall_task_ok_limit c c' ts :
  limit c' = limit c -> Forall (task_ok c) ts -> Forall (task_ok c') ts.
Proof. intros Hl HF. eapply Forall_impl; [exact HF|]. intros t. by apply task_ok_limit. Qed.

Lemma Forall_insert_task c ts i t :
  Forall (task_ok c) ts -> task_ok c t -> Forall (task_ok c) (<[i := t]> ts).
Proof. intros. by apply Forall_insert. Qed.

Lemma loop_units_nil : loop_units [] = 0%nat.
Proof. reflexivity. Qed.

Lemma loop_units_event_ops ev :
  loop_units (event_ops ev) = match ev with Response _ _ => 1%nat | _ => 0%nat end.
Proof. by destruct ev. Qed.

Lemma loop_wf_step op rest : loop_wf (op :: rest) -> loop_wf rest.
Proof.
  intros (ev & k & Hk). exists ev, (k + 1)%nat.
  rewrite <-drop_drop, <-Hk. reflexivity.
Qed.

Lemma loop_break_units rest : loop_wf (OpBreak :: rest) -> loop_units rest = 0%nat.
Proof.
  intros (ev & k & Hk).
  destruct ev; destruct k as [|[|[|[|k]]]]; simpl in Hk; rewrite ?drop_nil in Hk;
    try discriminate; injection Hk as Hk; subst; done.
Qed.

End Invariant.

Section Preservation.
Context {S : Type} `{StrategyLaws S}.
Context (M_ty R_ty E_ty : RTy).

Lemma reserve_step_accounting c st st' c' :
  ctx_inv c -> reserve_state_ok c st -> (forall p, st <> RDone p) ->
  reserve_step c st = (st', c') ->
  limit c' = limit c /\ task_ok c' (after_reserve st') /\
  processing c' = (processing c + Z.of_nat (task_units (after_reserve st')))%Z.
Proof.
  unfold ctx_inv. intros Hc Hok Hnd. destruct st as [|count|p]; simpl in *.
  - case_decide; intros; simplify_eq; simpl; split_and!; try done; lia.
  - case_decide; intros; simplify_eq; simpl; split_and!; try done; lia.
  - by destruct (Hnd p).
Qed.

Lemma task_ok_reserve c st : task_ok c (TReserve st) -> reserve_state_ok c st /\ forall p, st <> RDone p.
Proof. destruct st; simpl; done. Qed.

Ltac accounting_lia :=
  repeat match goal with
  | H : ?l !! ?i = Some _ |- context [sum_list (map task_units (<[?i := _]> ?l))] =>
      pose proof (sum_list_map_insert task_units _ _ _ _ H); clear H
  end; simpl in *; lia.

Lemma adm_inv_reserve w lp ex ts i st st' c' :
  adm_inv (mkA w lp ex ts) -> ts !! i = Some (TReserve st) ->
  reserve_step (context w) st = (st', c') ->
  adm_inv (mkA (set_context c' w) lp ex (<[i := after_reserve st']> ts)).
Proof.
  intros (Hacc & Hctx & Hts & Hlp) Hi Hst. unfold accounted in *; simpl in *.
  pose proof (proj1 (Forall_lookup _ _) Hts _ _ Hi) as Hok.
  apply task_ok_reserve in Hok as [Hok Hnd].
  destruct (reserve_step_inv _ _ Hctx Hok) as [Hctx' _]. rewrite Hst in Hctx'.
  destruct (reserve_step_accounting _ _ _ _ Hctx Hok Hnd Hst) as (Hl & Hok' & Hp).
  split_and!; simpl; try done.
  - autorewrite with mb. rewrite Hp, Hacc.
    pose proof (sum_list_map_insert task_units _ _ _ (after_reserve st') Hi).
    unfold accounted; simpl; autorewrite with mb. simpl in *. lia.
  - apply Forall_insert; [|done]. by eapply Forall_task_ok_limit.
Qed.

Lemma adm_inv_notify w lp ex ts i t t' f :
  adm_inv (mkA w lp ex ts) -> ts !! i = Some t -> task_units t = task_units t' -> task_ok (context w) t' ->
  adm_inv (mkA (set_context (map_response f (context w)) w) lp ex (<[i := t']> ts)).
Proof.
  intros (Hacc & Hctx & Hts & Hlp) Hi Hu Hok. unfold accounted in *; simpl in *.
  split_and!; simpl; try done.
  - unfold accounted, map_response; simpl; autorewrite with mb.
    rewrite Hacc. pose proof (sum_list_map_insert task_units _ _ _ t' Hi). lia.
  - by apply Forall_insert.
Qed.

Lemma adm_inv_send w lp ex ts i mid v res w' :
  adm_inv (mkA w lp ex ts) -> ts !! i = Some THold ->
  receiver_send M_ty M_ty mid v (mkPermit false) w = Done (res, w') ->
  adm_inv (mkA w' lp ex (<[i := TSent true (is_ok res)]> ts)).
Proof.
  intros (Hacc & Hctx & Hts & Hlp) Hi Hs. unfold accounted in *; simpl in *.
  apply receiver_send_effect in Hs as (Hc & r & Hs & Hok). unfold adm_inv; simpl. rewrite Hc.
  pose proof (sum_list_map_insert task_units _ _ _ (TSent true (is_ok res)) Hi) as Hsum.
  split_and!; simpl; try done.
  - unfold accounted; simpl. rewrite Hacc.
    destruct r as [[]|e]; simpl in Hok; rewrite Hok in Hsum |- *; simpl in Hsum.
    + rewrite (send_ok_pending _ _ _ _ Hs), length_app. simpl. lia.
    + rewrite (send_err_pending _ _ _ _ _ Hs). lia.
  - by apply Forall_insert.
Qed.

Lemma adm_inv_cancel w lp ex ts i :
  adm_inv (mkA w lp ex ts) -> ts !! i = Some THold ->
  adm_inv (mkA (set_context (drop_permit (mkPermit false) (context w)) w) lp ex
               (<[i := TCancelled]> ts)).
Proof.
  intros (Hacc & Hctx & Hts & Hlp) Hi.
  pose proof (sum_list_map_insert task_units _ _ _ TCancelled Hi) as Hsum. simpl in Hsum.
  assert (Hp : processing (drop_permit (mkPermit false) (context w)) = (processing (context w) - 1)%Z).
  { apply permit_drop_pos. unfold ctx_inv, accounted in *. simpl in *. lia. }
  assert (Hl : limit (drop_permit (mkPermit false) (context w)) = limit (context w)) by reflexivity.
  unfold adm_inv, accounted, ctx_inv in *; simpl in *.
  split_and!; autorewrite with mb; rewrite ?Hp, ?Hl; try lia.
  - apply Forall_insert; [|done]. by eapply Forall_task_ok_limit.
  - done.
Qed.

Lemma adm_inv_poll w ts ev s' :
  adm_inv (mkA w [] false ts) -> strat_event (inner w) ev s' ->
  adm_inv (mkA (set_inner s' w) (event_ops ev) false ts).
Proof.
  intros (Hacc & Hctx & Hts & Hlp) Hev. unfold adm_inv, accounted in *; simpl in *.
  autorewrite with mb. split_and!; try done.
  - rewrite Hacc, loop_units_event_ops. destruct ev.
    1: destruct (response_pending _ _ _ _ Hev) as (l1 & l2 & E1 & E2);
       rewrite E1, E2, !length_app; simpl; rewrite loop_units_nil; lia.
    all: rewrite (other_event_pending _ _ _ Hev); [rewrite loop_units_nil; lia | intros ? ? [=]].
  - exists ev, 0%nat. reflexivity.
Qed.

Lemma adm_inv_exec w op rest ex ts w' go :
  adm_inv (mkA w (op :: rest) ex ts) -> exec_op R_ty E_ty op w = Done (w', go) ->
  adm_inv (mkA w' (if go then rest else []) (ex || negb go) ts).
Proof.
  intros (Hacc & Hctx & Hts & Hlp) Hop. apply exec_op_effect in Hop as (Hi & Hl & Hp & Hgo).
  unfold adm_inv, accounted, ctx_inv in *; simpl in *. rewrite Hi.
  assert (Hu : loop_units (op :: rest) = ((if is_fetch_sub op then 1 else 0) + loop_units rest)%nat)
    by reflexivity.
  rewrite Hu in Hacc.
  assert (Hp' : processing (context w') =
                (processing (context w) - if is_fetch_sub op then 1 else 0)%Z).
  { rewrite Hp. destruct (is_fetch_sub op); [|lia]. apply fetch_sub64_pos. lia. }
  clear Hp Hu. destruct (is_fetch_sub op) eqn:Hf.
  { destruct go; [|by rewrite (Hgo eq_refl) in Hf].
    split_and!; try lia; [by eapply Forall_task_ok_limit | by eapply loop_wf_step]. }
  destruct go.
  - split_and!; try lia.
    + by eapply Forall_task_ok_limit.
    + by eapply loop_wf_step.
  - rewrite (Hgo eq_refl) in *. simpl in *. rewrite (loop_break_units rest Hlp) in Hacc.
    rewrite loop_units_nil. split_and!; try lia.
    + by eapply Forall_task_ok_limit.
    + exists Pause, 1%nat. reflexivity.
Qed.

Lemma astep_limit a a' :
  astep M_ty R_ty E_ty a a' -> limit (context (aw a')) = limit (context (aw a)).
Proof.
  destruct 1 as [w lp ex ts i st st' c' Hi Hst|w lp ex ts i Hi|w lp ex ts i n' Hi Hn
                |w lp ex ts i mid v res w' Hi Hs|w lp ex ts i Hi|w lp ex ts i mid v res w' Hi Hs
                |w ts ev s' Hev|w op rest ex ts w' go Hop]; simpl; autorewrite with mb; try done.
  - pose proof (reserve_step_limit (context w) st) as Hl. by rewrite Hst in Hl.
  - by apply receiver_send_effect in Hs as [-> _].
  - by apply send_typed_effect in Hs as [-> _].
  - by apply exec_op_effect in Hop as (_ & -> & _).
Qed.

Lemma adm_inv_astep a a' : adm_inv a -> astep M_ty R_ty E_ty a a' -> adm_inv a'.
Proof.
  intros Hinv Hs. destruct Hs.
  - by eapply adm_inv_reserve.
  - by eapply (adm_inv_notify _ _ _ _ _ TRegister TWait).
  - eapply (adm_inv_notify _ _ _ _ _ TWait (TReserve RLoad)); done.
  - by eapply adm_inv_send.
  - by eapply adm_inv_cancel.
  - destruct Hinv as (_ & _ & Hts & _). simpl in Hts.
    pose proof (proj1 (Forall_lookup _ _) Hts _ _ H1). done.
  - by eapply adm_inv_poll.
  - by eapply adm_inv_exec.
Qed.

End Preservation.

(** ** Admission theorems *)

Section AdmissionTheorems.
Context {S : Type} `{StrategyLaws S}.
Context (M_ty R_ty E_ty : RTy).

(** The initial state: a fresh receiver over a strategy with nothing
    pending, producers about to [reserve], the loop waiting. *)
Definition adm_init (lim : Z) (slab_cap : nat) (s : S) (n : nat) : AState S :=
  mkA (receiver_new lim slab_cap s) [] false (repeat (TReserve RLoad) n).

Lemma adm_inv_init lim slab_cap s n :
  (0 <= lim < u64_modulus)%Z -> strat_pending s = [] ->
  adm_inv (adm_init lim slab_cap s n).
Proof.
  intros Hl Hp. unfold adm_inv, adm_init, accounted, ctx_inv; simpl. rewrite Hp.
  split_and!; try lia.
  - assert (Hz : sum_list (map task_units (repeat (TReserve RLoad) n)) = 0%nat)
      by (induction n; simpl; auto).
    rewrite loop_units_nil, Hz. simpl. lia.
  - apply Forall_forall. intros t Ht. apply list_elem_of_In, repeat_spec in Ht. by subst.
  - exists Pause, 1%nat. reflexivity.
Qed.

Lemma reachable_adm_inv init a :
  adm_inv init -> reachable M_ty R_ty E_ty init a -> adm_inv a.
Proof.
  intros Hi Hr. induction Hr as [|a a' Hr IH Hs]; [done|]. by eapply adm_inv_astep.
Qed.

Lemma reachable_limit init a :
  reachable M_ty R_ty E_ty init a -> limit (context (aw a)) = limit (context (aw init)).
Proof.
  induction 1 as [|b b' _ IH Hs]; [done|]. rewrite <-IH. by apply (astep_limit M_ty R_ty E_ty).
Qed.

(** C1: in every state reachable from a fresh receiver whose producers
    only [reserve] and [send] (no [force_send]), however the tasks and
    the event-poll loop interleave, [0 <= processing <= limit], and
    [processing] counts exactly the permits held, the messages the
    strategy has accepted and not answered, the permits fused on refused
    sends, and the [Response] the loop has taken and not yet counted
    down. *)
Theorem admission_invariant lim slab_cap s n a :
  (0 <= lim < u64_modulus)%Z -> strat_pending s = [] ->
  reachable M_ty R_ty E_ty (adm_init lim slab_cap s n) a ->
  (0 <= processing (context (aw a)) <= lim)%Z /\
  processing (context (aw a)) = Z.of_nat (accounted a).
Proof.
  intros Hl Hp Hr. pose proof (reachable_adm_inv _ _ (adm_inv_init _ slab_cap s n Hl Hp) Hr)
    as (Hacc & Hctx & _).
  assert (Hlim : limit (context (aw a)) = lim) by (by rewrite (reachable_limit _ _ Hr)).
  unfold ctx_inv in Hctx. rewrite Hlim in Hctx. split; [lia|done].
Qed.

(** The permits fused on refused sends, and the permits held. *)
Definition refused (t : Task) : nat := match t with TSent true false => 1 | _ => 0 end.
Definition held (t : Task) : nat := match t with THold => 1 | _ => 0 end.

Lemma sum_units_split ts :
  sum_list (map task_units ts) = (sum_list (map refused ts) + sum_list (map held ts))%nat.
Proof. induction ts as [|t ts IH]; simpl; [done|]. rewrite IH. destruct t as [| | | |[][]| |]; simpl; lia. Qed.

Lemma reach_trans init a a' : reachable M_ty R_ty E_ty init a -> reachable M_ty R_ty E_ty a a' ->
  reachable M_ty R_ty E_ty init a'.
Proof. intros H1 H2. induction H2 as [|b b' _ IH Hs]; [done|]. by eapply reach_step. Qed.

Lemma astep_refused_mono a a' :
  astep M_ty R_ty E_ty a a' ->
  (sum_list (map refused (atasks a)) <= sum_list (map refused (atasks a')))%nat.
Proof.
  destruct 1 as [w lp ex ts i st st' c' Hi _|w lp ex ts i Hi|w lp ex ts i n' Hi _
                |w lp ex ts i mid v res w' Hi _|w lp ex ts i Hi|w lp ex ts i mid v res w' Hi _
                |w ts ev s' _|w op rest ex ts w' go _]; simpl; try lia;
    match goal with
    | H : ts !! i = Some ?t |- context [<[i := ?t']> ts] =>
        pose proof (sum_list_map_insert refused ts i t t' H); simpl in *; lia
    end.
Qed.

(** C2: a refused send leaks its permit for good: [Receiver::send] fuses
    the permit even when the strategy hands the message back ([Full] or
    [Closed]), and nothing gives the unit back.  Once [limit] sends were
    refused, in every later state [processing = limit], no task holds a
    permit, and [try_reserve] fails at its first load: every producer
    waits on [reserve_notify] forever. *)
Theorem refused_sends_block_admission lim slab_cap s n a a' :
  (0 <= lim < u64_modulus)%Z -> strat_pending s = [] ->
  reachable M_ty R_ty E_ty (adm_init lim slab_cap s n) a ->
  Z.of_nat (sum_list (map refused (atasks a))) = lim ->
  reachable M_ty R_ty E_ty a a' ->
  processing (context (aw a')) = lim /\ Forall (fun t => t <> THold) (atasks a') /\
  reserve_step (context (aw a')) RLoad = (RDone None, context (aw a')).
Proof.
  intros Hl Hp Hr Hcnt Hr'.
  assert (Hmono : (sum_list (map refused (atasks a)) <= sum_list (map refused (atasks a')))%nat).
  { clear -Hr'. induction Hr' as [|b b' _ IH Hs]; [done|].
    pose proof (astep_refused_mono _ _ Hs). lia. }
  destruct (admission_invariant lim slab_cap s n a' Hl Hp (reach_trans _ _ _ Hr Hr')) as [Hb Hacc].
  unfold accounted in Hacc. rewrite sum_units_split in Hacc.
  assert (Hheld : sum_list (map held (atasks a')) = 0%nat) by lia.
  assert (Hproc : processing (context (aw a')) = lim) by lia.
  split_and!; [done| |].
  - apply Forall_forall. intros t Ht ->. apply list_elem_of_lookup in Ht as [i Hi].
    pose proof (sum_list_map_insert held _ _ _ TCancelled Hi). simpl in *. lia.
  - simpl. rewrite decide_False; [done|]. rewrite Hproc.
    rewrite (reachable_limit _ _ (reach_trans _ _ _ Hr Hr')). simpl. lia.
Qed.

End AdmissionTheorems.

(** ** Concrete runs with the reference strategy *)

(** C3: [force_send] bypasses the permits, but the strategy's [Response]
    for it still runs [processing.fetch_sub(1)]: from a fresh receiver
    (limit 1) one forced message answered by the strategy wraps
    [processing] around to [u64::MAX], far above [limit]; from then on
    [try_reserve] fails at every load. *)
Theorem force_send_wraps_processing :
  exists a, reachable msg_ty resp_ty err_ty
              (mkA (receiver_new 1 4 (mkBuffer [] 1 false [])) [] false [TForce]) a /\
            processing (context (aw a)) = (u64_modulus - 1)%Z /\
            (limit (context (aw a)) < processing (context (aw a)))%Z /\
            reserve_step (context (aw a)) RLoad = (RDone None, context (aw a)).
Proof.
  eexists. split; [|split_and!].
  - eapply reach_step; [eapply reach_step; [eapply reach_step; [apply reach_init|]|]|].
    + eapply (step_force msg_ty resp_ty err_ty _ _ _ _ 0%nat 0 VUnit);
        [reflexivity|vm_compute; reflexivity].
    + apply (step_poll msg_ty resp_ty err_ty _ _ (Response 0 (Ok VUnit))).
      simpl. apply (buffer_response [] 0 []).
    + apply step_exec. reflexivity.
  - reflexivity.
  - vm_compute. reflexivity.
  - vm_compute. reflexivity.
Qed.

(** A run with limit 1, a strategy whose queue has no room, and two
    producers: the first producer's send is refused. *)
Lemma refused_send_run :
  exists a, reachable msg_ty resp_ty err_ty (adm_init 1 4 (mkBuffer [] 0 false []) 2) a /\
            Z.of_nat (sum_list (map refused (atasks a))) = 1%Z.
Proof.
  eexists. split.
  - eapply reach_step; [eapply reach_step; [eapply reach_step; [apply reach_init|]|]|].
    + apply (step_reserve msg_ty resp_ty err_ty _ _ _ _ 0%nat RLoad (RCas 0)); reflexivity.
    + eapply (step_reserve msg_ty resp_ty err_ty _ _ _ _ 0%nat (RCas 0)); reflexivity.
    + eapply (step_send msg_ty resp_ty err_ty _ _ _ _ 0%nat 0 VUnit); [reflexivity|].
      vm_compute. reflexivity.
  - vm_compute. reflexivity.
Qed.

Lemma refused_sends_block_admission_witness :
  exists a, reachable msg_ty resp_ty err_ty (adm_init 1 4 (mkBuffer [] 0 false []) 2) a /\
    processing (context (aw a)) = 1%Z /\
    reserve_step (context (aw a)) RLoad = (RDone None, context (aw a)).
Proof.
  destruct refused_send_run as (a & Hr & Hcnt).
  destruct (refused_sends_block_admission msg_ty resp_ty err_ty 1 4 (mkBuffer [] 0 false []) 2 a a)
    as (Hp & _ & Hres);
    [unfold u64_modulus; lia | reflexivity | exact Hr | exact Hcnt | apply reach_init |].
  exists a. split_and!; [exact Hr|exact Hp|exact Hres].
Defined.

Lemma admission_invariant_witness :
  exists a, reachable msg_ty resp_ty err_ty (adm_init 1 4 (mkBuffer [] 0 false []) 2) a /\
    (0 <= processing (context (aw a)) <= 1)%Z /\
    processing (context (aw a)) = Z.of_nat (accounted a).
Proof.
  destruct refused_send_run as (a & Hr & _).
  exists a. split; [exact Hr|].
  apply (admission_invariant msg_ty resp_ty err_ty 1 4 (mkBuffer [] 0 false []) 2 a);
    [unfold u64_modulus; lia | reflexivity | exact Hr].
Defined.
