(* ===== verification/Reserve.v ===== *)
(** * [Receiver::reserve] and the wakeup of its waiters

    [Receiver::reserve] (receiver.rs:717-727) loops: [try_reserve], and
    when that gives [None], [reserve_notify(tt).notified().await], which
    waits on the context's [response] [Notify].  The only
    [response.notify_one()] of the program is in the [Response] arm of the
    event-poll loop (line 228); [PermitDrop::permit_drop] (lines 634-637)
    gives the unit back with [processing.fetch_sub(1)] and wakes no one.

    On the interleaving of [Admission.v] ([astep]), [quiet_astep] is a
    step after which the loop has no [response] notification left to
    run: the strategy hands over no [Response].  The theorem: a producer
    that drops its permit while another one awaits [reserve_notify]
    leaves that one waiting in every quiet run, though [processing] is
    back below [limit]: the waiter is woken only by a later [Response],
    and none comes when nothing was sent. *)

From S2P Require Import Prelude Envelope Errors Runtime Protocol Context Wrapper AnyReceiver Receiver Admission.

Local Open Scope mb_scope.

(** The operations of the loop that touch the [response] [Notify]. *)
Definition no_response_op (op : LoopOp) : bool :=
  match op with
  | OpNotifyOneResponse | OpNotifyWaiters NResponse => false
  | _ => true
  end.

Section Reserve.
Context {S : Type} `{Strategy S}.
Context (M_ty R_ty E_ty : RTy).

(** A step after which no operation on [response] is left in the loop. *)
Definition quiet_astep (a a' : AState S) : Prop :=
  astep M_ty R_ty E_ty a a' /\ forallb no_response_op (aloop a') = true.

(** Task [i] awaits [reserve_notify] and its [Notified] future cannot
    complete: it was not woken and no [notify_one] permit is stored. *)
Definition stranded (i : nat) (a : AState S) : Prop :=
  atasks a !! i = Some TWait /\
  (i ∉ Notify.woken (Context.response (context (aw a)))) /\
  Notify.permit (Context.response (context (aw a))) = false /\
  forallb no_response_op (aloop a) = true.

(** ** Lemmas *)

Lemma reserve_step_response c st st' c' :
  reserve_step c st = (st', c') -> Context.response c' = Context.response c.
Proof. destruct st; simpl; repeat case_decide; by intros [= _ <-]. Qed.

Lemma exec_op_response op (w w' : ReceiverWrapper S) go :
  no_response_op op = true -> exec_op R_ty E_ty op w = Done (w', go) ->
  Context.response (context w') = Context.response (context w).
Proof.
  destruct op as [b|[]| | |mid r| |]; simpl; intros Hop Hx; simplify_eq; try done.
  destruct (response R_ty E_ty mid r w) as [[res w2]|] eqn:Hr; simplify_eq/=.
  by apply response_effect in Hr as [-> _].
Qed.

Lemma send_typed_response M2 mid v (w w' : ReceiverWrapper S) res :
  send_typed M_ty M2 mid v w = Done (res, w') -> Context.response (context w') = Context.response (context w).
Proof. intros Hs. by apply send_typed_effect in Hs as [-> _]. Qed.

Definition resp_of (a : AState S) : Notify.t := Context.response (context (aw a)).

(** What a step does to [response]: nothing, a [notified()], or the
    completion of a [Notified] future. *)
Lemma astep_resp a a' :
  astep M_ty R_ty E_ty a a' -> forallb no_response_op (aloop a) = true ->
  resp_of a' = resp_of a \/ (exists j, resp_of a' = Notify.notified j (resp_of a)) \/
  (exists j, Notify.poll j (resp_of a) = Some (resp_of a')).
Proof.
  unfold resp_of.
  destruct 1 as [w lp ex ts j st st' c' Hj Hr|w lp ex ts j Hj|w lp ex ts j n' Hj Hpoll
      |w lp ex ts j mid v res w' Hj Hsend|w lp ex ts j Hj|w lp ex ts j mid v res w' Hj Hsend
      |w ts ev s' Hev|w op rest ex ts w' go Hop]; simpl; intros Hl.
  - left. by eapply reserve_step_response.
  - right; left. by exists j.
  - right; right. by exists j.
  - left. by apply receiver_send_effect in Hsend as [-> _].
  - by left.
  - left. by eapply send_typed_response.
  - by left.
  - left. apply andb_prop in Hl as [Hno _]. by eapply exec_op_response.
Qed.

(** A [Notified] future that was not woken, with no stored permit, stays
    so through the other tasks' [notified()] and completions. *)
Lemma stranded_notify i n n' :
  i ∉ Notify.woken n -> Notify.permit n = false ->
  n' = n \/ (exists j, n' = Notify.notified j n) \/ (exists j, Notify.poll j n = Some n') ->
  (i ∉ Notify.woken n') /\ Notify.permit n' = false.
Proof.
  intros Hw Hp [->|[[j ->]|[j Hpoll]]]; [done|done|].
  unfold Notify.poll in Hpoll. rewrite Hp in Hpoll. case_decide; simplify_eq/=.
  rewrite list_elem_of_filter. tauto.
Qed.

(** Another task's step leaves task [i] where it is; its own [Notified]
    future cannot complete. *)
Lemma astep_task_stranded i a a' :
  astep M_ty R_ty E_ty a a' -> stranded i a -> atasks a' !! i = Some TWait.
Proof.
  intros Hs (Hi & Hw & Hp & _). revert Hi Hw Hp.
  destruct Hs as [w lp ex ts j st st' c' Hj Hr|w lp ex ts j Hj|w lp ex ts j n' Hj Hpoll
      |w lp ex ts j mid v res w' Hj Hsend|w lp ex ts j Hj|w lp ex ts j mid v res w' Hj Hsend
      |w ts ev s' Hev|w op rest ex ts w' go Hop]; simpl; intros Hi Hw Hp; try done;
    (destruct (decide (i = j)) as [->|Hij]; [|by rewrite list_lookup_insert_ne]);
    try congruence.
  exfalso. unfold Notify.poll, notify_of in Hpoll. rewrite Hp in Hpoll. by case_decide.
Qed.

(** No step but a [Response] frees a stranded waiter. *)
Lemma quiet_astep_stranded i a a' : stranded i a -> quiet_astep a a' -> stranded i a'.
Proof.
  intros Hst [Hs Hq]. pose proof Hst as (_ & Hw & Hp & Hl).
  destruct (stranded_notify i _ _ Hw Hp (astep_resp a a' Hs Hl)).
  split_and!; [by eapply astep_task_stranded|done|done|done].
Qed.

Lemma quiet_rtc_stranded i a a' : stranded i a -> rtc quiet_astep a a' -> stranded i a'.
Proof. intros Hs Hr. induction Hr; eauto using quiet_astep_stranded. Qed.

(** ** The sequential [try_reserve] is a run of the interleaving *)

Lemma reach_cons a0 a a' :
  astep M_ty R_ty E_ty a0 a -> reachable M_ty R_ty E_ty a a' -> reachable M_ty R_ty E_ty a0 a'.
Proof.
  intros Hs Hr. induction Hr as [|b b' _ IH Hs']; [|by eapply reach_step].
  eapply reach_step; [apply reach_init|exact Hs].
Qed.

Lemma reserve_loop_done f c q : reserve_loop f c (RDone q) = Some (q, c).
Proof. by destruct f. Qed.

(** The loop of one task, run with fuel without the other tasks in
    between, is a run of [astep] that leaves the task where the loop
    breaks. *)
Lemma reserve_loop_run fuel w lp ex ts i st p c' :
  ts !! i = Some (TReserve st) -> (forall q, st <> RDone q) ->
  reserve_loop fuel (context w) st = Some (p, c') ->
  reachable M_ty R_ty E_ty (mkA w lp ex ts)
            (mkA (set_context c' w) lp ex (<[i := after_reserve (RDone p)]> ts)).
Proof.
  revert w ts st. induction fuel as [|f IH]; intros w ts st Hi Hst Hloop.
  { destruct st as [| |q]; [done|done|by destruct (Hst q)]. }
  destruct st as [|count|q]; [| |by destruct (Hst q)];
    cbn [reserve_loop] in Hloop; destruct (reserve_step (context w) _) as [st1 c1] eqn:Hr;
    (eapply reach_cons; [by eapply step_reserve|]);
    (destruct st1 as [| |q]; [| |rewrite reserve_loop_done in Hloop; simplify_eq;
                                  apply reach_init]);
    (replace (set_context c' w) with (set_context c' (set_context c1 w)) by reflexivity;
     match goal with |- reachable _ _ _ (mkA _ _ _ (<[i:=?t]> ts)) _ =>
       rewrite <-(list_insert_insert_eq ts i (after_reserve (RDone p)) t) end;
     eapply IH; [by rewrite list_lookup_insert_eq by (by eapply lookup_lt_Some)|done|done]).
Qed.

(** C22: [ReceiverWrapper::try_reserve] (lines 417-440) run by one
    producer of the interleaved model without the others stepping in
    between: from any state where the producer is at the start of the
    loop, its own atomic steps reach the state where it holds a fresh
    permit and [processing] is one higher, when [processing < limit], and
    otherwise the state where it goes on to await [reserve_notify] with
    the context unchanged. *)
Theorem try_reserve_is_a_run w lp ex ts i :
  ts !! i = Some (TReserve RLoad) ->
  reachable M_ty R_ty E_ty (mkA w lp ex ts)
    (if decide (processing (context w) < limit (context w))%Z
     then mkA (set_context (set_processing (processing (context w) + 1) (context w)) w) lp ex
              (<[i := THold]> ts)
     else mkA (set_context (context w) w) lp ex (<[i := TRegister]> ts)).
Proof.
  intros Hi. case_decide as Hlt.
  - apply (reserve_loop_run 2 w lp ex ts i RLoad (Some (mkPermit false))); [done|done|].
    simpl. rewrite decide_True by done. simpl. by rewrite decide_True.
  - apply (reserve_loop_run 2 w lp ex ts i RLoad None); [done|done|].
    simpl. by rewrite decide_False.
Qed.

End Reserve.

(** ** A dropped permit wakes no one *)

Section ReserveRun.
Local Open Scope Z_scope.

(** C14: [permit_drop] gives the unit back without
    [response.notify_one()], so a producer waiting in [Receiver::reserve]
    is not woken when another drops its permit: with [limit] 1, one
    producer takes the permit, the other finds none and awaits
    [reserve_notify]; the first drops its permit unsent.  Then
    [processing] is 0, below [limit], and in every run where no
    [Response] is handed over the second producer still waits. *)
Theorem cancelled_permit_strands_reserver :
  exists a, reachable msg_ty resp_ty err_ty (adm_init 1 4 (mkBuffer [] 1 false []) 2) a /\
    atasks a = [TCancelled; TWait] /\
    processing (context (aw a)) = 0 /\ processing (context (aw a)) < limit (context (aw a)) /\
    forall a', rtc (quiet_astep msg_ty resp_ty err_ty) a a' -> atasks a' !! 1%nat = Some TWait.
Proof.
  eexists. split_and!.
  - eapply reach_step; [eapply reach_step; [eapply reach_step; [eapply reach_step;
      [eapply reach_step; [apply reach_init|]|]|]|]|].
    + apply (step_reserve msg_ty resp_ty err_ty _ _ _ _ 0%nat RLoad (RCas 0)); reflexivity.
    + eapply (step_reserve msg_ty resp_ty err_ty _ _ _ _ 0%nat (RCas 0)); reflexivity.
    + eapply (step_reserve msg_ty resp_ty err_ty _ _ _ _ 1%nat RLoad); reflexivity.
    + eapply (step_register msg_ty resp_ty err_ty _ _ _ _ 1%nat); reflexivity.
    + eapply (step_cancel msg_ty resp_ty err_ty _ _ _ _ 0%nat); reflexivity.
  - reflexivity.
  - reflexivity.
  - reflexivity.
  - intros a' Hr. eapply quiet_rtc_stranded in Hr; [apply Hr|].
    split_and!; [reflexivity|set_solver|reflexivity|reflexivity].
Qed.

(** A producer alone on a fresh receiver (limit 1) takes the permit. *)
Lemma try_reserve_is_a_run_witness :
  exists a, reachable msg_ty resp_ty err_ty (mkA (ex_receiver 1%nat) [] false [TReserve RLoad]) a /\
            atasks a = [THold] /\ processing (context (aw a)) = 1.
Proof.
  eexists. split.
  - apply (try_reserve_is_a_run msg_ty resp_ty err_ty _ _ _ _ 0%nat). reflexivity.
  - split; reflexivity.
Defined.

End ReserveRun.
