(* ===== verification/Stats.v ===== *)
(** * [ReceiverStats] and its [Display]

    [ReceiverStats] (receiver.rs, lines 598-602) is a name and a list of
    named [u64] counters; its [Display] (lines 604-620) writes
    [-- name: { k1: v1, k2: v2 }].  The formatter is taken to write into a
    [String] ([to_string]), which does not fail, so the [?] after each
    [write!] never returns early.  A [u64] is written in decimal, as
    [Display for u64] does: [NilZero.string_of_uint] of its digits.

    The theorem is a round trip: the text is read back by
    [parse_receiver_stats] when the name and the counter names have no
    [':'], so two such stats never print the same; with a [':'] in a
    counter's name two different stats may print the same text. *)

From Stdlib Require Import Ascii DecimalString DecimalN.
From S2P Require Import Prelude.

Local Open Scope string_scope.

Record ReceiverStats : Type := mkReceiverStats {
  rs_name : string;
  rs_fields : list (string * Z)
}.

(** [Display for u64]. *)
Definition u64_display (v : Z) : string := NilZero.string_of_uint (N.to_uint (Z.to_N v)).

(** The loop over [self.fields.iter().enumerate()]: [", "] before every
    field but the first, then [write!(f, "{}: {}", k, v)]. *)
Fixpoint fmt_fields (idx : nat) (fs : list (string * Z)) : string :=
  match fs with
  | [] => ""
  | (k, v) :: fs' =>
      (if decide (idx <> 0) then ", " else "") +:+ (k +:+ ": " +:+ u64_display v) +:+
      fmt_fields (S idx) fs'
  end.

(** [impl fmt::Display for ReceiverStats]. *)
Definition receiver_stats_fmt (s : ReceiverStats) : string :=
  "-- " +:+ rs_name s +:+ ": { " +:+ fmt_fields 0 (rs_fields s) +:+ " }".

(** ** Reading the text back *)

Fixpoint has_char (c : ascii) (s : string) : bool :=
  match s with
  | EmptyString => false
  | String a s' => Ascii.eqb a c || has_char c s'
  end.

(** The text before the first [c], and the text after it. *)
Fixpoint split_at (c : ascii) (s : string) : option (string * string) :=
  match s with
  | EmptyString => None
  | String a s' =>
      if Ascii.eqb a c then Some (EmptyString, s')
      else (fun pr => (String a pr.1, pr.2)) <$> split_at c s'
  end.

Definition is_digit (a : ascii) : bool :=
  (Nat.leb 48 (nat_of_ascii a) && Nat.leb (nat_of_ascii a) 57)%bool.

Fixpoint take_digits (s : string) : string * string :=
  match s with
  | String a s' => if is_digit a then let '(d, r) := take_digits s' in (String a d, r) else ("", s)
  | EmptyString => ("", "")
  end.

Definition parse_u64 (d : string) : option Z :=
  (fun u => Z.of_N (N.of_uint u)) <$> NilZero.uint_of_string d.

(** The fields and the closing [" }"]. *)
Fixpoint parse_fields (fuel : nat) (s : string) : option (list (string * Z)) :=
  match fuel with
  | O => None
  | S fuel' =>
      if String.eqb s " }" then Some [] else
      match split_at ":" s with
      | Some (k, String " " r) =>
          let '(d, r') := take_digits r in
          match parse_u64 d with
          | Some v =>
              match r' with
              | String "," (String " " r'') => (fun fs => (k, v) :: fs) <$> parse_fields fuel' r''
              | _ => if String.eqb r' " }" then Some [(k, v)] else None
              end
          | None => None
          end
      | _ => None
      end
  end%char.

Definition parse_receiver_stats (s : string) : option ReceiverStats :=
  match s with
  | String "-" (String "-" (String " " r)) =>
      match split_at ":" r with
      | Some (n, String " " (String "{" (String " " r'))) =>
          mkReceiverStats n <$> parse_fields (String.length r') r'
      | _ => None
      end
  | _ => None
  end%char.

(** ** Lemmas *)

Fixpoint all_digits (s : string) : bool :=
  match s with EmptyString => true | String a s' => is_digit a && all_digits s' end.

Definition starts_nondigit (s : string) : bool :=
  match s with EmptyString => true | String a _ => negb (is_digit a) end.

Lemma split_at_app c p r :
  has_char c p = false -> split_at c (p +:+ String c r) = Some (p, r).
Proof.
  induction p as [|a p IH]; simpl; [by rewrite Ascii.eqb_refl|].
  intros [Ha Hp]%orb_false_iff. rewrite Ha, IH by done. reflexivity.
Qed.

Lemma has_char_app c p r : has_char c (p +:+ String c r) = true.
Proof. induction p as [|a p IH]; simpl; [by rewrite Ascii.eqb_refl|]. by rewrite IH, orb_true_r. Qed.

Lemma take_digits_app d r :
  all_digits d = true -> starts_nondigit r = true -> take_digits (d +:+ r) = (d, r).
Proof.
  intros Hd Hr. induction d as [|a d IH]; simpl in *.
  - destruct r as [|b r]; [done|]. simpl in *. by destruct (is_digit b).
  - apply andb_true_iff in Hd as [-> Hd]. by rewrite IH.
Qed.

Lemma all_digits_uint d : all_digits (NilEmpty.string_of_uint d) = true.
Proof. induction d; simpl; auto. Qed.

Lemma u64_display_digits v : all_digits (u64_display v) = true.
Proof.
  unfold u64_display, NilZero.string_of_uint.
  destruct (N.to_uint (Z.to_N v)); [done|..]; apply (all_digits_uint (_ _)).
Qed.

Lemma parse_u64_display v : (0 <= v)%Z -> parse_u64 (u64_display v) = Some v.
Proof.
  intros Hv. unfold parse_u64, u64_display.
  pose proof (DecimalN.Unsigned.of_to (Z.to_N v)) as Hof.
  destruct (N.to_uint (Z.to_N v)) eqn:Hd; [simpl in *; f_equal; lia|..];
    rewrite NilZero.usu by discriminate; cbn -[N.of_uint]; rewrite Hof; f_equal; lia.
Qed.

Lemma eqb_close_false s : has_char ":" s = true -> String.eqb s " }" = false.
Proof. intros H. destruct (String.eqb_spec s " }") as [->|]; [discriminate|done]. Qed.

Lemma fmt_fields_S i fs : fmt_fields (S i) fs = fmt_fields 1 fs.
Proof. revert i. induction fs as [|[k v] fs IH]; intros i; [done|]. simpl. by rewrite (IH (S i)), (IH 1). Qed.

Lemma fmt_fields_1 fs :
  fmt_fields 1 fs = match fs with [] => EmptyString | _ => ", " +:+ fmt_fields 0 fs end.
Proof. destruct fs as [|[k v] fs]; [done|]. simpl. by rewrite (fmt_fields_S 1). Qed.

Lemma length_fmt_fields i fs : length fs <= String.length (fmt_fields i fs).
Proof.
  revert i. induction fs as [|[k v] fs IH]; intros i; simpl; [lia|].
  rewrite !length_append. specialize (IH (S i)). simpl. lia.
Qed.

(** A counter name without [':'] and a [u64] value. *)
Definition field_ok (f : string * Z) : Prop := has_char ":" f.1 = false /\ is_u64 f.2 = true.

Lemma parse_fields_fmt fs fuel :
  Forall field_ok fs -> length fs < fuel -> parse_fields fuel (fmt_fields 0 fs +:+ " }") = Some fs.
Proof.
  revert fuel. induction fs as [|[k v] fs IH]; intros fuel Hok Hlen;
    (destruct fuel as [|fuel]; [simpl in Hlen; lia|]); [reflexivity|].
  apply Forall_cons in Hok as [[Hk Hv] Hok]. simpl in Hk, Hv. apply is_u64_spec in Hv.
  assert (Hs : fmt_fields 0 ((k, v) :: fs) +:+ " }" =
               k +:+ String ":" (String " " (u64_display v +:+ (fmt_fields 1 fs +:+ " }")))).
  { simpl. by repeat rewrite <-append_assoc. }
  rewrite Hs. simpl. rewrite eqb_close_false by apply has_char_app. rewrite split_at_app by done.
  rewrite take_digits_app; [|apply u64_display_digits|by rewrite fmt_fields_1; destruct fs].
  rewrite parse_u64_display by lia. rewrite fmt_fields_1.
  destruct fs as [|f fs]; [reflexivity|]. rewrite <-append_assoc. simpl.
  rewrite IH; [done|done|simpl in *; lia].
Qed.

(** C33: the [Display] of [ReceiverStats] reads back: a stats whose name
    and counter names have no [':'] is recovered from its text, so two
    such stats never print the same. *)
Theorem receiver_stats_display_roundtrip s :
  has_char ":" (rs_name s) = false -> Forall field_ok (rs_fields s) ->
  parse_receiver_stats (receiver_stats_fmt s) = Some s.
Proof.
  destruct s as [n fs]; simpl. intros Hn Hfs. unfold receiver_stats_fmt; simpl.
  assert (Hs : n +:+ ": { " +:+ fmt_fields 0 fs +:+ " }" =
               n +:+ String ":" (String " " (String "{" (String " " (fmt_fields 0 fs +:+ " }"))))).
  { done. }
  rewrite Hs. autorewrite with mb. simpl. rewrite split_at_app by done. simpl.
  rewrite parse_fields_fmt; [done|done|].
  rewrite length_append. pose proof (length_fmt_fields 0 fs). simpl. lia.
Qed.

(** With a [':'] in a counter's name, two different stats print the
    same text. *)
Lemma receiver_stats_fmt_collision :
  receiver_stats_fmt (mkReceiverStats "x" [("a: 1, b", 2%Z)]) =
  receiver_stats_fmt (mkReceiverStats "x" [("a", 1%Z); ("b", 2%Z)]).
Proof. reflexivity. Qed.

Definition stats_ex : ReceiverStats :=
  mkReceiverStats "BufferUnorderedAsync" [("buffer", 3%Z); ("buffer_total", 8%Z); ("parallel", 1%Z)].

Lemma receiver_stats_display_roundtrip_witness :
  parse_receiver_stats (receiver_stats_fmt stats_ex) = Some stats_ex.
Proof.
  apply receiver_stats_display_roundtrip; [reflexivity|].
  repeat constructor.
Defined.
