(* ===== verification/Bus.v ===== *)
(** * The bus the examples run on

    The examples of [src/examples/] are clients of [Bus], which is not
    under [src/]: its dispatch is modelled from the spec (6, "Runtime API
    on the bus"): [send] goes through the receiver registry to every
    subscription whose [accept] holds for the message's tag, after taking a
    permit of each ([reserve], bounded by the subscription's capacity, the
    [limit] of its [ReceiverContext]); [flush] and [close] return once the
    handlers at work have finished.  A handler invocation or [main] is a
    task running its body one statement at a time; the tasks interleave
    freely ([bstep] picks any task, through a permutation of the pool).

    The theorems are generic in the subscriptions, under the hypothesis
    that the handlers' sends are ranked (a handler of type [ty] sends only
    types of smaller rank, as in every example): every run terminates
    ([bus_terminates]), a state with a task left can always step
    ([bus_progress]: sends block only on a full subscription, whose
    handlers are of smaller rank), the lines printed are, as a multiset,
    the same in every run ([bus_log_inv]: they are the [trace] of [main]),
    and no subscription ever has more invocations at work than its
    capacity ([bus_live_bound]). *)

From S2P Require Import Prelude.

Local Open Scope mb_scope.

(** One statement of a handler's body or of [main]. *)
Inductive Stmt (T : Type) : Type :=
| SPrint (fmt : string) (args : list Z)   (** [println!(fmt, args..)] *)
| SSleep (secs : Z)                       (** [std::thread::sleep] *)
| SSend (ty : T) (v : Z)                  (** [bus.send(v).await?] *)
| SFlush                                  (** [bus.flush().await] *)
| SClose.                                 (** [bus.close().await] *)
Arguments SPrint {T} fmt args.
Arguments SSleep {T} secs.
Arguments SSend {T} ty v.
Arguments SFlush {T}.
Arguments SClose {T}.

(** A printed line: the format string and its arguments. *)
Abbreviation Line := (string * list Z)%type.

(** A subscription of [register(h).subscribe_*::<M>(cap, ..)]: the
    handler registered, the message type, the capacity and the body of
    [handle] for a message's value. *)
Record Sub (T : Type) : Type := mkSub {
  sub_recv : string;
  sub_ty : T;
  sub_cap : nat;
  sub_handle : Z -> list (Stmt T)
}.
Arguments mkSub {T}.
Arguments sub_recv {T}.
Arguments sub_ty {T}.
Arguments sub_cap {T}.
Arguments sub_handle {T}.

(** A task: a handler invocation of subscription [t_sub], or [main]
    ([None]), with the statements it has left. *)
Record Task (T : Type) : Type := mkTask {
  t_sub : option nat;
  t_body : list (Stmt T)
}.
Arguments mkTask {T}.
Arguments t_sub {T}.
Arguments t_body {T}.

Record BState (T : Type) : Type := mkBS {
  tasks : list (Task T);
  blog : list Line
}.
Arguments mkBS {T}.
Arguments tasks {T}.
Arguments blog {T}.

(** What a body's run will do: each statement it or a handler it
    triggers executes, each line printed, each task ending. *)
Inductive Ev : Type :=
| EvLine (l : Line)
| EvStep
| EvDone.

Definition ev_line (e : Ev) : option Line :=
  match e with EvLine l => Some l | _ => None end.

Section Bus.
Context {T : Type} `{EqDecision T}.
Context (subs : list (Sub T)).

(** The subscriptions whose [accept] holds for a message of type [ty],
    with their index in the registry. *)
Definition accepting (ty : T) : list (nat * Sub T) :=
  filter (fun p => sub_ty p.2 = ty) (imap pair subs).

(** The tasks of subscription [o] ([None]: [main]). *)
Definition tasks_of (o : option nat) (ts : list (Task T)) : nat :=
  length (filter (fun t => t_sub t = o) ts).

(** The invocations of subscription [i] at work: each holds a permit. *)
Definition live (i : nat) (ts : list (Task T)) : nat := tasks_of (Some i) ts.

(** [reserve] succeeds on every accepting subscription. *)
Definition admits (ty : T) (ts : list (Task T)) : bool :=
  forallb (fun p => bool_decide (live p.1 ts < sub_cap p.2)) (accepting ty).

(** The handler invocations a send starts. *)
Definition spawn (ty : T) (v : Z) : list (Task T) :=
  map (fun p => mkTask (Some p.1) (sub_handle p.2 v)) (accepting ty).

Definition finished (t : Task T) : Prop := t_body t = [].

Definition barrier (st : Stmt T) : bool :=
  match st with SFlush | SClose => true | _ => false end.

Inductive bstep : BState T -> BState T -> Prop :=
| bs_print ts rest sid f a body lg :
    ts ≡ₚ mkTask sid (SPrint f a :: body) :: rest ->
    bstep (mkBS ts lg) (mkBS (mkTask sid body :: rest) (lg ++ [(f, a)]))
| bs_sleep ts rest sid n body lg :
    ts ≡ₚ mkTask sid (SSleep n :: body) :: rest ->
    bstep (mkBS ts lg) (mkBS (mkTask sid body :: rest) lg)
| bs_send ts rest sid ty v body lg :
    ts ≡ₚ mkTask sid (SSend ty v :: body) :: rest ->
    accepting ty <> [] -> admits ty ts = true ->
    bstep (mkBS ts lg) (mkBS (mkTask sid body :: rest ++ spawn ty v) lg)
| bs_send_none ts rest sid ty v body lg :
    (** [Error::NoReceivers]: the [?] ends the body *)
    ts ≡ₚ mkTask sid (SSend ty v :: body) :: rest ->
    accepting ty = [] ->
    bstep (mkBS ts lg) (mkBS (mkTask sid [] :: rest) lg)
| bs_barrier ts rest sid st body lg :
    ts ≡ₚ mkTask sid (st :: body) :: rest ->
    barrier st = true -> Forall finished rest ->
    bstep (mkBS ts lg) (mkBS (mkTask sid body :: rest) lg)
| bs_done ts rest sid lg :
    ts ≡ₚ mkTask sid [] :: rest ->
    bstep (mkBS ts lg) (mkBS rest lg).

(** The run of a body, given the runs of the handlers a send triggers. *)
Fixpoint trace_go (child : T -> Z -> list Ev) (ss : list (Stmt T)) : list Ev :=
  match ss with
  | [] => [EvDone]
  | SPrint f a :: ss' => EvLine (f, a) :: trace_go child ss'
  | SSend ty v :: ss' =>
      if bool_decide (accepting ty = []) then [EvStep; EvDone]
      else EvStep :: child ty v ++ trace_go child ss'
  | _ :: ss' => EvStep :: trace_go child ss'
  end.

(** The run of a body, handlers triggered included, [n] levels deep. *)
Fixpoint trace (n : nat) (ss : list (Stmt T)) : list Ev :=
  trace_go (fun ty v => match n with
                        | O => []
                        | S k => accepting ty ≫= (fun p => trace k (sub_handle p.2 v))
                        end) ss.

Definition trace_child (n : nat) (ty : T) (v : Z) : list Ev :=
  match n with
  | O => []
  | S k => accepting ty ≫= (fun p => trace k (sub_handle p.2 v))
  end.

Lemma trace_eq n ss : trace n ss = trace_go (trace_child n) ss.
Proof. by destruct n. Qed.

(** ** A scheduler

    An executable choice of steps: the first task that can step does.
    Its runs are runs of [bstep], so a concrete run is computed rather
    than written out. *)

Definition try_step (ts : list (Task T)) (t : Task T) (rest : list (Task T)) (lg : list Line)
  : option (BState T) :=
  match t_body t with
  | [] => Some (mkBS rest lg)
  | SPrint f a :: b => Some (mkBS (mkTask (t_sub t) b :: rest) (lg ++ [(f, a)]))
  | SSleep _ :: b => Some (mkBS (mkTask (t_sub t) b :: rest) lg)
  | SSend ty v :: b =>
      if bool_decide (accepting ty = []) then Some (mkBS (mkTask (t_sub t) [] :: rest) lg)
      else if admits ty ts then Some (mkBS (mkTask (t_sub t) b :: rest ++ spawn ty v) lg)
      else None
  | _ :: b =>
      if forallb (fun u => bool_decide (finished u)) rest
      then Some (mkBS (mkTask (t_sub t) b :: rest) lg) else None
  end.

Fixpoint pick_from (ts before after : list (Task T)) (lg : list Line) : option (BState T) :=
  match after with
  | [] => None
  | t :: after' =>
      match try_step ts t (before ++ after') lg with
      | Some st' => Some st'
      | None => pick_from ts (before ++ [t]) after' lg
      end
  end.

Definition sched_step (st : BState T) : option (BState T) := pick_from (tasks st) [] (tasks st) (blog st).

Fixpoint sched_run (n : nat) (st : BState T) : BState T :=
  match n with
  | O => st
  | S k => match sched_step st with Some st' => sched_run k st' | None => st end
  end.

Lemma try_step_sound ts t rest lg st' :
  ts ≡ₚ t :: rest -> try_step ts t rest lg = Some st' -> bstep (mkBS ts lg) st'.
Proof.
  destruct t as [sid [|x b]]; unfold try_step; simpl; intros Hp Hs.
  { injection Hs as <-. by eapply bs_done. }
  destruct x as [f a|n|ty v| |]; simplify_eq.
  - by eapply bs_print.
  - by eapply bs_sleep.
  - case_bool_decide; [simplify_eq; by eapply bs_send_none|].
    destruct (admits ty ts) eqn:Ha; simplify_eq. by eapply bs_send.
  - destruct (forallb _ rest) eqn:Hf; simplify_eq. eapply bs_barrier; [done|done|].
    apply Forall_forall. intros u Hu. rewrite forallb_forall in Hf.
    apply list_elem_of_In, Hf in Hu. by apply bool_decide_eq_true in Hu.
  - destruct (forallb _ rest) eqn:Hf; simplify_eq. eapply bs_barrier; [done|done|].
    apply Forall_forall. intros u Hu. rewrite forallb_forall in Hf.
    apply list_elem_of_In, Hf in Hu. by apply bool_decide_eq_true in Hu.
Qed.

Lemma pick_from_sound ts before after lg st' :
  before ++ after = ts -> pick_from ts before after lg = Some st' -> bstep (mkBS ts lg) st'.
Proof.
  revert before. induction after as [|t after IH]; intros before Hts; simpl; [done|].
  destruct (try_step ts t (before ++ after) lg) eqn:Hs.
  - intros [= <-]. eapply try_step_sound; [|exact Hs]. rewrite <-Hts. by rewrite Permutation_middle.
  - apply IH. by rewrite <-app_assoc.
Qed.

Lemma bstep_nil lg st' : ~ bstep (mkBS [] lg) st'.
Proof. inversion 1; by eapply Permutation_nil_cons. Qed.

Lemma sched_run_rtc n st : rtc bstep st (sched_run n st).
Proof.
  revert st. induction n as [|n IH]; intros st; simpl; [done|].
  destruct (sched_step st) as [st'|] eqn:Hs; [|done].
  eapply rtc_l; [|apply IH]. destruct st as [ts lg]. by apply (pick_from_sound ts [] ts lg).
Qed.

Section Ranked.
Context (rank : T -> nat) (top : nat).
Hypothesis rank_top : forall ty, rank ty < top.

Definition stmt_below (r : nat) (st : Stmt T) : Prop :=
  match st with SSend ty _ => rank ty < r | SFlush | SClose => False | _ => True end.

Definition main_stmt (st : Stmt T) : Prop :=
  match st with SSend ty _ => rank ty < top | _ => True end.

(** Handlers send only to smaller ranks and never flush or close. *)
Hypothesis handlers_ranked :
  forall i s v, subs !! i = Some s -> Forall (stmt_below (rank (sub_ty s))) (sub_handle s v).

Definition task_ok (t : Task T) : Prop :=
  match t_sub t with
  | Some i => exists s, subs !! i = Some s /\ Forall (stmt_below (rank (sub_ty s))) (t_body t)
  | None => Forall main_stmt (t_body t)
  end.

Definition ttrace (t : Task T) : list Ev := trace top (t_body t).

Definition state_trace (st : BState T) : list Ev := tasks st ≫= ttrace.

(** The rank of the task's handler; [main] is above every handler. *)
Definition level (t : Task T) : nat :=
  match t_sub t with
  | Some i => from_option (fun s => rank (sub_ty s)) 0 (subs !! i)
  | None => top
  end.

Definition mains (ts : list (Task T)) : nat := tasks_of None ts.

Lemma elem_of_accepting ty p :
  p ∈ accepting ty <-> subs !! p.1 = Some p.2 /\ sub_ty p.2 = ty.
Proof.
  unfold accepting. rewrite list_elem_of_filter, elem_of_lookup_imap.
  destruct p as [i s]; simpl. naive_solver.
Qed.

(** Deeper fuel does not change the run of a ranked body. *)
Lemma trace_stable r : forall ss n,
  Forall (stmt_below r) ss -> r <= n -> trace n ss = trace r ss.
Proof.
  induction r as [r IH] using lt_wf_ind. intros ss n Hss Hn.
  induction Hss as [|st ss Hst Hss IHss]; [by destruct n, r|].
  rewrite !trace_eq in IHss |- *.
  destruct st as [f a|m|ty v| |]; simpl in *; try (by rewrite IHss || done).
  case_bool_decide; [done|]. destruct n as [|n]; [lia|]. destruct r as [|r]; [lia|].
  rewrite IHss. do 2 f_equal. simpl. apply Forall_bind_ext, Forall_forall.
  intros p Hp%elem_of_accepting. destruct Hp as [Hs <-].
  specialize (handlers_ranked _ _ v Hs).
  rewrite (IH (rank (sub_ty p.2)) Hst _ n), (IH (rank (sub_ty p.2)) Hst _ r); auto with lia.
Qed.

Lemma trace_handler p ty v n :
  p ∈ accepting ty -> rank ty <= n -> trace n (sub_handle p.2 v) = trace (rank ty) (sub_handle p.2 v).
Proof.
  intros [Hs <-]%elem_of_accepting Hn. apply trace_stable; [|done].
  by apply (handlers_ranked p.1).
Qed.

Lemma ttrace_perm ts t rest : ts ≡ₚ t :: rest -> ts ≫= ttrace ≡ₚ ttrace t ++ rest ≫= ttrace.
Proof. intros ->. by rewrite bind_cons. Qed.

Lemma spawn_trace ty v : spawn ty v ≫= ttrace = trace_child top ty v.
Proof.
  assert (Hk : exists k, top = S k) by (exists (top - 1); specialize (rank_top ty); lia).
  destruct Hk as [k Hk]. unfold spawn, ttrace, trace_child. rewrite bind_map, Hk.
  apply Forall_bind_ext, Forall_forall. intros p Hp. cbn [t_body].
  specialize (rank_top ty). rewrite (trace_handler p ty v (S k)), (trace_handler p ty v k); auto with lia.
Qed.

Ltac trace_unfold Hp :=
  unfold state_trace; cbn [tasks]; rewrite (ttrace_perm _ _ _ Hp), ?bind_cons; unfold ttrace; cbn [t_body];
  rewrite ?trace_eq; simpl.

(** Each step consumes one event of the run the tasks have left, and
    prints the line of that event. *)
Lemma bstep_trace st st' :
  bstep st st' ->
  exists e, state_trace st ≡ₚ e :: state_trace st' /\ blog st' = blog st ++ option_list (ev_line e).
Proof.
  destruct 1 as [ts rest sid f a body lg Hp|ts rest sid n body lg Hp
    |ts rest sid ty v body lg Hp Hacc Hadm|ts rest sid ty v body lg Hp Hacc
    |ts rest sid st body lg Hp Hb Hfin|ts rest sid lg Hp].
  - exists (EvLine (f, a)). split; [by trace_unfold Hp|done].
  - exists EvStep. split; [by trace_unfold Hp|by rewrite app_nil_r].
  - exists EvStep. split; [|by rewrite app_nil_r]. trace_unfold Hp.
    rewrite bool_decide_false by done. rewrite bind_app, spawn_trace. solve_Permutation.
  - exists EvStep. split; [|by rewrite app_nil_r]. trace_unfold Hp.
    by rewrite bool_decide_true.
  - exists EvStep. split; [|by rewrite app_nil_r]. trace_unfold Hp. by destruct st.
  - exists EvDone. split; [by trace_unfold Hp|by rewrite app_nil_r].
Qed.

(** Every run ends: each step consumes an event of the finite run left. *)
Lemma bus_terminates_aux st : Acc (fun b a => bstep a b) st.
Proof.
  induction st as [st IH] using (well_founded_induction
    (Wf_nat.well_founded_ltof _ (fun st => length (state_trace st)))).
  constructor. intros st' Hs. apply IH. unfold Wf_nat.ltof.
  destruct (bstep_trace _ _ Hs) as (e & Hp & _). rewrite Hp. simpl. lia.
Qed.

(** The lines printed so far and those the tasks will print make up,
    as a multiset, the same lines along every run. *)
Lemma bus_log_aux st0 st :
  rtc bstep st0 st ->
  blog st ++ omap ev_line (state_trace st) ≡ₚ blog st0 ++ omap ev_line (state_trace st0).
Proof.
  induction 1 as [|x y z Hs _ IH]; [done|]. rewrite IH.
  destruct (bstep_trace _ _ Hs) as (e & Hp & ->). rewrite Hp, <-app_assoc.
  by destruct e.
Qed.

(** ** Counting tasks *)

Lemma tasks_of_app o l1 l2 : tasks_of o (l1 ++ l2) = tasks_of o l1 + tasks_of o l2.
Proof. unfold tasks_of. by rewrite filter_app, length_app. Qed.

Lemma tasks_of_cons o t l :
  tasks_of o (t :: l) = (if decide (t_sub t = o) then 1 else 0) + tasks_of o l.
Proof. unfold tasks_of. rewrite filter_cons. by case_decide. Qed.

Lemma tasks_of_perm o ts t rest :
  ts ≡ₚ t :: rest -> tasks_of o ts = (if decide (t_sub t = o) then 1 else 0) + tasks_of o rest.
Proof. intros Hp. rewrite <-tasks_of_cons. unfold tasks_of. by rewrite Hp. Qed.

Lemma tasks_of_spawn o ty v :
  tasks_of o (spawn ty v) = length (filter (fun p => Some p.1 = o) (accepting ty)).
Proof.
  unfold spawn. induction (accepting ty) as [|p l IH]; [done|]. cbn [map].
  rewrite tasks_of_cons, IH, filter_cons. simpl. by repeat case_decide.
Qed.

(** A send starts at most one invocation of each subscription, and only
    of an accepting one. *)
Lemma live_spawn i ty v :
  live i (spawn ty v) <= 1 /\
  (live i (spawn ty v) <> 0 -> exists s, (i, s) ∈ accepting ty).
Proof.
  unfold live. rewrite tasks_of_spawn. split.
  - unfold accepting. rewrite list_filter_filter.
    etrans; [|apply (filter_imap_index (fun s => sub_ty s = ty) subs id i _)].
    apply Nat.eq_le_incl. f_equal. apply list_filter_iff. intros [j s]; simpl. naive_solver.
  - destruct (filter _ _) as [|p l] eqn:Hf; [done|]. intros _.
    assert (Hp : p ∈ filter (fun p => Some p.1 = Some i) (accepting ty)) by (rewrite Hf; set_solver).
    apply list_elem_of_filter in Hp as [[= <-] Hp]. exists p.2. by destruct p.
Qed.

(** ** The invariant of the pool *)

(** Every task is ranked, [main] runs once, and no subscription has
    more invocations at work than its capacity. *)
Definition bus_inv (st : BState T) : Prop :=
  Forall task_ok (tasks st) /\ mains (tasks st) <= 1 /\
  forall i s, subs !! i = Some s -> live i (tasks st) <= sub_cap s.

Lemma task_ok_tail sid x b : task_ok (mkTask sid (x :: b)) -> task_ok (mkTask sid b).
Proof. unfold task_ok; destruct sid; simpl; [|by inversion 1]. intros (s & ? & Hf). inversion Hf; eauto. Qed.

Lemma task_ok_nil sid b : task_ok (mkTask sid b) -> task_ok (mkTask sid []).
Proof. unfold task_ok; destruct sid; simpl; naive_solver. Qed.

Lemma task_ok_spawn ty v : Forall task_ok (spawn ty v).
Proof.
  apply Forall_forall. intros t (p & -> & Hp)%list_elem_of_fmap.
  apply elem_of_accepting in Hp as [Hs _]. exists p.2. split; [done|]. by apply (handlers_ranked p.1).
Qed.

Lemma admits_spec ty ts p : admits ty ts = true -> p ∈ accepting ty -> live p.1 ts < sub_cap p.2.
Proof.
  unfold admits. rewrite forallb_forall. intros Ha Hp. apply list_elem_of_In in Hp.
  specialize (Ha p Hp). by apply bool_decide_eq_true in Ha.
Qed.

Lemma bstep_task_ok st st' : bstep st st' -> Forall task_ok (tasks st) -> Forall task_ok (tasks st').
Proof.
  destruct 1 as [ts rest sid f a body lg Hp|ts rest sid n body lg Hp
    |ts rest sid ty v body lg Hp Hacc Hadm|ts rest sid ty v body lg Hp Hacc
    |ts rest sid st body lg Hp Hb Hfin|ts rest sid lg Hp];
    simpl; rewrite Hp; intros [Ht Hok]%Forall_cons;
    try (constructor; [first [by eapply task_ok_tail | by eapply task_ok_nil]|]); try done.
  apply Forall_app. split; [done|apply task_ok_spawn].
Qed.

(** [tasks_of] across a step: the stepping task keeps its subscription
    (or ends), a send adds the invocations it starts. *)
Lemma bstep_count o st st' :
  bstep st st' ->
  tasks_of o (tasks st') <= tasks_of o (tasks st) \/
  exists ty v, admits ty (tasks st) = true /\
               tasks_of o (tasks st') = tasks_of o (tasks st) + tasks_of o (spawn ty v).
Proof.
  destruct 1 as [ts rest sid f a body lg Hp|ts rest sid n body lg Hp
    |ts rest sid ty v body lg Hp Hacc Hadm|ts rest sid ty v body lg Hp Hacc
    |ts rest sid st body lg Hp Hb Hfin|ts rest sid lg Hp]; simpl;
    rewrite (tasks_of_perm _ _ _ _ Hp), ?tasks_of_cons, ?tasks_of_app;
    simpl; try lia.
  right. exists ty, v. split; [done|]. lia.
Qed.

Lemma bus_inv_step st st' : bstep st st' -> bus_inv st -> bus_inv st'.
Proof.
  intros Hs (Hok & Hm & Hl). split_and!; [by eapply bstep_task_ok| |].
  - unfold mains in *. destruct (bstep_count None _ _ Hs) as [|(ty & v & _ & ->)]; [lia|].
    rewrite tasks_of_spawn, filter_none; [simpl; lia|]. set_solver.
  - intros i s Hi. specialize (Hl i s Hi). unfold live in *.
    destruct (bstep_count (Some i) _ _ Hs) as [|(ty & v & Hadm & ->)]; [lia|].
    destruct (live_spawn i ty v) as [H1 H2]. unfold live in *.
    destruct (decide (tasks_of (Some i) (spawn ty v) = 0)) as [->|Hne]; [lia|].
    destruct (H2 Hne) as [s' Hs']. pose proof (admits_spec _ _ _ Hadm Hs') as Hlt.
    apply elem_of_accepting in Hs' as [Hs' _]. simpl in *. rewrite Hs' in Hi. injection Hi as ->.
    unfold live in Hlt. lia.
Qed.

Lemma bus_inv_reach st st' : bus_inv st -> rtc bstep st st' -> bus_inv st'.
Proof. intros Hi Hr. eapply rtc_preserved; [|exact Hi|exact Hr]. apply bus_inv_step. Qed.

Lemma level_handler t i s :
  t_sub t = Some i -> subs !! i = Some s -> level t = rank (sub_ty s).
Proof. unfold level. by intros -> ->. Qed.

(** The first statement of a ranked task sends below its level. *)
Lemma send_below_level sid ty v body :
  task_ok (mkTask sid (SSend ty v :: body)) -> rank ty < level (mkTask sid (SSend ty v :: body)).
Proof.
  unfold task_ok, level; simpl. destruct sid as [i|].
  - intros (s & -> & Hf). simpl. by inversion Hf.
  - by inversion 1.
Qed.

(** A blocked send waits on a full accepting subscription, whose
    invocations are tasks of the send's rank. *)
Lemma blocked_send_witness ty ts :
  (forall i s, subs !! i = Some s -> 0 < sub_cap s) ->
  admits ty ts = false -> exists t, t ∈ ts /\ level t = rank ty.
Proof.
  intros Hcap Hadm. apply forallb_false in Hadm as (p & Hp & Hlt).
  apply bool_decide_eq_false in Hlt. apply elem_of_accepting in Hp as [Hs Hty].
  specialize (Hcap _ _ Hs). unfold live, tasks_of in Hlt.
  destruct (filter _ ts) as [|t l] eqn:Hf; [simpl in Hlt; lia|].
  assert (Ht : t ∈ filter (fun t => t_sub t = Some p.1) ts) by (rewrite Hf; set_solver).
  apply list_elem_of_filter in Ht as [Hsub Ht]. exists t. split; [done|].
  rewrite (level_handler _ _ _ Hsub Hs). by rewrite Hty.
Qed.

(** [flush] or [close] in [main] waits for no one: a least-level task
    at a barrier is [main], and every other task would be of a lower
    level or a second [main]. *)
Lemma barrier_alone ts t rest :
  bus_inv (mkBS ts []) -> ts ≡ₚ t :: rest -> t_sub t = None ->
  (forall y, y ∈ ts -> level t <= level y) -> rest = [].
Proof.
  intros (Hok & Hm & _) Hp Hmain Hmin. destruct rest as [|y rest]; [done|]. exfalso.
  assert (Hy : y ∈ ts) by (rewrite Hp; set_solver). specialize (Hmin y Hy).
  unfold level at 1 in Hmin. rewrite Hmain in Hmin.
  simpl in Hok. rewrite Forall_forall in Hok. specialize (Hok y Hy). unfold task_ok in Hok.
  destruct (t_sub y) as [j|] eqn:Hj.
  - destruct Hok as (s & Hs & _). rewrite (level_handler _ _ _ Hj Hs) in Hmin.
    specialize (rank_top (sub_ty s)). lia.
  - unfold mains in Hm. simpl in Hm. rewrite (tasks_of_perm _ _ _ _ Hp), tasks_of_cons in Hm.
    rewrite !decide_True in Hm by done. lia.
Qed.

(** No deadlock: while tasks are left, some task can step. *)
Lemma bus_progress_aux st :
  (forall i s, subs !! i = Some s -> 0 < sub_cap s) ->
  bus_inv st -> tasks st <> [] -> exists st', bstep st st'.
Proof.
  destruct st as [ts lg]; simpl. intros Hcap Hinv Hne.
  assert (Hinv' : bus_inv (mkBS ts [])) by exact Hinv.
  destruct Hinv as (Hok & _ & _).
  destruct (list_min_exists level ts Hne) as (t & Ht & Hmin).
  pose proof Ht as Hp. apply elem_of_Permutation in Hp as [rest Hp].
  assert (Htok : task_ok t) by (rewrite Forall_forall in Hok; auto).
  destruct t as [sid [|st body]]; [eexists; by eapply bs_done|].
  destruct st as [f a|n|ty v| |].
  - eexists. by eapply bs_print.
  - eexists. by eapply bs_sleep.
  - destruct (decide (accepting ty = [])) as [Hn|Hn]; [eexists; by eapply bs_send_none|].
    destruct (admits ty ts) eqn:Hadm; [eexists; by eapply bs_send|].
    destruct (blocked_send_witness ty ts Hcap Hadm) as (t' & Ht' & Hl).
    pose proof (send_below_level _ _ _ _ Htok). specialize (Hmin t' Ht'). lia.
  - destruct sid; [by destruct Htok as (? & _ & Hf); inversion Hf|].
    rewrite (barrier_alone _ _ _ Hinv' Hp eq_refl Hmin) in Hp. eexists. by eapply bs_barrier.
  - destruct sid; [by destruct Htok as (? & _ & Hf); inversion Hf|].
    rewrite (barrier_alone _ _ _ Hinv' Hp eq_refl Hmin) in Hp. eexists. by eapply bs_barrier.
Qed.

(** ** Where each task is in its body *)

(** [main] is a suffix of its body [main0]; a handler invocation is a
    suffix of the body of [handle] for some message. *)
Definition body_at (main0 : list (Stmt T)) (t : Task T) : Prop :=
  match t_sub t with
  | None => t_body t `suffix_of` main0
  | Some i => exists s v, subs !! i = Some s /\ t_body t `suffix_of` sub_handle s v
  end.

Lemma body_at_tail main0 sid x b : body_at main0 (mkTask sid (x :: b)) -> body_at main0 (mkTask sid b).
Proof.
  unfold body_at; destruct sid; simpl; [|apply suffix_cons_l].
  intros (s & v & Hs & Hb). exists s, v. split; [done|]. by eapply suffix_cons_l.
Qed.

Lemma body_at_nil main0 sid b : body_at main0 (mkTask sid b) -> body_at main0 (mkTask sid []).
Proof.
  unfold body_at; destruct sid; simpl; [|intros; apply suffix_nil].
  intros (s & v & Hs & _). exists s, v. split; [done|apply suffix_nil].
Qed.

Lemma body_at_spawn main0 ty v : Forall (body_at main0) (spawn ty v).
Proof.
  apply Forall_forall. intros t (p & -> & Hp)%list_elem_of_fmap.
  apply elem_of_accepting in Hp as [Hs _]. by exists p.2, v.
Qed.

Lemma bstep_body_at main0 st st' :
  bstep st st' -> Forall (body_at main0) (tasks st) -> Forall (body_at main0) (tasks st').
Proof.
  destruct 1 as [ts rest sid f a body lg Hp|ts rest sid n body lg Hp
    |ts rest sid ty v body lg Hp Hacc Hadm|ts rest sid ty v body lg Hp Hacc
    |ts rest sid st body lg Hp Hb Hfin|ts rest sid lg Hp];
    simpl; rewrite Hp; intros [Ht Hok]%Forall_cons;
    try (constructor; [first [by eapply body_at_tail | by eapply body_at_nil]|]); try done.
  apply Forall_app. split; [done|apply body_at_spawn].
Qed.

(** ** Runs of a program *)

(** The bus of a program: [main] alone, nothing printed. *)
Definition bus_init (main0 : list (Stmt T)) : BState T := mkBS [mkTask None main0] [].

Lemma bus_inv_init main0 :
  Forall main_stmt main0 -> bus_inv (bus_init main0).
Proof.
  intros Hm. split_and!; simpl; [by repeat constructor|unfold mains, tasks_of; simpl; lia|].
  intros i s _. unfold live, tasks_of. simpl. lia.
Qed.

Lemma bus_log_init main0 st :
  rtc bstep (bus_init main0) st ->
  blog st ++ omap ev_line (state_trace st) ≡ₚ omap ev_line (trace top main0).
Proof.
  intros Hr. rewrite (bus_log_aux _ _ Hr). unfold state_trace, bus_init; cbn [tasks blog].
  by rewrite bind_singleton.
Qed.

(** A run that cannot go on has no task left. *)
Lemma bus_stuck_nil main0 st :
  Forall main_stmt main0 -> (forall i s, subs !! i = Some s -> 0 < sub_cap s) ->
  rtc bstep (bus_init main0) st -> (forall st', ~ bstep st st') -> tasks st = [].
Proof.
  intros Hm Hcap Hr Hstuck. destruct (decide (tasks st = [])) as [|Hne]; [done|].
  destruct (bus_progress_aux st Hcap (bus_inv_reach _ _ (bus_inv_init _ Hm) Hr) Hne) as [st' Hs].
  by destruct (Hstuck st').
Qed.

(** Every run of a program ends; a run that cannot go on has no task
    left, and has printed the lines of [main]'s [trace], in some order. *)
Theorem bus_complete main0 st :
  Forall main_stmt main0 -> (forall i s, subs !! i = Some s -> 0 < sub_cap s) ->
  rtc bstep (bus_init main0) st -> (forall st', ~ bstep st st') ->
  tasks st = [] /\ blog st ≡ₚ omap ev_line (trace top main0).
Proof.
  intros Hm Hcap Hr Hstuck. pose proof (bus_stuck_nil _ _ Hm Hcap Hr Hstuck) as Hts.
  split; [done|]. rewrite <-(bus_log_init _ _ Hr). unfold state_trace. rewrite Hts. simpl.
  by rewrite app_nil_r.
Qed.

(** [n] steps consume [n] events of the run left. *)
Lemma bstep_nsteps n st st' :
  nsteps bstep n st st' -> length (state_trace st) = n + length (state_trace st').
Proof.
  induction 1 as [|n x y z Hs _ IH]; [done|].
  destruct (bstep_trace _ _ Hs) as (e & Hp & _). apply Permutation_length in Hp. simpl in Hp. lia.
Qed.

(** The length of every run of a program is bounded by the events of
    [main]'s [trace], and every run that cannot go on has exactly that
    many steps, whatever the order of the tasks. *)
Theorem bus_run_length main0 n st :
  Forall main_stmt main0 -> (forall i s, subs !! i = Some s -> 0 < sub_cap s) ->
  nsteps bstep n (bus_init main0) st ->
  n <= length (trace top main0) /\ ((forall st', ~ bstep st st') -> n = length (trace top main0)).
Proof.
  intros Hm Hcap Hn. pose proof (bstep_nsteps _ _ _ Hn) as Hlen.
  unfold state_trace at 1, bus_init in Hlen. cbn [tasks] in Hlen.
  rewrite bind_cons in Hlen. change ([] ≫= ttrace) with (@nil Ev) in Hlen.
  rewrite app_nil_r in Hlen. unfold ttrace in Hlen. cbn [t_body] in Hlen.
  split; [lia|]. intros Hstuck.
  unfold state_trace in Hlen. rewrite (bus_stuck_nil _ _ Hm Hcap (rtc_nsteps_2 _ _ _ Hn) Hstuck) in Hlen.
  simpl in Hlen. lia.
Qed.

Lemma body_at_reach main0 st :
  rtc bstep (bus_init main0) st -> Forall (body_at main0) (tasks st).
Proof.
  intros Hr. apply (rtc_preserved bstep (fun st => Forall (body_at main0) (tasks st)) (bus_init main0) st);
    [intros a b Hs; by apply bstep_body_at| |exact Hr].
  constructor; [unfold body_at; simpl; reflexivity|constructor].
Qed.

End Ranked.
End Bus.
