(* ===== verification/Examples.v ===== *)
(** * The examples of [src/examples/]

    [demo_async.rs]: [TmpReceiver] handles [f32], [u16], [u32], [i32]
    and [i16], each handler but the last sending the next type of the
    chain before it prints; [TmpReceiver2] handles [i32] (printing, then
    sending [5i16]) and [i16].  [main] sends [0f32], flushes and closes.
    [demo_backpressure.rs]: one [MsgF32] handler that sleeps a second,
    subscribed with a queue of one ([limit = 1]); [main] sends eleven
    messages, flushes and closes.

    Each [handle] is its body of [Stmt]s, each [subscribe_*] a [Sub] and
    each [main] a body, run on the bus of [Bus].  The [f32] values of the
    examples are whole numbers and are kept as [Z]; a line is its format
    string and arguments, not the formatted text.  [env_logger::init],
    [poller.await] (the poller ends once [close] has returned) and the
    [sync] methods, which the bus calls only on [sync()], are not
    modelled.  The [#[derive]]s of [demo_backpressure.rs] run through
    the macro of [Derive]: the examples' types have distinct tags, so the
    bus's dispatch by tag is the dispatch by type used here. *)

From S2P Require Import Prelude Envelope Errors Protocol Derive Relay Bus.

Local Open Scope string_scope.

(** The message types of the two examples. *)
Inductive ExTy : Type := TF32 | TU16 | TU32 | TI32 | TI16 | TMsgF32.

#[export] Instance ExTy_eq_dec : EqDecision ExTy.
Proof. solve_decision. Defined.

(** The order of the chain: a handler sends only to a smaller rank. *)
Definition ex_rank (ty : ExTy) : nat :=
  match ty with TF32 => 4 | TU16 => 3 | TU32 => 2 | TI32 => 1 | TI16 | TMsgF32 => 0 end.

Definition ex_top : nat := 5.

Lemma ex_rank_top ty : ex_rank ty < ex_top.
Proof. destruct ty; unfold ex_top; simpl; lia. Qed.

(** ** The tags the bus routes by

    [demo_backpressure.rs] derives [Message] for [struct MsgF32(pub f32)]
    and [MbError] for its [enum Error]; neither carries a [message],
    [type_tag] or [namespace] attribute.  The primitive types' tags come
    from the [messagebus] crate ([prim_tag]). *)

(** [#[derive(Debug, Clone, Message)] struct MsgF32(pub f32);] *)
Definition msg_f32_input : DeriveInput := mkDeriveInput "MsgF32" [] [].

(** [#[derive(Debug, Error, MbError)] enum Error { .. }] *)
Definition bp_error_input : DeriveInput := mkDeriveInput "Error" [] [].

(** [TypeTagged::type_tag_()] of the examples' message types: [None]
    where the derive would fail. *)
Definition ex_tag (ty : ExTy) : option string :=
  match ty with
  | TF32 => Some (prim_tag "f32")
  | TU16 => Some (prim_tag "u16")
  | TU32 => Some (prim_tag "u32")
  | TI32 => Some (prim_tag "i32")
  | TI16 => Some (prim_tag "i16")
  | TMsgF32 =>
      match derive_message msg_f32_input with
      | Done mi => tag_value (mi_tag mi) (fun _ => "")
      | Panic _ => None
      end
  end.

(** [MsgF32] gets the tag ["MsgF32"]; it derives [Clone] but, without
    [#[message(clone)]], it is not clonable for the bus. *)
Lemma msg_f32_derived :
  derive_message msg_f32_input = Done (mkMessageImpl (TagLiteral "MsgF32") false false) /\
  derive_error bp_error_input = Done (TagLiteral "Error").
Proof. split; reflexivity. Qed.

(** The examples' types have distinct tags, so the bus's dispatch by tag
    is the dispatch by type of [Bus.accepting]. *)
Lemma ex_tag_inj ty1 ty2 : is_Some (ex_tag ty1) -> ex_tag ty1 = ex_tag ty2 -> ty1 = ty2.
Proof. destruct ty1, ty2; vm_compute; intros [? Ht]; try done; congruence. Qed.

(** [ex_handlers_ranked subs] closes the rank hypothesis of [Bus] for a
    concrete registry. *)
Ltac ex_handlers_ranked :=
  intros i s v Hs;
  repeat (destruct i as [|i]; [injection Hs as <-; repeat constructor; simpl; lia|]);
  discriminate.

Module DemoAsync.

(** [impl AsyncHandler<f32> for TmpReceiver]: [bus.send(1u16).await?],
    then the line. *)
Definition tmp_receiver_f32 (msg : Z) : list (Stmt ExTy) :=
  [SSend TU16 1; SPrint "TmpReceiver ---> f32 {}" [msg]].

Definition tmp_receiver_u16 (msg : Z) : list (Stmt ExTy) :=
  [SSend TU32 2; SPrint "TmpReceiver ---> u16 {}" [msg]].

Definition tmp_receiver_u32 (msg : Z) : list (Stmt ExTy) :=
  [SSend TI32 3; SPrint "TmpReceiver ---> u32 {}" [msg]].

Definition tmp_receiver_i32 (msg : Z) : list (Stmt ExTy) :=
  [SSend TI16 4; SPrint "TmpReceiver ---> i32 {}" [msg]].

Definition tmp_receiver_i16 (msg : Z) : list (Stmt ExTy) :=
  [SPrint "TmpReceiver ---> i16 {}" [msg]].

(** [impl AsyncHandler<i32> for TmpReceiver2]: the line first, then
    [bus.send(5i16).await?]. *)
Definition tmp_receiver2_i32 (msg : Z) : list (Stmt ExTy) :=
  [SPrint "!!!! TmpReceiver2: ---> 2 i32 {}" [msg]; SSend TI16 5].

(** [impl Handler<i16> for TmpReceiver2] (a blocking handler). *)
Definition tmp_receiver2_i16 (msg : Z) : list (Stmt ExTy) :=
  [SPrint "TmpReceiver2: ---> 2 i16 {}" [msg]].

(** The registry [main] builds: each [subscribe_async::<M>(8, ..)] and
    [subscribe_sync::<i16>(8, ..)] in order. *)
Definition demo_async_subs : list (Sub ExTy) :=
  [mkSub "TmpReceiver" TF32 8 tmp_receiver_f32;
   mkSub "TmpReceiver" TU16 8 tmp_receiver_u16;
   mkSub "TmpReceiver" TU32 8 tmp_receiver_u32;
   mkSub "TmpReceiver" TI32 8 tmp_receiver_i32;
   mkSub "TmpReceiver" TI16 8 tmp_receiver_i16;
   mkSub "TmpReceiver2" TI32 8 tmp_receiver2_i32;
   mkSub "TmpReceiver2" TI16 8 tmp_receiver2_i16].

(** [main] after the bus is built. *)
Definition demo_async_main : list (Stmt ExTy) :=
  [SSend TF32 0;
   SPrint "flush" []; SFlush;
   SPrint "close" []; SClose;
   SPrint "closed" [];
   SPrint "[done]" []].

(** The lines of the handlers: [i32] reaches both receivers, and so do
    the two [i16] messages ([4] and [5]). *)
Definition handler_lines : list Line :=
  [("TmpReceiver ---> f32 {}", [0%Z]);
   ("TmpReceiver ---> u16 {}", [1%Z]);
   ("TmpReceiver ---> u32 {}", [2%Z]);
   ("TmpReceiver ---> i32 {}", [3%Z]);
   ("!!!! TmpReceiver2: ---> 2 i32 {}", [3%Z]);
   ("TmpReceiver ---> i16 {}", [4%Z]);
   ("TmpReceiver2: ---> 2 i16 {}", [4%Z]);
   ("TmpReceiver ---> i16 {}", [5%Z]);
   ("TmpReceiver2: ---> 2 i16 {}", [5%Z])].

Definition main_lines : list Line :=
  [("flush", []); ("close", []); ("closed", []); ("[done]", [])].

Lemma async_handlers_ranked i s v :
  demo_async_subs !! i = Some s -> Forall (stmt_below ex_rank (ex_rank (sub_ty s))) (sub_handle s v).
Proof. revert i s v. ex_handlers_ranked. Qed.

Lemma async_main_ranked : Forall (main_stmt ex_rank ex_top) demo_async_main.
Proof. repeat constructor. Qed.

Lemma main_trace_lines :
  omap ev_line (trace demo_async_subs ex_top demo_async_main) ≡ₚ handler_lines ++ main_lines.
Proof. apply (bool_decide_unpack _ (dec := Permutation_dec _ _)). vm_compute. reflexivity. Qed.

Lemma async_cap_pos i s : demo_async_subs !! i = Some s -> 0 < sub_cap s.
Proof. intros Hs. repeat (destruct i as [|i]; [injection Hs as <-; simpl; lia|]). discriminate. Qed.

(** C18: [demo_async] runs to its end under every schedule of the tasks:
    every run is finite, and a run that cannot go on has no task left and
    has printed the handlers' lines and [main]'s, in some order; [3i32]
    is handled by both receivers, each [i16] ([4] and [5]) twice. *)
Theorem demo_async_completes :
  Acc (fun b a => bstep demo_async_subs a b) (bus_init demo_async_main) /\
  forall st, rtc (bstep demo_async_subs) (bus_init demo_async_main) st -> (forall st', ~ bstep demo_async_subs st st') ->
  tasks st = [] /\ blog st ≡ₚ handler_lines ++ main_lines.
Proof.
  split; [apply (bus_terminates_aux _ _ _ ex_rank_top async_handlers_ranked)|].
  intros st Hr Hstuck.
  destruct (bus_complete _ _ _ ex_rank_top async_handlers_ranked demo_async_main st async_main_ranked async_cap_pos Hr Hstuck)
    as [Hts Hlog].
  split; [done|]. by rewrite Hlog, main_trace_lines.
Qed.

(** ** Runs of the scheduler *)

Lemma demo_async_completes_witness :
  tasks (sched_run demo_async_subs 40 (bus_init demo_async_main)) = [] /\
  blog (sched_run demo_async_subs 40 (bus_init demo_async_main)) ≡ₚ handler_lines ++ main_lines.
Proof.
  apply (proj2 demo_async_completes); [apply sched_run_rtc|].
  intros st'. vm_compute. apply bstep_nil.
Defined.

End DemoAsync.

Module DemoBackpressure.

(** [impl AsyncHandler<MsgF32> for TmpReceiver]: a line, a blocking
    sleep of one second, a line. *)
Definition tmp_receiver_handle (msg : Z) : list (Stmt ExTy) :=
  [SPrint "---> f32 {:?}" [msg]; SSleep 1; SPrint "done" []].

(** [subscribe_async::<MsgF32>(1, BufferUnorderedConfig { buffer_size: 1,
    max_parallel: 1 })]: a queue, and so a [limit], of one. *)
Definition demo_backpressure_subs : list (Sub ExTy) := [mkSub "TmpReceiver" TMsgF32 1 tmp_receiver_handle].

Definition sending_lines : list string :=
  ["sending 1"; "sending 2"; "sending 3"; "sending 4"; "sending 5"; "sending 6";
   "sending 7"; "sending 8"; "sending 9"; "sending 10"; "sending 11"].

(** [println!("sending k"); b.send(MsgF32(32f32)).await.unwrap();] *)
Definition send_step (line : string) : list (Stmt ExTy) :=
  [SPrint line []; SSend TMsgF32 32].

Definition demo_backpressure_main : list (Stmt ExTy) :=
  (sending_lines ≫= send_step) ++
  [SPrint "flush" []; SFlush; SPrint "close" []; SClose; SPrint "closed" []; SPrint "[done]" []].

Definition done_line : Line := ("done", []).

(** The lines a task has left to print. *)
Definition task_lines (t : Task ExTy) : list Line := omap ev_line (ttrace demo_backpressure_subs ex_top t).

Lemma bp_handlers_ranked i s v :
  demo_backpressure_subs !! i = Some s -> Forall (stmt_below ex_rank (ex_rank (sub_ty s))) (sub_handle s v).
Proof. revert i s v. ex_handlers_ranked. Qed.

Lemma bp_main_ranked : Forall (main_stmt ex_rank ex_top) demo_backpressure_main.
Proof. repeat constructor. Qed.

Lemma bp_cap_pos i s : demo_backpressure_subs !! i = Some s -> 0 < sub_cap s.
Proof. destruct i as [|i]; [intros [= <-]; simpl; lia|discriminate]. Qed.

(** An invocation has at most one [done] left to print. *)
Lemma handler_done_le t s v :
  demo_backpressure_subs !! 0 = Some s -> t_body t `suffix_of` sub_handle s v -> occ done_line (task_lines t) <= 1.
Proof.
  intros [= <-] (n & Hn & Heq)%suffix_of_drop. simpl in Hn. unfold task_lines, ttrace. rewrite Heq.
  do 4 (destruct n as [|n]; [vm_compute; lia|]). lia.
Qed.

(** [main], at each point of its body: once it has printed [sending k+1],
    it has at most [11 - k] messages left to send, each printed [done]
    by its invocation. *)
Definition main_check : bool :=
  forallb (fun n =>
    forallb (fun k =>
      match sending_lines !! k with
      | Some line =>
          bool_decide ((line, []) ∈ task_lines (mkTask None (drop n demo_backpressure_main))) ||
          bool_decide (occ done_line (task_lines (mkTask None (drop n demo_backpressure_main))) + k <= 11)
      | None => true
      end) (seq 0 11)) (seq 0 (S (length demo_backpressure_main))).

Lemma main_check_ok : main_check = true.
Proof. vm_compute. reflexivity. Qed.

Lemma main_done_le n k line :
  n <= length demo_backpressure_main -> sending_lines !! k = Some line ->
  (line, []) ∉ task_lines (mkTask None (drop n demo_backpressure_main)) ->
  occ done_line (task_lines (mkTask None (drop n demo_backpressure_main))) + k <= 11.
Proof.
  intros Hn Hk Hnot. pose proof main_check_ok as Hc. unfold main_check in Hc.
  rewrite forallb_forall in Hc. specialize (Hc n). rewrite forallb_forall in Hc.
  assert (Hk' : k < 11) by (apply lookup_lt_Some in Hk; exact Hk).
  specialize (Hc ltac:(apply in_seq; lia) k ltac:(apply in_seq; lia)).
  rewrite Hk in Hc. apply orb_true_iff in Hc as [Hc|Hc]; apply bool_decide_eq_true in Hc; done.
Qed.

Lemma sending_once k line :
  sending_lines !! k = Some line -> occ ((line, []) : Line) (omap ev_line (trace demo_backpressure_subs ex_top demo_backpressure_main)) = 1.
Proof.
  intros Hk. do 11 (destruct k as [|k]; [injection Hk as <-; vm_compute; reflexivity|]). discriminate.
Qed.

Lemma done_total : occ done_line (omap ev_line (trace demo_backpressure_subs ex_top demo_backpressure_main)) = 11.
Proof. vm_compute. reflexivity. Qed.

(** The lines left: [main]'s (if it runs) have no [sending k+1] once it
    is printed, and at most one invocation is at work. *)
Lemma lines_bound st k line :
  rtc (bstep demo_backpressure_subs) (bus_init demo_backpressure_main) st -> sending_lines !! k = Some line ->
  (line, []) ∉ tasks st ≫= task_lines -> occ done_line (tasks st ≫= task_lines) + k <= 12.
Proof.
  intros Hr Hk Hnot. assert (Hk' : k < 11) by (apply lookup_lt_Some in Hk; exact Hk).
  pose proof (bus_inv_reach _ _ _ ex_rank_top bp_handlers_ranked _ _
    (bus_inv_init _ _ _ _ bp_main_ranked) Hr) as (_ & Hm & Hl).
  pose proof (body_at_reach _ demo_backpressure_main st Hr) as Hbody. rewrite Forall_forall in Hbody.
  set (ts := tasks st) in *. clearbody ts.
  assert (Hsplit : ts ≡ₚ filter (fun t => t_sub t = None) ts ++ filter (fun t => t_sub t <> None) ts)
    by (symmetry; apply filter_app_complement).
  rewrite Hsplit, bind_app, elem_of_app in *. rewrite occ_app.
  assert (Hh : occ done_line (filter (fun t => t_sub t <> None) ts ≫= task_lines) <= 1).
  { etrans; [apply occ_bind_le|].
    - intros t [Hs Ht]%list_elem_of_filter. specialize (Hbody t Ht). unfold body_at in Hbody.
      destruct (t_sub t) as [i|]; [|done]. destruct Hbody as (s & v & Hi & Hsuf).
      destruct i as [|i]; [|by destruct i]. by eapply handler_done_le.
    - etrans; [|apply (Hl 0 _ eq_refl)]. apply filter_length_mono.
      intros t Ht Hs. specialize (Hbody t Ht). unfold body_at in Hbody.
      destruct (t_sub t) as [i|]; [|done]. destruct Hbody as (s & v & Hi & _).
      by destruct i as [|[|]]. }
  assert (Hm1 : length (filter (fun t => t_sub t = None) ts) <= 1).
  { etrans; [|exact Hm]. unfold mains, tasks_of. apply Nat.eq_le_incl. f_equal. by apply list_filter_iff. }
  destruct (filter (fun t => t_sub t = None) ts) as [|m [|m' ms]] eqn:Hms; simpl in Hm1;
    [change (occ done_line ([] ≫= task_lines)) with 0; lia| |lia].
  assert (Hm' : m ∈ filter (fun t => t_sub t = None) ts) by (rewrite Hms; set_solver).
  apply list_elem_of_filter in Hm' as [Hnone Hmt]. specialize (Hbody m Hmt).
  unfold body_at in Hbody. rewrite Hnone in Hbody. apply suffix_of_drop in Hbody as (n & Hn & Hb).
  rewrite bind_singleton in *. destruct m as [sid body]. simpl in *. subst sid body.
  pose proof (main_done_le n k line Hn Hk ltac:(intros ?; apply Hnot; by left)). lia.
Qed.

(** C19: backpressure in [demo_backpressure]: under every schedule at most
    one invocation of the handler is at work ([processing <= limit = 1]),
    and [main] prints [sending k+1] only after the handler has printed
    [done] [k - 1] times: each send after the first waits for the
    previous message to be handled. *)
Theorem demo_backpressure_one_at_a_time st :
  rtc (bstep demo_backpressure_subs) (bus_init demo_backpressure_main) st ->
  live 0 (tasks st) <= 1 /\
  forall k line, sending_lines !! k = Some line -> (line, []) ∈ blog st ->
  k <= occ done_line (blog st) + 1.
Proof.
  intros Hr.
  pose proof (bus_inv_reach _ _ _ ex_rank_top bp_handlers_ranked _ _
    (bus_inv_init _ _ _ _ bp_main_ranked) Hr) as (_ & _ & Hl).
  split; [by apply (Hl 0 _ eq_refl)|]. intros k line Hk Hin.
  pose proof (bus_log_init _ _ _ ex_rank_top bp_handlers_ranked demo_backpressure_main st Hr) as Hlog.
  unfold state_trace in Hlog. rewrite omap_bind in Hlog.
  assert (Hocc : forall x, occ x (blog st) + occ x (tasks st ≫= task_lines) =
                           occ x (omap ev_line (trace demo_backpressure_subs ex_top demo_backpressure_main)))
    by (intros x; rewrite <-occ_app; by rewrite Hlog).
  pose proof (Hocc (line, [])) as Hl1. rewrite (sending_once k line Hk) in Hl1.
  apply occ_elem_of in Hin.
  assert (Hnot : (line, []) ∉ tasks st ≫= task_lines) by (rewrite occ_elem_of; lia).
  pose proof (lines_bound st k line Hr Hk Hnot) as Hb.
  pose proof (Hocc done_line) as Hd. rewrite done_total in Hd. lia.
Qed.

(** A run of the scheduler: [sending 3] is printed right after the first
    [done]. *)
Lemma demo_backpressure_one_at_a_time_witness :
  2 <= occ done_line (blog (sched_run demo_backpressure_subs 10 (bus_init demo_backpressure_main))) + 1.
Proof.
  apply (proj2 (demo_backpressure_one_at_a_time _ (sched_run_rtc _ 10 _)) 2 "sending 3");
    [reflexivity|].
  apply (bool_decide_unpack _ (dec := list_elem_of_dec _ _)). vm_compute. reflexivity.
Defined.

End DemoBackpressure.

(** ** Termination of the examples *)

Lemma demo_async_trace_length :
  length (trace DemoAsync.demo_async_subs ex_top DemoAsync.demo_async_main) = 31.
Proof. vm_compute. reflexivity. Qed.

Lemma demo_backpressure_trace_length :
  length (trace DemoBackpressure.demo_backpressure_subs ex_top DemoBackpressure.demo_backpressure_main) = 73.
Proof. vm_compute. reflexivity. Qed.

(** C20: both examples terminate under every schedule of their tasks,
    with the same number of steps: every run of [demo_async] takes at
    most 31 steps of the bus and every run that cannot go on exactly 31;
    for [demo_backpressure] (eleven sends through a queue of one) 73. *)
Theorem examples_run_length :
  (forall n st, nsteps (bstep DemoAsync.demo_async_subs) n (bus_init DemoAsync.demo_async_main) st ->
     n <= 31 /\ ((forall st', ~ bstep DemoAsync.demo_async_subs st st') -> n = 31)) /\
  (forall n st, nsteps (bstep DemoBackpressure.demo_backpressure_subs) n
                       (bus_init DemoBackpressure.demo_backpressure_main) st ->
     n <= 73 /\ ((forall st', ~ bstep DemoBackpressure.demo_backpressure_subs st st') -> n = 73)).
Proof.
  split; intros n st Hn.
  - rewrite <-demo_async_trace_length.
    exact (bus_run_length _ _ _ ex_rank_top DemoAsync.async_handlers_ranked _ n st
             DemoAsync.async_main_ranked DemoAsync.async_cap_pos Hn).
  - rewrite <-demo_backpressure_trace_length.
    exact (bus_run_length _ _ _ ex_rank_top DemoBackpressure.bp_handlers_ranked _ n st
             DemoBackpressure.bp_main_ranked DemoBackpressure.bp_cap_pos Hn).
Qed.

(** The scheduler's runs of both examples end after 31 and 73 steps. *)
Lemma examples_run_length_witness :
  (exists n, nsteps (bstep DemoAsync.demo_async_subs) n (bus_init DemoAsync.demo_async_main)
               (sched_run DemoAsync.demo_async_subs 40 (bus_init DemoAsync.demo_async_main)) /\ n = 31) /\
  (exists n, nsteps (bstep DemoBackpressure.demo_backpressure_subs) n
               (bus_init DemoBackpressure.demo_backpressure_main)
               (sched_run DemoBackpressure.demo_backpressure_subs 80
                  (bus_init DemoBackpressure.demo_backpressure_main)) /\ n = 73).
Proof.
  split.
  - destruct (rtc_nsteps_1 _ _ (sched_run_rtc DemoAsync.demo_async_subs 40 (bus_init DemoAsync.demo_async_main)))
      as [n Hn].
    exists n. split; [exact Hn|]. apply (proj2 (proj1 examples_run_length n _ Hn)).
    intros st'. vm_compute. apply bstep_nil.
  - destruct (rtc_nsteps_1 _ _ (sched_run_rtc DemoBackpressure.demo_backpressure_subs 80
                                  (bus_init DemoBackpressure.demo_backpressure_main))) as [n Hn].
    exists n. split; [exact Hn|]. apply (proj2 (proj2 examples_run_length n _ Hn)).
    intros st'. vm_compute. apply bstep_nil.
Defined.
